(** * repo2text: path tree, tri-state selection and bundle serialisation

    A shallow embedding of the pure core of the application:
    [buildTree], [buildAsciiIndex], [formatRepoOutput], the default
    selection computed by [handleFetch], [handleToggle] (App.tsx),
    [getSelectionStatus] (components/FileTree.tsx) and [sortTreeItems]
    (services/githubService.ts); and, around them, [handleToggleExpand],
    the first expansion and [generateOutput] (App.tsx), the comparator,
    the click handlers and the icons of a row (components/FileTree.tsx),
    [parseRepoUrl] and [fetchFileContents] (services/githubService.ts).

    Conventions of the embedding.
    - A JavaScript string is a [string] (its bytes); [toLowerCase] acts on
      the ASCII letters, which is all that membership in the lower-case
      ASCII allow-list can observe.
    - [SelectionState] is a [gmap string bool], the own keys of the
      object: the code asks [every] over its keys, so their order is never
      observed.  The tree functions read it at the path of a node, which
      in a tree the code builds is never the name of a member of
      [Object.prototype]; there a missing key reads as [undefined], which
      is falsy.  [handleToggle] and [handleFetch] take their key from
      outside: their reads and writes follow the prototype chain
      ([JS.truthyAt], [JS.assign]).
    - [Record<string, TreeNode>] is an ordered list of own properties
      ([Obj]), because [Object.values] order is observable in the rendered
      tree.  [buildTree] reads [current.children[part]] up the prototype
      chain: at a part named like a member of [Object.prototype] it finds
      that member, creates no node and goes on outside the tree
      ([JS.inherited], [walk]).
    - [Object.prototype] has its standard members.  The one thing the code
      can add to it is a member [children], which [buildTree] writes when
      a path goes on after a part [__proto__]; the flag
      [childrenInherited] carries this through [buildTreeIn], and
      [buildTree] starts without it.
    - React state setters are modelled by the function they apply to the
      previous state.
    - The network is a function from the URL of a request to its
      response, [None] when the request is rejected; [Promise.all] keeps
      the order of its promises and rejects when one of them does. *)

From Stdlib Require Import ZArith Ascii String.
From stdpp Require Import base option list strings gmap fin_maps.

Local Open Scope list_scope.
Local Open Scope stdpp_scope.

(** ** JavaScript strings *)

Module JS.

Definition LF : ascii := Ascii.ascii_of_nat 10.

(** [s.split(sep)] for a one-character separator: never empty. *)
Fixpoint split (sep : ascii) (s : string) : list string :=
  match s with
  | EmptyString => [EmptyString]
  | String c r =>
      if Ascii.eqb c sep then EmptyString :: split sep r
      else match split sep r with
           | [] => [String c EmptyString]
           | h :: t => String c h :: t
           end
  end.

(** [parts.join(sep)] *)
Definition join (sep : string) (parts : list string) : string :=
  String.concat sep parts.

(** [s.startsWith(p)] *)
Definition startsWith (s p : string) : bool := String.prefix p s.

Definition lowerChar (c : ascii) : ascii :=
  let n := Ascii.nat_of_ascii c in
  if (65 <=? n)%nat && (n <=? 90)%nat then Ascii.ascii_of_nat (n + 32) else c.

(** [s.toLowerCase()] *)
Fixpoint toLowerCase (s : string) : string :=
  match s with
  | EmptyString => EmptyString
  | String c r => String (lowerChar c) (toLowerCase r)
  end.

(** [arr.pop()] as a value: the last element, [undefined] when empty. *)
Definition pop (arr : list string) : option string := last arr.

(** Truthiness of a possibly undefined string. *)
Definition truthyStr (o : option string) : bool :=
  match o with
  | Some s => negb (String.eqb s "")
  | None => false
  end.

(** Truthiness of a possibly undefined boolean. *)
Definition truthy (o : option bool) : bool := default false o.

(** A possibly undefined string inside a template literal. *)
Definition tpl (o : option string) : string := default "undefined" o.

(** Does [c] occur in [s]? *)
Fixpoint occurs (c : ascii) (s : string) : bool :=
  match s with
  | EmptyString => false
  | String d r => Ascii.eqb d c || occurs c r
  end.

(** Number of occurrences of [c] in [s]. *)
Fixpoint count (c : ascii) (s : string) : nat :=
  match s with
  | EmptyString => 0
  | String d r => (if Ascii.eqb d c then 1 else 0) + count c r
  end.

(** The own property names of [Object.prototype]: what every plain
    object inherits.  Their values are functions, and for [__proto__] the
    prototype itself: all truthy. *)
Definition prototypeNames : list string :=
  ["constructor"; "__defineGetter__"; "__defineSetter__"; "hasOwnProperty";
   "__lookupGetter__"; "__lookupSetter__"; "isPrototypeOf";
   "propertyIsEnumerable"; "toString"; "valueOf"; "__proto__";
   "toLocaleString"].

(** Does a plain object without own key [k] find [k] up the prototype
    chain?  [childrenInherited]: a member [children] has been written on
    [Object.prototype]. *)
Definition inherited (childrenInherited : bool) (k : string) : bool :=
  existsb (String.eqb k) prototypeNames
  || (childrenInherited && String.eqb k "children").

(** Truthiness of [o[k]] for a plain object [o] whose own values are
    booleans: the own value, else a member of [Object.prototype] as the
    standard has it. *)
Definition truthyAt (o : gmap string bool) (k : string) : bool :=
  match o !! k with
  | Some b => b
  | None => inherited false k
  end.

(** [o[k] = v] for a boolean [v] on such an object: an own key is
    written; without one, [__proto__] is found on [Object.prototype] as an
    accessor whose setter ignores a boolean, and every other name becomes
    an own key. *)
Definition assign (k : string) (v : bool) (o : gmap string bool)
    : gmap string bool :=
  match o !! k with
  | Some _ => <[k := v]> o
  | None => if String.eqb k "__proto__" then o else <[k := v]> o
  end.

End JS.

(** ** Ordinary objects used as ordered records *)

Module Obj.

Definition t (A : Type) : Type := list (string * A).

Definition digit (c : ascii) : option N :=
  let n := Ascii.N_of_ascii c in
  if (48 <=? n)%N && (n <=? 57)%N then Some (n - 48)%N else None.

Fixpoint digits (s : string) (acc : N) : option N :=
  match s with
  | EmptyString => Some acc
  | String c r =>
      match digit c with
      | Some d => digits r (10 * acc + d)%N
      | None => None
      end
  end.

(** A property key is an array index when it is the canonical decimal
    form of an integer in [0, 2^32 - 2]. *)
Definition arrayIndex (k : string) : option N :=
  match k with
  | EmptyString => None
  | String c r =>
      if Ascii.eqb c "0"%char then
        (if String.eqb r "" then Some 0%N else None)
      else match digits k 0 with
           | Some n => if (n <? 2 ^ 32 - 1)%N then Some n else None
           | None => None
           end
  end.

(** Is the new key [k] enumerated before the existing key [k']?  Array
    indices come first in ascending order, then the other keys in
    creation order. *)
Definition precedes (k k' : string) : bool :=
  match arrayIndex k, arrayIndex k' with
  | Some i, Some j => (i <? j)%N
  | Some _, None => true
  | None, _ => false
  end.

Section Ops.
Context {A : Type}.

(** [o[k]] *)
Fixpoint get (k : string) (o : t A) : option A :=
  match o with
  | [] => None
  | (k', v) :: r => if String.eqb k k' then Some v else get k r
  end.

Fixpoint replace (k : string) (v : A) (o : t A) : t A :=
  match o with
  | [] => []
  | (k', v') :: r =>
      if String.eqb k k' then (k', v) :: r else (k', v') :: replace k v r
  end.

Fixpoint create (k : string) (v : A) (o : t A) : t A :=
  match o with
  | [] => [(k, v)]
  | (k', v') :: r =>
      if precedes k k' then (k, v) :: (k', v') :: r
      else (k', v') :: create k v r
  end.

(** [o[k] = v]: an existing property keeps its place. *)
Definition set (k : string) (v : A) (o : t A) : t A :=
  match get k o with
  | Some _ => replace k v o
  | None => create k v o
  end.

(** [Object.keys(o)] and [Object.values(o)] *)
Definition keys (o : t A) : list string := map fst o.
Definition values (o : t A) : list A := map snd o.
End Ops.

End Obj.

(** ** types.ts *)

Inductive ItemType := blob | tree.

Definition ItemType_eqb (a b : ItemType) : bool :=
  match a, b with
  | blob, blob | tree, tree => true
  | _, _ => false
  end.

Module GitHubItem.
Record t := mk {
  path : string;
  mode : string;
  type : ItemType;
  sha : string;
  size : option Z;
  url : string
}.
End GitHubItem.

Module RepoDetails.
Record t := mk {
  owner : string;
  repo : string;
  ref : option string;
  path : option string
}.
End RepoDetails.

Inductive ContentType := text | image.

Module FileContent.
Record t := mk {
  path : string;
  text : option string;
  dataUrl : option string;
  url : string;
  type : ContentType;
  mimeType : option string
}.
End FileContent.

Module TreeNode.
#[warnings="-register-all"] Inductive t := mk {
  name : string;
  path : string;
  type : ItemType;
  sha : string;
  url : string;
  children : option (Obj.t t)
}.

(** [node.children || {}] *)
Definition kids (n : t) : Obj.t t := default [] (children n).

Definition setChildren (n : t) (c : Obj.t t) : t :=
  mk (name n) (path n) (type n) (sha n) (url n) (Some c).
End TreeNode.

Abbreviation SelectionState := (gmap string bool).

(** ** App.tsx: buildTree *)

Definition rootNode : TreeNode.t :=
  TreeNode.mk "root" "" tree "" "" (Some []).

(** The object literal assigned to [current.children[part]]. *)
Definition newNode (item : GitHubItem.t) (parts : list string)
    (index : nat) (part : string) : TreeNode.t :=
  let isLast := Nat.eqb index (length parts - 1) in
  TreeNode.mk part
    (JS.join "/" (take (index + 1) parts))
    (if isLast then GitHubItem.type item else tree)
    (if isLast then GitHubItem.sha item else "")
    (if isLast then GitHubItem.url item else "")
    (Some []).

(** The inner [parts.forEach]: [rest] are the parts still to visit,
    [index] the index of the first of them, [current] the node the walk
    stands on.  The result is [current] after the mutations of the walk.
    [current.children[part]] is an own property (a node), or a member
    found up the prototype chain, or [undefined].  On a member found up
    the chain no node is created and [current] becomes that member: the
    walk has left the tree and writes nothing more in it. *)
Fixpoint walk (childrenInherited : bool) (item : GitHubItem.t)
    (parts rest : list string) (index : nat) (current : TreeNode.t)
    : TreeNode.t :=
  match rest with
  | [] => current
  | part :: rest' =>
      let cs := TreeNode.kids current in
      match Obj.get part cs with
      | Some child =>
          TreeNode.setChildren current
            (Obj.set part
               (walk childrenInherited item parts rest' (S index) child) cs)
      | None =>
          if JS.inherited childrenInherited part then current
          else
            TreeNode.setChildren current
              (Obj.set part
                 (walk childrenInherited item parts rest' (S index)
                    (newNode item parts index part)) cs)
      end
  end.

(** Outside the tree the walk stands on functions and on
    [Object.prototype], and [if (!current.children) current.children = {}]
    gives them a [children] of their own.  The children of any object it
    stands on are a plain object, so that the part [__proto__] always
    leads to [Object.prototype]; when a further part follows, the next
    round writes [children] on [Object.prototype] itself. *)
Definition reachesPrototype (parts : list string) : bool :=
  existsb (String.eqb "__proto__") (removelast parts).

(** One round of [items.forEach], on the tree and the flag. *)
Definition addItem (state : TreeNode.t * bool) (item : GitHubItem.t)
    : TreeNode.t * bool :=
  let parts := JS.split "/" (GitHubItem.path item) in
  (walk (snd state) item parts parts 0 (fst state),
   snd state || reachesPrototype parts).

(** [buildTree] from a given state of [Object.prototype], with the state
    it leaves. *)
Definition buildTreeIn (childrenInherited : bool)
    (items : list GitHubItem.t) : TreeNode.t * bool :=
  fold_left addItem items (rootNode, childrenInherited).

(** [buildTree] where nothing has been added to [Object.prototype]. *)
Definition buildTree (items : list GitHubItem.t) : TreeNode.t :=
  fst (buildTreeIn false items).

(** The node reached from [n] by following the segments [ps]. *)
Fixpoint nodeAt (n : TreeNode.t) (ps : list string) : option TreeNode.t :=
  match ps with
  | [] => Some n
  | p :: r =>
      match Obj.get p (TreeNode.kids n) with
      | Some c => nodeAt c r
      | None => None
      end
  end.

(** ** components/FileTree.tsx: getSelectionStatus *)

Inductive Status := checked | unchecked | indeterminate.

Definition Status_eqb (a b : Status) : bool :=
  match a, b with
  | checked, checked | unchecked, unchecked
  | indeterminate, indeterminate => true
  | _, _ => false
  end.

Fixpoint getSelectionStatus (selection : SelectionState) (n : TreeNode.t)
    : Status :=
  match TreeNode.type n with
  | blob =>
      if JS.truthy (selection !! TreeNode.path n) then checked else unchecked
  | tree =>
      match TreeNode.children n with
      | None => unchecked
      | Some cs =>
          if Nat.eqb (length (Obj.keys cs)) 0 then unchecked
          else
            let statuses :=
              map (fun kc => getSelectionStatus selection (snd kc)) cs in
            let allChecked := forallb (fun s => Status_eqb s checked) statuses in
            let allUnchecked :=
              forallb (fun s => Status_eqb s unchecked) statuses in
            if allChecked then checked
            else if allUnchecked then unchecked
            else indeterminate
      end
  end.

(** ** App.tsx: handleToggle *)

(** [toggleChildren] writes into [newState], which is threaded through. *)
Fixpoint toggleChildren (node : TreeNode.t) (targetValue : bool)
    (newState : SelectionState) : SelectionState :=
  let st :=
    match TreeNode.type node with
    | blob => <[TreeNode.path node := targetValue]> newState
    | tree => newState
    end in
  match TreeNode.children node with
  | Some cs =>
      fold_left (fun s kc => toggleChildren (snd kc) targetValue s) cs st
  | None => st
  end.

(** [findAndToggle] returns its boolean together with [newState];
    [Array.prototype.some] stops at the first child answering [true]. *)
Fixpoint findAndToggle (path : string) (isCurrentlySelected : bool)
    (node : TreeNode.t) (newState : SelectionState)
    : bool * SelectionState :=
  if String.eqb (TreeNode.path node) path then
    (true, toggleChildren node (negb isCurrentlySelected) newState)
  else
    match TreeNode.children node with
    | Some cs =>
        (fix some (l : Obj.t TreeNode.t) (s : SelectionState)
           : bool * SelectionState :=
           match l with
           | [] => (false, s)
           | kc :: r =>
               let '(found, s') :=
                 findAndToggle path isCurrentlySelected (snd kc) s in
               if found then (true, s') else some r s'
           end) cs newState
    | None => (false, newState)
    end.

(** The [filter] predicate of [handleToggle]. *)
Definition under (path p : string) : bool :=
  String.eqb p path || JS.startsWith p (path +:+ "/").

Definition selectionKeys (prev : SelectionState) : list string :=
  map fst (map_to_list prev).

Definition isCurrentlySelected (prev : SelectionState) (path : string) : bool :=
  forallb (fun p => JS.truthy (prev !! p))
    (List.filter (under path) (selectionKeys prev)).

(** The updater passed to [setSelection]; [treeData] is [null] before the
    first fetch.  [path] is whatever the caller passes: [prev[path]] and
    [newState[path] = ...] follow the prototype chain. *)
Definition handleToggle (treeData : option TreeNode.t) (path : string)
    (isFile : bool) (prev : SelectionState) : SelectionState :=
  let newState := prev in
  if isFile then JS.assign path (negb (JS.truthyAt prev path)) newState
  else
    match treeData with
    | Some t =>
        snd (findAndToggle path (isCurrentlySelected prev path) t newState)
    | None => newState
    end.

(** ** App.tsx: the default selection of handleFetch *)

Definition COMMON_EXTENSIONS : gset string :=
  list_to_set
    ["js"; "ts"; "jsx"; "tsx"; "py"; "java"; "cpp"; "h"; "html"; "css";
     "md"; "json"; "txt"; "go"; "rs"; "php"; "rb"; "sql"; "yaml"; "yml";
     "toml"].

Definition has (s : gset string) (x : string) : bool := bool_decide (x ∈ s).

(** [path.split('.').pop()?.toLowerCase() || ''] *)
Definition extensionOf (path : string) : string :=
  let lowered := JS.toLowerCase <$> JS.pop (JS.split "." path) in
  if JS.truthyStr lowered then default "" lowered else "".

(** [initialSelection] after the [items.forEach] of [handleFetch]; the
    path of an entry is any string, so the assignment is [JS.assign]. *)
Definition initialSelection (items : list GitHubItem.t) : SelectionState :=
  fold_left
    (fun sel item =>
       match GitHubItem.type item with
       | blob =>
           JS.assign (GitHubItem.path item)
             (has COMMON_EXTENSIONS (extensionOf (GitHubItem.path item))) sel
       | tree => sel
       end)
    items ∅.

(** ** App.tsx: buildAsciiIndex *)

Definition connectorLast : string := "└── ".
Definition connectorMid : string := "├── ".
Definition prefixLast : string := "    ".
Definition prefixMid : string := "│   ".
Definition newline : string := String JS.LF EmptyString.

Fixpoint buildAsciiIndex (node : TreeNode.t) (prefix : string)
    (isLast : bool) : string :=
  let body := fun cs : Obj.t TreeNode.t =>
    let len := length (Obj.values cs) in
    if String.eqb (TreeNode.name node) "root" then
      JS.join ""
        ((fix each (l : Obj.t TreeNode.t) (i : nat) : list string :=
            match l with
            | [] => []
            | kc :: r =>
                buildAsciiIndex (snd kc) "" (Nat.eqb i (len - 1))
                  :: each r (S i)
            end) cs 0)
    else
      let connector := if isLast then connectorLast else connectorMid in
      let result := prefix +:+ connector +:+ TreeNode.name node +:+ newline in
      let childPrefix :=
        prefix +:+ (if isLast then prefixLast else prefixMid) in
      (fix each (l : Obj.t TreeNode.t) (i : nat) (result : string) : string :=
         match l with
         | [] => result
         | kc :: r =>
             each r (S i)
               (result +:+
                  buildAsciiIndex (snd kc) childPrefix (Nat.eqb i (len - 1)))
         end) cs 0 result in
  (* [node.children || {}] *)
  match TreeNode.children node with
  | Some cs => body cs
  | None => body []
  end.

(** [buildAsciiIndex(tree)] with its default arguments. *)
Definition renderTree (t : TreeNode.t) : string := buildAsciiIndex t "" true.

(** ** services/githubService.ts: sortTreeItems, and App.tsx: formatRepoOutput

    [String.prototype.localeCompare] depends on the host's collation; it is
    a parameter of the development. *)

Inductive OutputFormat := txt | md.

Section Serializer.

Variable localeCompare : string → string → Z.

(** The [for] loop of the comparator: [Some r] when it returns [r] at
    index [i] or later, [None] when it runs to [minLen]. *)
Fixpoint firstDifference (aParts bParts : list string)
    (i aLen bLen : nat) : option Z :=
  match aParts, bParts with
  | a :: aRest, b :: bRest =>
      if negb (String.eqb a b) then
        let aIsDeep := (i <? aLen - 1)%nat in
        let bIsDeep := (i <? bLen - 1)%nat in
        if aIsDeep && negb bIsDeep then Some (-1)%Z
        else if negb aIsDeep && bIsDeep then Some 1%Z
        else Some (localeCompare a b)
      else firstDifference aRest bRest (S i) aLen bLen
  | _, _ => None
  end.

(** The comparator handed to [sort]. *)
Definition comparePaths (a b : string) : Z :=
  let aParts := JS.split "/" a in
  let bParts := JS.split "/" b in
  match firstDifference aParts bParts 0 (length aParts) (length bParts) with
  | Some r => r
  | None => (Z.of_nat (length aParts) - Z.of_nat (length bParts))%Z
  end.

Section Sort.
Context {T : Type} (path : T → string).

(** [Array.prototype.sort] is the engine's.  Of every engine the result
    is a rearrangement of the input, and where the comparator is
    consistent on the items it is the items in the order of the
    comparator, those that compare equal in the order of the input: the
    stable insertion sort below returns that.  Where the comparator is
    not consistent (it is cyclic on some lists in which a path is a
    segment prefix of another) the order of the result is the engine's
    own; there only the rearrangement is meant. *)
Fixpoint insertSorted (x : T) (sorted : list T) : list T :=
  match sorted with
  | [] => [x]
  | y :: r =>
      if (comparePaths (path x) (path y) <=? 0)%Z then x :: y :: r
      else y :: insertSorted x r
  end.

Definition sortTreeItems (items : list T) : list T :=
  foldr insertSorted [] items.
End Sort.

Definition nl : string := newline.
Definition fence : string := "```".

Definition ContentType_eqb (a b : ContentType) : bool :=
  match a, b with
  | text, text | image, image => true
  | _, _ => false
  end.

(** What the Markdown loop appends for one file. *)
Definition mdStep (output : string) (file : FileContent.t) : string :=
  let path := FileContent.path file in
  if ContentType_eqb (FileContent.type file) image
     && JS.truthyStr (FileContent.dataUrl file) then
    output +:+ nl +:+ "### File: " +:+ path +:+ nl +:+ nl +:+
      "![" +:+ path +:+ "](" +:+ JS.tpl (FileContent.dataUrl file) +:+ ")"
      +:+ nl
  else if ContentType_eqb (FileContent.type file) text then
    let popped := JS.pop (JS.split "." path) in
    let ext := if JS.truthyStr popped then default "" popped else "" in
    output +:+ nl +:+ "### File: " +:+ path +:+ nl +:+ nl +:+
      fence +:+ ext +:+ nl +:+ JS.tpl (FileContent.text file) +:+ nl +:+
      fence +:+ nl
  else output.

(** What the plain-text loop appends for one file. *)
Definition txtStep (output : string) (file : FileContent.t) : string :=
  let path := FileContent.path file in
  if ContentType_eqb (FileContent.type file) text then
    output +:+ nl +:+ "---" +:+ nl +:+ "FILE: " +:+ path +:+ nl +:+
      "---" +:+ nl +:+ nl +:+ JS.tpl (FileContent.text file) +:+ nl
  else
    output +:+ nl +:+ "---" +:+ nl +:+ "FILE: " +:+ path +:+
      " (Image Content: " +:+ JS.tpl (FileContent.mimeType file) +:+ ")"
      +:+ nl +:+ "---" +:+ nl.

Definition repoLabel (repoDetails : option RepoDetails.t) : string :=
  JS.tpl (RepoDetails.owner <$> repoDetails) +:+ "/" +:+
  JS.tpl (RepoDetails.repo <$> repoDetails).

Definition mdHeader (index : string) (repoDetails : option RepoDetails.t)
    : string :=
  let output := "# Repository: " +:+ repoLabel repoDetails +:+ nl +:+ nl in
  let output :=
    output +:+ "## Directory Structure" +:+ nl +:+ nl +:+ fence +:+ "text"
      +:+ nl +:+ index +:+ nl +:+ fence +:+ nl +:+ nl in
  output +:+ "## Files" +:+ nl.

Definition txtHeader (index : string) (repoDetails : option RepoDetails.t)
    : string :=
  let output := "REPOSITORY: " +:+ repoLabel repoDetails +:+ nl in
  output +:+ "STRUCTURE:" +:+ nl +:+ nl +:+ index +:+ nl +:+ nl.

Definition formatRepoOutput (contents : list FileContent.t)
    (tree : TreeNode.t) (format : OutputFormat)
    (repoDetails : option RepoDetails.t) : string :=
  let sorted := sortTreeItems FileContent.path contents in
  let index := renderTree tree in
  match format with
  | md => fold_left mdStep sorted (mdHeader index repoDetails)
  | txt => fold_left txtStep sorted (txtHeader index repoDetails)
  end.

End Serializer.

(** ** App.tsx: handleToggleExpand, and the expansion set of handleFetch

    [Set<string>] is a [gset string]: the code only asks [has]. *)

(** The updater passed to [setExpandedPaths]. *)
Definition handleToggleExpand (path : string) (prev : gset string)
    : gset string :=
  let next := prev in
  if has next path then next ∖ {[path]} else next ∪ {[path]}.

(** [initialExpansion] after the [items.forEach] of [handleFetch]. *)
Definition initialExpansion (items : list GitHubItem.t) : gset string :=
  fold_left
    (fun expansion item =>
       match GitHubItem.type item with
       | blob => expansion
       | tree =>
           if (length (JS.split "/" (GitHubItem.path item)) <? 2)%nat
           then expansion ∪ {[GitHubItem.path item]}
           else expansion
       end)
    items {[""]}.

(** ** services/githubService.ts: fetchFileContents

    The network is a function from the URL to what [fetch] resolves to,
    [None] when it rejects.  A response offers its text, and its blob as the
    data URL the [FileReader] ends with ([null] on a read error) and the
    blob's media type. *)

Module FetchTarget.
Record t := mk {
  path : string;
  url : string
}.
End FetchTarget.

Module Response.
Record t := mk {
  ok : bool;
  text : string;
  dataUrl : option string;
  blobType : string
}.
End Response.

Module Service.

Definition IMAGE_EXTENSIONS : gset string :=
  list_to_set ["png"; "jpg"; "jpeg"; "gif"; "webp"; "ico"].

(** One element of the [files.map]: [None] when its promise rejects. *)
Definition fetchOne (fetch : string → option Response.t)
    (file : FetchTarget.t) : option FileContent.t :=
  let ext := extensionOf (FetchTarget.path file) in
  let isImage := has IMAGE_EXTENSIONS ext in
  match fetch (FetchTarget.url file) with
  | None => None
  | Some response =>
      if negb (Response.ok response) then None
      else if isImage then
        Some (FileContent.mk (FetchTarget.path file) None
                (Response.dataUrl response) (FetchTarget.url file) image
                (Some (Response.blobType response)))
      else
        Some (FileContent.mk (FetchTarget.path file)
                (Some (Response.text response)) None (FetchTarget.url file)
                text None)
  end.

(** [Promise.all]: the results in the order of the files, or a rejection
    ([None]) as soon as one promise rejects. *)
Definition fetchFileContents (fetch : string → option Response.t)
    (files : list FetchTarget.t) : option (list FileContent.t) :=
  mapM (fetchOne fetch) files.

End Service.

(** ** App.tsx: generateOutput *)

(** The [traverse] of [generateOutput]; [filesToFetch] is threaded
    through. *)
Fixpoint traverse (selection : SelectionState) (node : TreeNode.t)
    (filesToFetch : list FetchTarget.t) : list FetchTarget.t :=
  let pushed :=
    match TreeNode.type node with
    | blob =>
        if JS.truthy (selection !! TreeNode.path node)
        then filesToFetch ++
             [FetchTarget.mk (TreeNode.path node) (TreeNode.url node)]
        else filesToFetch
    | tree => filesToFetch
    end in
  match TreeNode.children node with
  | Some cs => fold_left (fun acc kc => traverse selection (snd kc) acc) cs pushed
  | None => pushed
  end.

Inductive DownloadFormat := asTxt | asMd | asPdf.

(** What one run of [generateOutput] leaves in the state. *)
Inductive Generation :=
| NoTree
| SelectionError (error : string)
| FetchRejected
| Generated (fetchedContents : list FileContent.t) (output : string).

Definition generateOutput (localeCompare : string → string → Z)
    (fetch : string → option Response.t) (treeData : option TreeNode.t)
    (selection : SelectionState) (downloadFormat : DownloadFormat)
    (activeRepoDetails : option RepoDetails.t) : Generation :=
  match treeData with
  | None => NoTree
  | Some t =>
      let filesToFetch := traverse selection t [] in
      if Nat.eqb (length filesToFetch) 0
      then SelectionError "Please select at least one file."
      else
        match Service.fetchFileContents fetch filesToFetch with
        | None => FetchRejected
        | Some contents =>
            Generated contents
              (formatRepoOutput localeCompare contents t
                 match downloadFormat with
                 | asPdf => txt
                 | asMd => md
                 | asTxt => txt
                 end
                 activeRepoDetails)
        end
  end.

(** ** components/FileTree.tsx *)

Module FileTree.

Definition IMAGE_EXTENSIONS : gset string :=
  list_to_set ["png"; "jpg"; "jpeg"; "gif"; "webp"; "ico"; "svg"].

Definition isDirectory (node : TreeNode.t) : bool :=
  ItemType_eqb (TreeNode.type node) tree
  || match TreeNode.children node with
     | Some cs => (0 <? length (Obj.keys cs))%nat
     | None => false
     end.

(** [aNode.type === 'tree' || !!aNode.children]: an object is truthy, empty
    or not. *)
Definition sortsAsDirectory (node : TreeNode.t) : bool :=
  ItemType_eqb (TreeNode.type node) tree
  || match TreeNode.children node with
     | Some _ => true
     | None => false
     end.

(** The comparator of [sortedChildren], on the entries of [children]. *)
Definition compareEntries (localeCompare : string → string → Z)
    (a b : string * TreeNode.t) : Z :=
  let aIsDir := sortsAsDirectory (snd a) in
  let bIsDir := sortsAsDirectory (snd b) in
  if aIsDir && negb bIsDir then (-1)%Z
  else if negb aIsDir && bIsDir then 1%Z
  else localeCompare (fst a) (fst b).

Inductive Icon := folderIcon | imageIcon | fileIcon.

(** The test of [getFileIcon]. *)
Definition showsImageIcon (node : TreeNode.t) : bool :=
  has IMAGE_EXTENSIONS (extensionOf (TreeNode.name node)).

Definition getFileIcon (node : TreeNode.t) : Icon :=
  if showsImageIcon node then imageIcon else fileIcon.

(** The icon of a row: the folder for what is shown as a directory,
    [getFileIcon] otherwise. *)
Definition rowIcon (node : TreeNode.t) : Icon :=
  if isDirectory node then folderIcon else getFileIcon node.

(** The click on the selection box: [onToggle(node.path, !isDirectory)]. *)
Definition selectClick (treeData : option TreeNode.t) (node : TreeNode.t)
    (prev : SelectionState) : SelectionState :=
  handleToggle treeData (TreeNode.path node) (negb (isDirectory node)) prev.

(** The click on the row: only a directory reacts. *)
Definition rowClick (node : TreeNode.t) (prev : gset string) : gset string :=
  if isDirectory node then handleToggleExpand (TreeNode.path node) prev
  else prev.

End FileTree.

(** ** services/githubService.ts: parseRepoUrl

    The pattern
    [^https://github.com/([^/]+)/([^/]+)(/tree/([^/]+)(/(.+))?)?$]
    leaves no choice to the matcher: after the fixed prefix the text is cut
    at its slashes, [[^/]+] being a non-empty piece without slash and [.+]
    a non-empty rest without line terminator.  [parseRepoUrl] is written as
    that cut; [inl] is the thrown error's message. *)

Definition invalidUrlMessage : string :=
  "Invalid GitHub repository URL. Format: https://github.com/owner/repo or https://github.com/owner/repo/tree/branch/path".

(** [url.replace(/\/$/, '')] *)
Fixpoint dropFinalSlash (url : string) : string :=
  match url with
  | EmptyString => EmptyString
  | String c r =>
      match r with
      | EmptyString => if Ascii.eqb c "/" then EmptyString else url
      | String _ _ => String c (dropFinalSlash r)
      end
  end.

Fixpoint stripPrefix (p s : string) : option string :=
  match p, s with
  | EmptyString, _ => Some s
  | String c p', String d s' =>
      if Ascii.eqb c d then stripPrefix p' s' else None
  | String _ _, EmptyString => None
  end.

(** U+2028 and U+2029 in UTF-8. *)
Definition lineSeparator : string :=
  String (Ascii.ascii_of_nat 226)
    (String (Ascii.ascii_of_nat 128) (String (Ascii.ascii_of_nat 168) "")).
Definition paragraphSeparator : string :=
  String (Ascii.ascii_of_nat 226)
    (String (Ascii.ascii_of_nat 128) (String (Ascii.ascii_of_nat 169) "")).

(** Does [s] hold a character that [.] does not match? *)
Fixpoint hasLineTerminator (s : string) : bool :=
  match s with
  | EmptyString => false
  | String c r =>
      Ascii.eqb c JS.LF || Ascii.eqb c (Ascii.ascii_of_nat 13)
      || String.prefix lineSeparator s || String.prefix paragraphSeparator s
      || hasLineTerminator r
  end.

Definition nonEmpty (s : string) : bool := negb (String.eqb s "").

Definition parseRepoUrl (url : string) : string + RepoDetails.t :=
  let cleanUrl := dropFinalSlash url in
  match stripPrefix "https://github.com/" cleanUrl with
  | None => inl invalidUrlMessage
  | Some rest =>
      match JS.split "/" rest with
      | [owner; repo] =>
          if nonEmpty owner && nonEmpty repo
          then inr (RepoDetails.mk owner repo None None)
          else inl invalidUrlMessage
      | owner :: repo :: keyword :: ref :: tail =>
          if nonEmpty owner && nonEmpty repo && String.eqb keyword "tree"
             && nonEmpty ref
          then
            match tail with
            | [] => inr (RepoDetails.mk owner repo (Some ref) None)
            | _ :: _ =>
                let path := JS.join "/" tail in
                if nonEmpty path && negb (hasLineTerminator path)
                then inr (RepoDetails.mk owner repo (Some ref) (Some path))
                else inl invalidUrlMessage
            end
          else inl invalidUrlMessage
      | _ => inl invalidUrlMessage
      end
  end.

(** ** Derived notions used by the statements *)

(** The five fields a node is given when it is created. *)
Definition label (n : TreeNode.t)
    : string * string * ItemType * string * string :=
  (TreeNode.name n, TreeNode.path n, TreeNode.type n, TreeNode.sha n,
   TreeNode.url n).

Fixpoint isPrefix (ps l : list string) : bool :=
  match ps, l with
  | [], _ => true
  | p :: ps', x :: l' => String.eqb p x && isPrefix ps' l'
  | _ :: _, [] => false
  end.

Definition isProperPrefix (ps l : list string) : bool :=
  isPrefix ps l && (length ps <? length l)%nat.

Definition partsOf (item : GitHubItem.t) : list string :=
  JS.split "/" (GitHubItem.path item).

(** The node a walk over [parts] creates at the end of the segments [ps]. *)
Definition createdAt (item : GitHubItem.t) (parts : list string)
    (index : nat) (ps : list string) : TreeNode.t :=
  newNode item parts (index + length ps - 1) (default "" (last ps)).

(** The parts a walk visits inside the tree, from a node with the
    children [cs]: it goes on through the nodes it finds and the nodes it
    creates, and stops at the first part that is no own key and is found
    up the prototype chain. *)
Fixpoint visited (childrenInherited : bool) (cs : Obj.t TreeNode.t)
    (rest : list string) : list string :=
  match rest with
  | [] => []
  | part :: rest' =>
      match Obj.get part cs with
      | Some child =>
          part :: visited childrenInherited (TreeNode.kids child) rest'
      | None =>
          if JS.inherited childrenInherited part then []
          else part :: visited childrenInherited [] rest'
      end
  end.

(** The mutations of a walk that visits the parts [rest], every one of
    them inside the tree. *)
Fixpoint extend (item : GitHubItem.t) (parts rest : list string)
    (index : nat) (current : TreeNode.t) : TreeNode.t :=
  match rest with
  | [] => current
  | part :: rest' =>
      let cs := TreeNode.kids current in
      let child :=
        match Obj.get part cs with
        | Some c => c
        | None => newNode item parts index part
        end in
      TreeNode.setChildren current
        (Obj.set part (extend item parts rest' (S index) child) cs)
  end.

(** A walk cannot get through the segments [ps] from [n]: one of them is
    no node of the tree and is found up the prototype chain. *)
Definition blocked (childrenInherited : bool) (n : TreeNode.t)
    (ps : list string) : Prop :=
  ∃ pre s post, ps = pre ++ s :: post ∧ nodeAt n (pre ++ [s]) = None ∧
                JS.inherited childrenInherited s = true.

(** No segment is the name of a member of [Object.prototype]. *)
Definition plainSegments (ps : list string) : Prop :=
  Forall (λ s, JS.inherited false s = false) ps.

(** The same of every path of a list. *)
Definition plainPaths (items : list GitHubItem.t) : Prop :=
  ∀ e, e ∈ items → plainSegments (partsOf e).

(** Every node below [n] lies on the path of an entry of the list, which
    gave it its fields, and no segment on the way to it is the name of a
    member of [Object.prototype]. *)
Definition fromEntries (items : list GitHubItem.t) (n : TreeNode.t) : Prop :=
  ∀ ps m, ps ≠ [] → nodeAt n ps = Some m →
    ∃ it, it ∈ items ∧ isPrefix ps (partsOf it) = true ∧ plainSegments ps ∧
          label m = label (createdAt it (partsOf it) 0 ps).

(** Every segment prefix of the path of an entry of the list is a node
    below [n], unless no walk can get through it. *)
Definition walkedThrough (childrenInherited : bool)
    (items : list GitHubItem.t) (n : TreeNode.t) : Prop :=
  ∀ it ps, it ∈ items → ps ≠ [] → isPrefix ps (partsOf it) = true →
    is_Some (nodeAt n ps) ∨ blocked childrenInherited n ps.

(** No FILE entry lies on the way to another entry: the path of a [blob]
    entry is never a proper segment prefix of an entry's path. *)
Definition wellNested (items : list GitHubItem.t) : Prop :=
  Forall
    (λ e, GitHubItem.type e = blob →
          Forall (λ e', isProperPrefix (partsOf e) (partsOf e') = false) items)
    items.

(** The comparator from segment [i] of the two paths on, [aParts] and
    [bParts] being what is left of them there. *)
Definition compareFrom (localeCompare : string → string → Z) (i : nat)
    (aParts bParts : list string) : Z :=
  match firstDifference localeCompare aParts bParts i
          (i + length aParts) (i + length bParts) with
  | Some r => r
  | None => (Z.of_nat (length aParts) - Z.of_nat (length bParts))%Z
  end.

(** [localeCompare] is a strict total order of the strings: it changes
    sign when its arguments are exchanged, answers 0 for equal strings
    only, and is transitive. *)
Definition strictTotal (localeCompare : string → string → Z) : Prop :=
  (∀ x y, localeCompare y x = (- localeCompare x y)%Z) ∧
  (∀ x y, localeCompare x y = 0%Z → x = y) ∧
  (∀ x y z, (localeCompare x y < 0)%Z → (localeCompare y z < 0)%Z →
            (localeCompare x z < 0)%Z).

(** No path of the list is a proper segment prefix of a path of the
    list, as among the files of a repository. *)
Definition prefixFree (paths : list string) : Prop :=
  Forall
    (λ a, Forall (λ b, isProperPrefix (JS.split "/" a) (JS.split "/" b)
                       = false) paths)
    paths.

(** The items are in the order of the comparator: none compares greater
    than a later one. *)
Definition inOrder {T} (cmp : string → string → Z) (path : T → string)
    (out : list T) : Prop :=
  ∀ i j x y, i < j → out !! i = Some x → out !! j = Some y →
             (cmp (path x) (path y) <= 0)%Z.

(** Every node of a tree, the tree's own top node first. *)
Fixpoint allNodes (n : TreeNode.t) : list TreeNode.t :=
  n :: match TreeNode.children n with
       | Some cs => concat (map (λ kc, allNodes (snd kc)) cs)
       | None => []
       end.

(** No node of the tree has the same property key twice among its
    children, as in every object the code can build. *)
Definition uniqueKeys (n : TreeNode.t) : Prop :=
  ∀ m, m ∈ allNodes n → NoDup (Obj.keys (TreeNode.kids m)).

(** The FILE nodes of a tree, at every depth, in traversal order. *)
Fixpoint fileNodes (n : TreeNode.t) : list TreeNode.t :=
  match TreeNode.type n with blob => [n] | tree => [] end ++
  match TreeNode.children n with
  | Some cs => concat (map (λ kc, fileNodes (snd kc)) cs)
  | None => []
  end.

Definition filePaths (n : TreeNode.t) : list string :=
  TreeNode.path <$> fileNodes n.

(** The first node, in traversal order, whose path is [path]. *)
Fixpoint findNode (path : string) (node : TreeNode.t) : option TreeNode.t :=
  if String.eqb (TreeNode.path node) path then Some node
  else
    match TreeNode.children node with
    | Some cs =>
        (fix first (l : Obj.t TreeNode.t) : option TreeNode.t :=
           match l with
           | [] => None
           | kc :: r =>
               match findNode path (snd kc) with
               | Some n => Some n
               | None => first r
               end
           end) cs
    | None => None
    end.

(** Every DIRECTORY node has at least one child and no FILE node has
    any. *)
Fixpoint properTree (n : TreeNode.t) : bool :=
  match TreeNode.children n with
  | Some cs =>
      match TreeNode.type n with
      | blob => bool_decide (length cs = 0)
      | tree =>
          negb (bool_decide (length cs = 0))
          && forallb (λ kc, properTree (snd kc)) cs
      end
  | None =>
      match TreeNode.type n with blob => true | tree => false end
  end.

(** Writing one value at a list of keys. *)
Definition writeAll (keys : list string) (value : bool)
    (st : SelectionState) : SelectionState :=
  fold_left (λ s k, <[k := value]> s) keys st.

(** The keys of the map that [handleToggle] inspects for [path] are
    exactly the paths of the FILE nodes of [node]. *)
Definition keysMatch (selection : SelectionState) (path : string)
    (node : TreeNode.t) : Prop :=
  ∀ k, (is_Some (selection !! k) ∧ under path k = true) ↔ k ∈ filePaths node.

(** Two selection maps with the same keys. *)
Definition sameKeys (a b : SelectionState) : Prop :=
  ∀ k, is_Some (a !! k) ↔ is_Some (b !! k).

(** Number of lines of a text whose lines all end in a line feed. *)
Definition lineCount (s : string) : nat := JS.count JS.LF s.

(** The nodes [buildAsciiIndex] prints a line for: those it does not take
    for the synthetic root. *)
Definition printedNodes (n : TreeNode.t) : list TreeNode.t :=
  List.filter (λ m, negb (String.eqb (TreeNode.name m) "root")) (allNodes n).

(** The items for which the Markdown loop appends a record. *)
Definition mdEmits (file : FileContent.t) : bool :=
  match FileContent.type file with
  | text => true
  | image => JS.truthyStr (FileContent.dataUrl file)
  end.

(** Is there a FILE entry with this path in the list? *)
Definition listsFile (path : string) (items : list GitHubItem.t) : bool :=
  existsb
    (λ it, ItemType_eqb (GitHubItem.type it) blob
           && String.eqb (GitHubItem.path it) path)
    items.

(** No path is listed both as a FILE and as a DIRECTORY. *)
Definition consistentKinds (items : list GitHubItem.t) : Prop :=
  ∀ e e', e ∈ items → e' ∈ items →
          GitHubItem.path e = GitHubItem.path e' →
          GitHubItem.type e = GitHubItem.type e'.

(** A list of segments as [split] returns them: at least one, none
    containing the separator. *)
Definition segments (sep : ascii) (l : list string) : Prop :=
  l ≠ [] ∧ Forall (λ seg, JS.occurs sep seg = false) l.

(** What [generateOutput] asks the service for, for one FILE node. *)
Definition targetOf (f : TreeNode.t) : FetchTarget.t :=
  FetchTarget.mk (TreeNode.path f) (TreeNode.url f).

(** The FILE nodes whose entry in the selection is truthy, in traversal
    order. *)
Definition selectedFiles (selection : SelectionState) (t : TreeNode.t)
    : list TreeNode.t :=
  List.filter (λ f, JS.truthy (selection !! TreeNode.path f)) (fileNodes t).

(** The request for [url] makes the promise of its file reject: [fetch]
    rejects, or the response is not [ok]. *)
Definition rejects (fetch : string → option Response.t) (url : string)
    : bool :=
  match fetch url with
  | Some response => negb (Response.ok response)
  | None => true
  end.

(** A non-empty piece without ['/'], as [[^/]+] matches it. *)
Definition segmentOk (s : string) : bool :=
  nonEmpty s && negb (JS.occurs "/" s).

(** The details [parseRepoUrl] can return. *)
Definition wellFormedDetails (d : RepoDetails.t) : bool :=
  segmentOk (RepoDetails.owner d) && segmentOk (RepoDetails.repo d)
  && match RepoDetails.ref d, RepoDetails.path d with
     | None, None => true
     | Some r, None => segmentOk r
     | Some r, Some p => segmentOk r && nonEmpty p && negb (hasLineTerminator p)
     | None, Some _ => false
     end.

(** The address of a repository, of one of its branches, or of a path on
    that branch: the pieces after the host, joined by ['/']. *)
Definition urlSegments (d : RepoDetails.t) : list string :=
  RepoDetails.owner d :: RepoDetails.repo d ::
  match RepoDetails.ref d with
  | Some r =>
      "tree" :: r ::
      match RepoDetails.path d with
      | Some p => [p]
      | None => []
      end
  | None => []
  end.

Definition repoUrl (d : RepoDetails.t) : string :=
  "https://github.com/" +:+ JS.join "/" (urlSegments d).

Fixpoint endsWithSlash (s : string) : bool :=
  match s with
  | EmptyString => false
  | String c r =>
      match r with
      | EmptyString => Ascii.eqb c "/"
      | String _ _ => endsWithSlash r
      end
  end.

(** ** Sample inputs *)

Definition file (path : string) : GitHubItem.t :=
  GitHubItem.mk path "100644" blob ("sha:" +:+ path) None ("url:" +:+ path).

Definition dir (path : string) : GitHubItem.t :=
  GitHubItem.mk path "040000" tree ("sha:" +:+ path) None ("url:" +:+ path).

(** The entry list of the scenarios of the specification. *)
Definition sampleItems : list GitHubItem.t :=
  [file "src/a.ts"; file "src/sub/b.ts"; file "README.md"].

Definition sampleTree : TreeNode.t := buildTree sampleItems.

(** The three paths of the ordering scenario. *)
Definition samplePaths : list string :=
  ["src/a.ts"; "src/sub/b.ts"; "README.md"].

(** Directory ["src"] of the sample tree. *)
Definition srcNode : TreeNode.t :=
  default rootNode (findNode "src" sampleTree).

(** Everything beneath ["src"] selected, ["README.md"] not. *)
Definition sampleSelection : SelectionState :=
  <["src/a.ts" := true]>
    (<["src/sub/b.ts" := true]> (<["README.md" := false]> ∅)).

(** Sample contents: a text file, an image with its data URI, and an image
    whose data URI is missing. *)
Definition notesFile : FileContent.t :=
  FileContent.mk "notes.md" (Some "hello") None "" text None.

Definition logoFile : FileContent.t :=
  FileContent.mk "logo.png" None (Some "data:image/png;base64,AAAA") ""
    image (Some "image/png").

Definition brokenImage : FileContent.t :=
  FileContent.mk "lost.png" None None "" image (Some "image/png").

(** The paths of five files, in the order of a listing. *)
Definition listedFiles : list string :=
  ["README.md"; "src/a.ts"; "LICENSE"; "src/sub/b.ts"; "src/App.tsx"].

(** A stand-in for the host's collation: comparison by code units. *)
Definition ordinalCompare (a b : string) : Z :=
  match String.compare a b with
  | Lt => (-1)%Z
  | Eq => 0%Z
  | Gt => 1%Z
  end.

(** File ["README.md"] of the sample tree. *)
Definition readmeNode : TreeNode.t :=
  default rootNode (findNode "README.md" sampleTree).

(** The sample selection with ["README.md"] selected as well. *)
Definition everythingSelected : SelectionState :=
  <["README.md" := true]> sampleSelection.

(** A network that answers every request with the URL as the text. *)
Definition echoFetch (url : string) : option Response.t :=
  Some (Response.mk true url (Some ("data:" +:+ url)) "image/png").

(** A repository with two pictures, and the node of the first. *)
Definition pictureItems : list GitHubItem.t :=
  [file "assets/logo.PNG"; file "assets/icon.svg"].

Definition logoNode : TreeNode.t :=
  default rootNode (findNode "assets/logo.PNG" (buildTree pictureItems)).

(** A directory on a branch of a repository. *)
Definition sampleDetails : RepoDetails.t :=
  RepoDetails.mk "octo" "demo" (Some "main") (Some "src/lib").

(** * Lemmas *)

(** Membership in a list given by its elements. *)
Ltac solve_elem := first [ by left | right; solve_elem ].

Ltac solve_not_elem :=
  let H := fresh in
  intros H;
  repeat (apply elem_of_cons in H as [H|H]; [discriminate H|]);
  by apply elem_of_nil in H.


(** ** Strings *)

Lemma split_nonempty sep s : JS.split sep s ≠ [].
Proof.
  destruct s as [|c r]; simpl; [done|].
  destruct (Ascii.eqb c sep); [done|].
  by destruct (JS.split sep r).
Qed.

Lemma concat_cons sep x y l :
  String.concat sep (x :: y :: l) = x +:+ sep +:+ String.concat sep (y :: l).
Proof. done. Qed.

Lemma concat_String sep c h t :
  String.concat sep (String c h :: t) = String c (String.concat sep (h :: t)).
Proof. by destruct t. Qed.

Lemma join_split sep s :
  JS.join (String sep EmptyString) (JS.split sep s) = s.
Proof.
  unfold JS.join. induction s as [|c r IH]; simpl; [done|].
  pose proof (split_nonempty sep r) as Hne.
  destruct (JS.split sep r) as [|h t] eqn:Hs; [done|].
  destruct (Ascii.eqb c sep) eqn:Hc.
  - apply Ascii.eqb_eq in Hc as ->.
    rewrite concat_cons, IH. done.
  - by rewrite concat_String, IH.
Qed.

Lemma split_no_sep sep s :
  JS.occurs sep s = false → JS.split sep s = [s].
Proof.
  induction s as [|c r IH]; simpl; [done|].
  intros [Hc Hr]%orb_false_elim. rewrite Hc, (IH Hr). done.
Qed.

Lemma split_segments sep s : segments sep (JS.split sep s).
Proof.
  split; [apply split_nonempty|].
  induction s as [|c r IH]; simpl; [by repeat constructor|].
  destruct (Ascii.eqb c sep) eqn:Hc; [by constructor|].
  pose proof (split_nonempty sep r).
  destruct (JS.split sep r) as [|h t]; [done|].
  apply Forall_cons in IH as [Hh Ht]. constructor; [|done].
  simpl. by rewrite Hc.
Qed.

Lemma append_assoc (a b c : string) : (a +:+ b) +:+ c = a +:+ b +:+ c.
Proof.
  induction a as [|x a IH]; [done|].
  change (String x ((a +:+ b) +:+ c) = String x (a +:+ b +:+ c)).
  by rewrite IH.
Qed.

Lemma append_nil_r (a : string) : a +:+ "" = a.
Proof.
  induction a as [|x a IH]; [done|].
  change (String x (a +:+ "") = String x a). by rewrite IH.
Qed.

Lemma split_app_sep sep a b :
  JS.split sep (a +:+ String sep b) = JS.split sep a ++ JS.split sep b.
Proof.
  induction a as [|c a IH].
  - simpl. by rewrite Ascii.eqb_refl.
  - change (String c a +:+ String sep b) with (String c (a +:+ String sep b)).
    simpl. rewrite IH. destruct (Ascii.eqb c sep); [done|].
    pose proof (split_nonempty sep a). by destruct (JS.split sep a).
Qed.

Lemma split_join sep l :
  segments sep l → JS.split sep (JS.join (String sep EmptyString) l) = l.
Proof.
  intros [Hne Hl]. unfold JS.join.
  induction Hl as [|x l Hx Hl IH]; [done|].
  destruct l as [|y l].
  - simpl. by apply split_no_sep.
  - rewrite concat_cons.
    change (String sep "" +:+ String.concat (String sep "") (y :: l))
      with (String sep (String.concat (String sep "") (y :: l))).
    rewrite split_app_sep, IH by done. by rewrite (split_no_sep _ _ Hx).
Qed.

Lemma join_app sep l1 l2 :
  l1 ≠ [] → l2 ≠ [] →
  JS.join sep (l1 ++ l2) = JS.join sep l1 +:+ sep +:+ JS.join sep l2.
Proof.
  unfold JS.join. intros H1 H2.
  induction l1 as [|x l1 IH]; [done|].
  destruct l1 as [|y l1].
  - simpl. by destruct l2.
  - change ((x :: y :: l1) ++ l2) with (x :: y :: l1 ++ l2).
    rewrite !concat_cons.
    change (y :: l1 ++ l2) with ((y :: l1) ++ l2). rewrite IH by done.
    by rewrite !append_assoc.
Qed.

Lemma prefix_append p r : String.prefix p (p +:+ r) = true.
Proof.
  induction p as [|c p IH]; [by destruct r|].
  change (String c p +:+ r) with (String c (p +:+ r)). simpl.
  by destruct (ascii_dec c c).
Qed.

Lemma prefix_inv p s : String.prefix p s = true → ∃ r, s = p +:+ r.
Proof.
  revert s. induction p as [|c p IH]; intros s H.
  - by exists s.
  - destruct s as [|d s]; [done|]. simpl in H.
    destruct (ascii_dec c d) as [->|]; [|done].
    destruct (IH s H) as [r ->]. by exists r.
Qed.

(** ** Reading and writing a plain object by key *)

Lemma assign_insert (o : gmap string bool) k v :
  k ≠ "__proto__" → JS.assign k v o = <[k := v]> o.
Proof.
  unfold JS.assign. intros ->%String.eqb_neq. by destruct (o !! k).
Qed.

Lemma assign_own (o : gmap string bool) k v :
  is_Some (o !! k) → JS.assign k v o = <[k := v]> o.
Proof. unfold JS.assign. by intros [? ->]. Qed.

Lemma assign_proto (o : gmap string bool) v :
  o !! "__proto__" = None → JS.assign "__proto__" v o = o.
Proof. unfold JS.assign. by intros ->. Qed.

Lemma lookup_assign_ne (o : gmap string bool) k v k' :
  k' ≠ k → JS.assign k v o !! k' = o !! k'.
Proof.
  intros Hne. unfold JS.assign.
  destruct (o !! k), (String.eqb k "__proto__");
    done || by rewrite lookup_insert_ne.
Qed.

Lemma plain_not_proto k : JS.inherited false k = false → k ≠ "__proto__".
Proof. by intros H ->. Qed.

Lemma truthyAt_own (o : gmap string bool) k b :
  o !! k = Some b → JS.truthyAt o k = b.
Proof. unfold JS.truthyAt. by intros ->. Qed.

Lemma truthyAt_plain (o : gmap string bool) k :
  JS.inherited false k = false → JS.truthyAt o k = JS.truthy (o !! k).
Proof. unfold JS.truthyAt. intros ->. by destruct (o !! k). Qed.

Lemma truthyAt_is_Some (o : gmap string bool) k :
  is_Some (o !! k) → JS.truthyAt o k = JS.truthy (o !! k).
Proof. unfold JS.truthyAt. by intros [b ->]. Qed.

(** ** Ordered records *)

Section ObjLemmas.
Context {A : Type}.
Implicit Types (o : Obj.t A) (k : string) (v : A).

Lemma get_replace o k k' v :
  Obj.get k' (Obj.replace k v o) =
  if String.eqb k' k then (λ _, v) <$> Obj.get k o else Obj.get k' o.
Proof.
  induction o as [|[k0 v0] r IH]; simpl.
  - by destruct (String.eqb k' k).
  - destruct (String.eqb_spec k k0) as [->|Hne]; simpl.
    + destruct (String.eqb_spec k' k0); done.
    + rewrite IH.
      destruct (String.eqb_spec k' k0) as [->|?].
      * destruct (String.eqb_spec k0 k); [congruence|done].
      * done.
Qed.

Lemma get_create o k k' v :
  Obj.get k o = None →
  Obj.get k' (Obj.create k v o) =
  if String.eqb k' k then Some v else Obj.get k' o.
Proof.
  induction o as [|[k0 v0] r IH]; simpl; intros Hk.
  - done.
  - destruct (String.eqb_spec k k0) as [->|Hne]; [done|].
    destruct (Obj.precedes k k0); simpl.
    + destruct (String.eqb_spec k' k); [done|]. done.
    + rewrite (IH Hk).
      destruct (String.eqb_spec k' k0) as [->|?]; [|done].
      destruct (String.eqb_spec k0 k); [congruence|done].
Qed.

Lemma get_set o k k' v :
  Obj.get k' (Obj.set k v o) =
  if String.eqb k' k then Some v else Obj.get k' o.
Proof.
  unfold Obj.set. destruct (Obj.get k o) eqn:Hk.
  - rewrite get_replace, Hk. done.
  - by apply get_create.
Qed.

Lemma get_head k v o : Obj.get k ((k, v) :: o) = Some v.
Proof. simpl. by rewrite String.eqb_refl. Qed.
End ObjLemmas.

Section ObjKeys.
Context {A : Type}.
Implicit Types (o : Obj.t A) (k : string) (v : A).

Lemma get_None_keys o k : Obj.get k o = None ↔ k ∉ Obj.keys o.
Proof.
  induction o as [|[k0 v0] r IH]; simpl.
  - split; [|done]. intros _. apply not_elem_of_nil.
  - rewrite not_elem_of_cons, <- IH.
    destruct (String.eqb_spec k k0) as [->|Hne].
    + split; [done|]. by intros [? _].
    + split; [done|]. by intros [_ ?].
Qed.

Lemma elem_get o k v : NoDup (Obj.keys o) → (k, v) ∈ o → Obj.get k o = Some v.
Proof.
  induction o as [|[k0 v0] r IH]; simpl; intros Hnd Hin.
  - by apply elem_of_nil in Hin.
  - apply NoDup_cons in Hnd as [Hk0 Hnd].
    apply elem_of_cons in Hin as [[= -> ->]|Hin].
    + by rewrite String.eqb_refl.
    + destruct (String.eqb_spec k k0) as [->|Hne]; [|by apply IH].
      destruct Hk0. unfold Obj.keys.
      apply list_elem_of_fmap. by exists (k0, v).
Qed.

Lemma get_elem o k v : Obj.get k o = Some v → (k, v) ∈ o.
Proof.
  induction o as [|[k0 v0] r IH]; simpl; [done|].
  destruct (String.eqb_spec k k0) as [->|Hne].
  - intros [= ->]. by left.
  - intros H. right. by apply IH.
Qed.

Lemma keys_replace o k v : Obj.keys (Obj.replace k v o) = Obj.keys o.
Proof.
  induction o as [|[k0 v0] r IH]; simpl; [done|].
  destruct (String.eqb k k0); simpl; [done|]. by rewrite IH.
Qed.

Lemma keys_create o k v : Obj.keys (Obj.create k v o) ≡ₚ k :: Obj.keys o.
Proof.
  induction o as [|[k0 v0] r IH]; simpl; [done|].
  destruct (Obj.precedes k k0); simpl; [done|].
  rewrite IH. apply Permutation_swap.
Qed.

Lemma NoDup_keys_set o k v :
  NoDup (Obj.keys o) → NoDup (Obj.keys (Obj.set k v o)).
Proof.
  intros Hnd. unfold Obj.set. destruct (Obj.get k o) eqn:Hk.
  - by rewrite keys_replace.
  - rewrite keys_create. apply NoDup_cons. split; [|done].
    by apply get_None_keys.
Qed.

Lemma elem_of_replace o k v kc :
  kc ∈ Obj.replace k v o → kc = (k, v) ∨ kc ∈ o.
Proof.
  induction o as [|[k0 v0] r IH]; simpl; [by right|].
  destruct (String.eqb_spec k k0) as [->|Hne].
  - intros [->|?]%elem_of_cons; [by left|]. right. by right.
  - intros [->|?]%elem_of_cons; [right; by left|].
    destruct IH as [?|?]; [done|by left|]. right. by right.
Qed.

Lemma elem_of_create o k v kc :
  kc ∈ Obj.create k v o → kc = (k, v) ∨ kc ∈ o.
Proof.
  induction o as [|[k0 v0] r IH]; simpl.
  - intros ->%list_elem_of_singleton. by left.
  - destruct (Obj.precedes k k0).
    + intros [->|?]%elem_of_cons; [by left|by right].
    + intros [->|?]%elem_of_cons; [right; by left|].
      destruct IH as [?|?]; [done|by left|]. right. by right.
Qed.

Lemma elem_of_set o k v kc : kc ∈ Obj.set k v o → kc = (k, v) ∨ kc ∈ o.
Proof.
  unfold Obj.set. destruct (Obj.get k o).
  - apply elem_of_replace.
  - apply elem_of_create.
Qed.
End ObjKeys.

(** ** Trees: induction over the children *)

Lemma TreeNode_ind_kids (P : TreeNode.t → Prop) :
  (∀ n, Forall (λ kc, P (snd kc)) (TreeNode.kids n) → P n) → ∀ n, P n.
Proof.
  intros H. fix IH 1. intros [nm pth ty sh ur [cs|]]; apply H; simpl.
  - induction cs as [|[k c] cs IHcs]; constructor; [apply IH|apply IHcs].
  - constructor.
Qed.

Lemma kids_Some n cs : TreeNode.children n = Some cs → TreeNode.kids n = cs.
Proof. unfold TreeNode.kids. by intros ->. Qed.

Lemma kids_None n : TreeNode.children n = None → TreeNode.kids n = [].
Proof. unfold TreeNode.kids. by intros ->. Qed.

Lemma fileNodes_unfold n :
  fileNodes n =
  match TreeNode.type n with blob => [n] | tree => [] end ++
  concat (map (λ kc, fileNodes (snd kc)) (TreeNode.kids n)).
Proof. destruct n as [? ? ? ? ? [cs|]]; done. Qed.

Lemma allNodes_unfold n :
  allNodes n = n :: concat (map (λ kc, allNodes (snd kc)) (TreeNode.kids n)).
Proof. destruct n as [? ? ? ? ? [cs|]]; done. Qed.

Lemma elem_of_concat_map {A B} (g : A → list B) (l : list A) (y : B) :
  y ∈ concat (map g l) ↔ ∃ x, x ∈ l ∧ y ∈ g x.
Proof.
  induction l as [|a l IH]; simpl.
  - rewrite elem_of_nil. split; [done|]. intros (x & Hx & _).
    by apply elem_of_nil in Hx.
  - rewrite elem_of_app, IH. split.
    + intros [Hy|(x & Hx & Hy)]; [exists a|exists x];
        rewrite elem_of_cons; eauto.
    + intros (x & [->|Hx]%elem_of_cons & Hy); eauto.
Qed.

(** ** buildTree: one walk *)

Lemma label_setChildren n cs : label (TreeNode.setChildren n cs) = label n.
Proof. done. Qed.

Lemma kids_setChildren n cs : TreeNode.kids (TreeNode.setChildren n cs) = cs.
Proof. done. Qed.

Lemma label_extend item parts rest index current :
  label (extend item parts rest index current) = label current.
Proof. by destruct rest. Qed.

(** A walk is the mutations along the parts it visits. *)
Lemma walk_extend b item parts : ∀ rest index current,
  walk b item parts rest index current =
  extend item parts (visited b (TreeNode.kids current) rest) index current.
Proof.
  induction rest as [|part rest' IH]; intros index current; [done|].
  cbn [walk visited].
  destruct (Obj.get part (TreeNode.kids current)) as [c|] eqn:Hg.
  - cbn [extend]. by rewrite Hg, IH.
  - destruct (JS.inherited b part); [done|].
    cbn [extend]. by rewrite Hg, IH.
Qed.

Lemma label_walk b item parts rest index current :
  label (walk b item parts rest index current) = label current.
Proof. rewrite walk_extend. apply label_extend. Qed.

Lemma createdAt_cons item parts index p q r :
  createdAt item parts index (p :: q :: r) =
  createdAt item parts (S index) (q :: r).
Proof.
  unfold createdAt. f_equal. simpl. lia.
Qed.

Lemma createdAt_single item parts index p :
  createdAt item parts index [p] = newNode item parts index p.
Proof.
  unfold createdAt. simpl. f_equal. lia.
Qed.

Lemma isPrefix_refl l : isPrefix l l = true.
Proof. induction l; simpl; [done|]. by rewrite String.eqb_refl. Qed.

Lemma isPrefix_take l ps : isPrefix ps l = true → take (length ps) l = ps.
Proof.
  revert l. induction ps as [|p ps IH]; intros [|x l]; simpl; try done.
  intros [->%String.eqb_eq Hp]%andb_prop. by rewrite IH.
Qed.

Lemma isPrefix_length l ps : isPrefix ps l = true → length ps ≤ length l.
Proof.
  revert l. induction ps as [|p ps IH]; intros [|x l]; simpl; try done; [lia|].
  intros [_ Hp]%andb_prop. apply IH in Hp. lia.
Qed.

Lemma isPrefix_same_length l ps :
  isPrefix ps l = true → length ps = length l → ps = l.
Proof.
  intros Hp Hl. rewrite <- (isPrefix_take _ _ Hp), Hl. by rewrite firstn_all.
Qed.

Lemma isPrefix_take_self l k : isPrefix (take k l) l = true.
Proof.
  revert k. induction l as [|x l IH]; intros [|k]; simpl; try done.
  by rewrite String.eqb_refl, IH.
Qed.

Lemma isPrefix_app ps qs l :
  isPrefix (ps ++ qs) l = true → isPrefix ps l = true.
Proof.
  revert l. induction ps as [|p ps IH]; intros [|x l]; simpl; try done.
  intros [-> Hp]%andb_prop. simpl. eauto.
Qed.

(** The mutations along [rest] leave the label of every existing node
    alone and create the missing nodes along [rest]. *)
Lemma nodeAt_extend item parts rest : ∀ index current ps,
  label <$> nodeAt (extend item parts rest index current) ps =
  match label <$> nodeAt current ps with
  | Some l => Some l
  | None =>
      if isPrefix ps rest then Some (label (createdAt item parts index ps))
      else None
  end.
Proof.
  induction rest as [|part rest' IH]; intros index current ps.
  - simpl. destruct (label <$> nodeAt current ps) eqn:E; [done|].
    destruct ps; [done|done].
  - destruct ps as [|p r].
    + simpl. done.
    + cbn [extend nodeAt]. rewrite kids_setChildren, get_set.
      cbn [isPrefix].
      destruct (String.eqb_spec p part) as [->|Hne]; cbn [andb].
      * rewrite IH.
        destruct (Obj.get part (TreeNode.kids current)) as [c|] eqn:Hg.
        -- destruct (label <$> nodeAt c r) eqn:E; [done|].
           destruct r as [|q r']; [done|].
           by rewrite createdAt_cons.
        -- destruct r as [|q r'].
           ++ simpl. by rewrite createdAt_single.
           ++ simpl. by rewrite createdAt_cons.
      * destruct (Obj.get p (TreeNode.kids current)); [|done].
        by destruct (label <$> nodeAt t r).
Qed.

(** One walk leaves the label of every existing node alone and creates
    the missing nodes along the parts it visits. *)
Lemma nodeAt_walk b item parts rest index current ps :
  label <$> nodeAt (walk b item parts rest index current) ps =
  match label <$> nodeAt current ps with
  | Some l => Some l
  | None =>
      if isPrefix ps (visited b (TreeNode.kids current) rest)
      then Some (label (createdAt item parts index ps))
      else None
  end.
Proof. rewrite walk_extend. apply nodeAt_extend. Qed.

Lemma nodeAt_rootNode p r : nodeAt rootNode (p :: r) = None.
Proof. done. Qed.

Lemma nodeAt_app n ps qs :
  nodeAt n (ps ++ qs) = nodeAt n ps ≫= λ m, nodeAt m qs.
Proof.
  revert n. induction ps as [|p ps IH]; intros n; simpl; [done|].
  destruct (Obj.get p (TreeNode.kids n)); simpl; [apply IH|done].
Qed.

Lemma fmap_label_Some t ps l :
  label <$> nodeAt t ps = Some l → ∃ n, nodeAt t ps = Some n ∧ label n = l.
Proof. intros (n & ? & ->)%fmap_Some. eauto. Qed.

Lemma label_fold items : ∀ state,
  label (fst (fold_left addItem items state)) = label (fst state).
Proof.
  induction items as [|it items IH]; intros state; [done|].
  cbn [fold_left]. rewrite IH. unfold addItem. cbn [fst]. apply label_walk.
Qed.

Lemma label_buildTreeIn b items :
  label (fst (buildTreeIn b items)) = label rootNode.
Proof. unfold buildTreeIn. by rewrite label_fold. Qed.

Lemma label_buildTree items : label (buildTree items) = label rootNode.
Proof. apply label_buildTreeIn. Qed.

Lemma partsOf_nonempty e : partsOf e ≠ [].
Proof. apply split_nonempty. Qed.

(** The label of the node created at [ps] by an entry passing through it. *)
Lemma label_createdAt it ps :
  ps ≠ [] → isPrefix ps (partsOf it) = true →
  label (createdAt it (partsOf it) 0 ps) =
  (default "" (last ps), JS.join "/" ps,
   if bool_decide (ps = partsOf it) then GitHubItem.type it else tree,
   if bool_decide (ps = partsOf it) then GitHubItem.sha it else "",
   if bool_decide (ps = partsOf it) then GitHubItem.url it else "").
Proof.
  intros Hne Hp. unfold createdAt, newNode, label. simpl.
  assert (length ps ≠ 0) by (by destruct ps).
  replace (length ps - 1 + 1) with (length ps) by lia.
  rewrite (isPrefix_take _ _ Hp).
  pose proof (isPrefix_length _ _ Hp).
  destruct (Nat.eqb_spec (length ps - 1) (length (partsOf it) - 1)) as [E|E].
  - rewrite bool_decide_eq_true_2; [done|].
    apply isPrefix_same_length; [done|lia].
  - rewrite bool_decide_eq_false_2; [done|]. intros ->. done.
Qed.

Lemma wellNested_elim items e e' :
  wellNested items → e ∈ items → e' ∈ items → GitHubItem.type e = blob →
  isProperPrefix (partsOf e) (partsOf e') = false.
Proof.
  unfold wellNested. rewrite Forall_forall. intros H He He' Hb.
  specialize (H e He Hb). rewrite Forall_forall in H. by apply H.
Qed.

Lemma label_eq n a b c d e :
  label n = (a, b, c, d, e) →
  TreeNode.name n = a ∧ TreeNode.path n = b ∧ TreeNode.type n = c ∧
  TreeNode.sha n = d ∧ TreeNode.url n = e.
Proof. unfold label. intros [= -> -> -> -> ->]. done. Qed.

(** ** buildTree: the parts a walk visits *)

Lemma inherited_mono b s : JS.inherited false s = true → JS.inherited b s = true.
Proof.
  unfold JS.inherited. intros H. apply orb_true_iff. left.
  by apply orb_true_iff in H as [H|H].
Qed.

Lemma inherited_plain b s : JS.inherited b s = false → JS.inherited false s = false.
Proof.
  intros H. destruct (JS.inherited false s) eqn:E; [|done].
  by rewrite (inherited_mono b s E) in H.
Qed.

Lemma inherited_orb b b' s :
  JS.inherited b s = true → JS.inherited (b || b') s = true.
Proof.
  unfold JS.inherited. intros [H|[-> H]%andb_prop]%orb_true_iff.
  - by rewrite H.
  - rewrite H. apply orb_true_r.
Qed.

Lemma isPrefix_trans ps qs l :
  isPrefix ps qs = true → isPrefix qs l = true → isPrefix ps l = true.
Proof.
  revert qs l. induction ps as [|p ps IH]; intros [|q qs] [|x l]; simpl;
    try done.
  intros [->%String.eqb_eq Hp]%andb_prop [->%String.eqb_eq Hq]%andb_prop.
  rewrite String.eqb_refl. simpl. eauto.
Qed.

Lemma isPrefix_Forall (P : string → Prop) ps l :
  isPrefix ps l = true → Forall P l → Forall P ps.
Proof.
  intros Hp Hl. rewrite <- (isPrefix_take _ _ Hp). by apply Forall_take.
Qed.

Lemma visited_prefix b : ∀ rest cs, isPrefix (visited b cs rest) rest = true.
Proof.
  induction rest as [|part rest' IH]; intros cs; [done|]. cbn [visited].
  destruct (Obj.get part cs) as [c|].
  - simpl. by rewrite String.eqb_refl, IH.
  - destruct (JS.inherited b part); [done|].
    simpl. by rewrite String.eqb_refl, IH.
Qed.

(** Parts that are not found up the chain are visited. *)
Lemma visited_plain b : ∀ rest cs ps,
  isPrefix ps rest = true → Forall (λ s, JS.inherited b s = false) ps →
  isPrefix ps (visited b cs rest) = true.
Proof.
  induction rest as [|part rest' IH]; intros cs [|p ps]; try done.
  cbn [isPrefix]. intros [->%String.eqb_eq Hp]%andb_prop
    [Hpart Hps]%Forall_cons.
  cbn [visited]. destruct (Obj.get part cs) as [c|].
  - simpl. rewrite String.eqb_refl. by apply IH.
  - rewrite Hpart. simpl. rewrite String.eqb_refl. by apply IH.
Qed.

(** A visited part that is no node yet was not found up the chain. *)
Lemma visited_created b : ∀ pre rest current s,
  isPrefix (pre ++ [s]) (visited b (TreeNode.kids current) rest) = true →
  nodeAt current (pre ++ [s]) = None →
  JS.inherited b s = false.
Proof.
  induction pre as [|p pre IH]; intros [|part rest'] current s; try done.
  - cbn [app visited nodeAt].
    destruct (Obj.get part (TreeNode.kids current)) as [c|] eqn:Hg.
    + cbn [isPrefix]. intros [->%String.eqb_eq _]%andb_prop.
      by rewrite Hg.
    + destruct (JS.inherited b part) eqn:Hi; [done|].
      cbn [isPrefix]. by intros [->%String.eqb_eq _]%andb_prop.
  - change ((p :: pre) ++ [s]) with (p :: (pre ++ [s])).
    cbn [visited nodeAt].
    destruct (Obj.get part (TreeNode.kids current)) as [c|] eqn:Hg.
    + cbn [isPrefix]. intros [->%String.eqb_eq Hp]%andb_prop.
      rewrite Hg. apply (IH rest' c s Hp).
    + destruct (JS.inherited b part) eqn:Hi; [done|].
      cbn [isPrefix]. intros [->%String.eqb_eq Hp]%andb_prop _.
      apply (IH rest' rootNode s Hp). by destruct pre.
Qed.

(** A segment prefix of the parts is visited, or the walk leaves the tree
    at one of its segments. *)
Lemma visited_or_blocked b : ∀ rest current ps,
  ps ≠ [] → isPrefix ps rest = true →
  isPrefix ps (visited b (TreeNode.kids current) rest) = true ∨
  ∃ pre s post, ps = pre ++ s :: post ∧ JS.inherited b s = true ∧
    nodeAt current (pre ++ [s]) = None ∧
    isPrefix (pre ++ [s]) (visited b (TreeNode.kids current) rest) = false.
Proof.
  induction rest as [|part rest' IH]; intros current [|p ps] Hne; try done.
  cbn [isPrefix]. intros [->%String.eqb_eq Hp]%andb_prop.
  cbn [visited].
  destruct (Obj.get part (TreeNode.kids current)) as [c|] eqn:Hg.
  - destruct ps as [|q ps].
    { left. simpl. by rewrite String.eqb_refl. }
    destruct (IH c (q :: ps)) as [Hv|(pre & s & post & Heq & ? & Hn & Hv)];
      [done|done| |].
    + left. cbn [isPrefix]. by rewrite String.eqb_refl.
    + right. exists (part :: pre), s, post. rewrite Heq.
      split; [done|]. split; [done|].
      change ((part :: pre) ++ [s]) with (part :: (pre ++ [s])).
      cbn [nodeAt isPrefix]. by rewrite Hg, String.eqb_refl.
  - destruct (JS.inherited b part) eqn:Hi.
    { right. exists [], part, ps. simpl. by rewrite Hg. }
    destruct ps as [|q ps].
    { left. simpl. by rewrite String.eqb_refl. }
    destruct (IH rootNode (q :: ps))
      as [Hv|(pre & s & post & Heq & ? & Hn & Hv)]; [done|done| |].
    + left. cbn [isPrefix]. by rewrite String.eqb_refl.
    + right. exists (part :: pre), s, post. rewrite Heq.
      split; [done|]. split; [done|].
      change ((part :: pre) ++ [s]) with (part :: (pre ++ [s])).
      cbn [nodeAt isPrefix]. by rewrite Hg, String.eqb_refl.
Qed.

(** The segments a walk visits are no names of [Object.prototype] when
    those of the nodes it finds are not. *)
Lemma visited_plainSegments b : ∀ rest current,
  (∀ qs m, qs ≠ [] → nodeAt current qs = Some m → plainSegments qs) →
  plainSegments (visited b (TreeNode.kids current) rest).
Proof.
  unfold plainSegments.
  induction rest as [|part rest' IH]; intros current Hcur; [constructor|].
  cbn [visited].
  destruct (Obj.get part (TreeNode.kids current)) as [c|] eqn:Hg.
  - assert (nodeAt current [part] = Some c) as Hc by (simpl; by rewrite Hg).
    constructor.
    + by apply (Forall_inv (Hcur [part] c ltac:(done) Hc)).
    + apply IH. intros qs m Hne Hm.
      assert (nodeAt current (part :: qs) = Some m) as Hm'
        by (simpl; by rewrite Hg).
      by apply (Forall_inv_tail (Hcur (part :: qs) m ltac:(done) Hm')).
  - destruct (JS.inherited b part) eqn:Hi; [constructor|].
    constructor; [by apply (inherited_plain b)|].
    apply (IH rootNode). intros [|q qs] m Hne Hm; done.
Qed.

(** ** buildTree: which entry decides a node *)

Lemma fromEntries_walk b done t it :
  fromEntries done t →
  fromEntries (done ++ [it]) (walk b it (partsOf it) (partsOf it) 0 t).
Proof.
  intros Ht ps m Hne Hm.
  pose proof (nodeAt_walk b it (partsOf it) (partsOf it) 0 t ps) as H.
  rewrite Hm in H.
  destruct (nodeAt t ps) as [m0|] eqn:Hm0.
  - destruct (Ht ps m0 Hne Hm0) as (it0 & Hin & Hp & Hplain & Hl).
    exists it0. split; [apply elem_of_app; by left|].
    split; [done|]. split; [done|].
    cbv [fmap option_fmap option_map] in H. congruence.
  - cbv [fmap option_fmap option_map] in H.
    destruct (isPrefix ps (visited b (TreeNode.kids t) (partsOf it)))
      eqn:Hv; [|done].
    exists it. split; [apply elem_of_app; right; by left|].
    split; [by apply (isPrefix_trans _ _ _ Hv), visited_prefix|].
    split; [|congruence].
    apply (isPrefix_Forall _ _ _ Hv), visited_plainSegments.
    intros qs m' Hq Hm'. by destruct (Ht qs m' Hq Hm') as (_ & _ & _ & ? & _).
Qed.

Lemma fromEntries_fold items : ∀ done state,
  fromEntries done (fst state) →
  fromEntries (done ++ items) (fst (fold_left addItem items state)).
Proof.
  induction items as [|it items IH]; intros done state Hs.
  - by rewrite app_nil_r.
  - cbn [fold_left].
    replace (done ++ it :: items) with ((done ++ [it]) ++ items)
      by (by rewrite <- app_assoc).
    apply IH. unfold addItem. cbn [fst]. by apply fromEntries_walk.
Qed.

Lemma fromEntries_buildTreeIn b items :
  fromEntries items (fst (buildTreeIn b items)).
Proof.
  apply (fromEntries_fold items [] (rootNode, b)).
  intros [|p r] m Hne Hm; done.
Qed.

(** The flag after the list. *)
Lemma flag_fold items : ∀ state,
  snd (fold_left addItem items state) =
  snd state || existsb (λ it, reachesPrototype (partsOf it)) items.
Proof.
  induction items as [|it items IH]; intros state; simpl.
  - by rewrite orb_false_r.
  - rewrite IH. unfold addItem. cbn [snd]. fold (partsOf it).
    by rewrite orb_assoc.
Qed.

Lemma reachesPrototype_plain parts :
  plainSegments parts → reachesPrototype parts = false.
Proof.
  unfold plainSegments, reachesPrototype. intros Hp.
  destruct (existsb _ (removelast parts)) eqn:E; [|done].
  apply existsb_exists in E as (x & Hin & <-%String.eqb_eq).
  assert (In "__proto__" parts) as Hin'.
  { clear Hp. induction parts as [|a [|a' l] IH]; [done|done|].
    destruct Hin as [->|Hin]; [by left|right; by apply IH]. }
  rewrite Forall_forall in Hp. apply list_elem_of_In in Hin'.
  by apply Hp in Hin'.
Qed.

(** No path of a list of plain paths makes the walk write on
    [Object.prototype]. *)
Lemma flag_plainPaths b items :
  plainPaths items → snd (buildTreeIn b items) = b.
Proof.
  intros Hp. unfold buildTreeIn. rewrite flag_fold. cbn [snd].
  assert (existsb (λ it, reachesPrototype (partsOf it)) items = false) as ->;
    [|apply orb_false_r].
  destruct (existsb _ items) eqn:E; [|done].
  apply existsb_exists in E as (x & Hin%list_elem_of_In & Hx).
  by rewrite (reachesPrototype_plain _ (Hp x Hin)) in Hx.
Qed.

(** ** buildTree: the nodes that exist *)

Lemma is_Some_nodeAt_walk b it parts rest index t ps :
  is_Some (nodeAt t ps) →
  is_Some (nodeAt (walk b it parts rest index t) ps).
Proof.
  intros [m Hm].
  pose proof (nodeAt_walk b it parts rest index t ps) as H.
  rewrite Hm in H. by destruct (nodeAt (walk _ _ _ _ _ _) ps).
Qed.

Lemma nodeAt_walk_None b it parts rest index t ps :
  nodeAt t ps = None →
  isPrefix ps (visited b (TreeNode.kids t) rest) = false →
  nodeAt (walk b it parts rest index t) ps = None.
Proof.
  intros Hn Hv.
  pose proof (nodeAt_walk b it parts rest index t ps) as H.
  rewrite Hn, Hv in H. by destruct (nodeAt (walk _ _ _ _ _ _) ps).
Qed.

Lemma blocked_walk b b' it parts rest index t ps :
  blocked b t ps → blocked (b || b') (walk b it parts rest index t) ps.
Proof.
  intros (pre & s & post & -> & Hn & Hi). exists pre, s, post.
  split; [done|]. split; [|by apply inherited_orb].
  apply nodeAt_walk_None; [done|].
  destruct (isPrefix (pre ++ [s]) _) eqn:Hv; [|done].
  by rewrite (visited_created b _ _ _ _ Hv Hn) in Hi.
Qed.

Lemma walkedThrough_walk b done t it :
  walkedThrough b done t →
  walkedThrough (b || reachesPrototype (partsOf it)) (done ++ [it])
    (walk b it (partsOf it) (partsOf it) 0 t).
Proof.
  intros Ht it0 ps [Hin| ->%list_elem_of_singleton]%elem_of_app Hne Hp.
  - destruct (Ht it0 ps Hin Hne Hp) as [Hs|Hb].
    + left. by apply is_Some_nodeAt_walk.
    + right. by apply blocked_walk.
  - destruct (visited_or_blocked b (partsOf it) t ps Hne Hp)
      as [Hv|(pre & s & post & -> & Hi & Hn & Hv)].
    + left.
      pose proof (nodeAt_walk b it (partsOf it) (partsOf it) 0 t ps) as H.
      rewrite Hv in H.
      destruct (nodeAt (walk _ _ _ _ _ _) ps); [by eexists|].
      by destruct (label <$> nodeAt t ps).
    + right. exists pre, s, post. split; [done|].
      split; [by apply nodeAt_walk_None|by apply inherited_orb].
Qed.

Lemma walkedThrough_fold items : ∀ done state,
  walkedThrough (snd state) done (fst state) →
  walkedThrough (snd (fold_left addItem items state)) (done ++ items)
    (fst (fold_left addItem items state)).
Proof.
  induction items as [|it items IH]; intros done state Hs.
  - by rewrite app_nil_r.
  - cbn [fold_left].
    replace (done ++ it :: items) with ((done ++ [it]) ++ items)
      by (by rewrite <- app_assoc).
    apply IH. unfold addItem. cbn [fst snd]. fold (partsOf it).
    by apply walkedThrough_walk.
Qed.

Lemma walkedThrough_buildTreeIn b items :
  walkedThrough (snd (buildTreeIn b items)) items (fst (buildTreeIn b items)).
Proof.
  apply (walkedThrough_fold items [] (rootNode, b)).
  intros it ps Hin. by apply elem_of_nil in Hin.
Qed.

(** A segment prefix of the path of an entry is a node of the tree when
    none of its segments is found up the prototype chain. *)
Lemma nodeAt_buildTreeIn_exists b items e p r :
  e ∈ items → isPrefix (p :: r) (partsOf e) = true →
  Forall (λ s, JS.inherited (snd (buildTreeIn b items)) s = false) (p :: r) →
  ∃ n, nodeAt (fst (buildTreeIn b items)) (p :: r) = Some n.
Proof.
  intros He Hp Hplain.
  destruct (walkedThrough_buildTreeIn b items e (p :: r) He ltac:(done) Hp)
    as [[n Hn]|(pre & s & post & Heq & _ & Hi)]; [eauto|].
  rewrite Heq in Hplain. apply Forall_app in Hplain as [_ Hs].
  apply Forall_inv in Hs. congruence.
Qed.

(** What is known of a node of the built tree below the root. *)
Lemma nodeAt_buildTreeIn_fields b items p r n :
  nodeAt (fst (buildTreeIn b items)) (p :: r) = Some n →
  ∃ it, it ∈ items ∧ isPrefix (p :: r) (partsOf it) = true ∧
        plainSegments (p :: r) ∧
        TreeNode.path n = JS.join "/" (p :: r) ∧
        TreeNode.type n =
          (if bool_decide (p :: r = partsOf it)
           then GitHubItem.type it else tree) ∧
        TreeNode.sha n =
          (if bool_decide (p :: r = partsOf it)
           then GitHubItem.sha it else "") ∧
        TreeNode.url n =
          (if bool_decide (p :: r = partsOf it)
           then GitHubItem.url it else "").
Proof.
  intros Hn.
  destruct (fromEntries_buildTreeIn b items (p :: r) n ltac:(done) Hn)
    as (it & Hin & Hp & Hplain & H).
  exists it. do 3 (split; [done|]).
  rewrite label_createdAt in H by done.
  apply label_eq in H as (_ & ? & ? & ? & ?). done.
Qed.

Lemma nodeAt_buildTree_fields items p r n :
  nodeAt (buildTree items) (p :: r) = Some n →
  ∃ it, it ∈ items ∧ isPrefix (p :: r) (partsOf it) = true ∧
        plainSegments (p :: r) ∧
        TreeNode.path n = JS.join "/" (p :: r) ∧
        TreeNode.type n =
          (if bool_decide (p :: r = partsOf it)
           then GitHubItem.type it else tree) ∧
        TreeNode.sha n =
          (if bool_decide (p :: r = partsOf it)
           then GitHubItem.sha it else "") ∧
        TreeNode.url n =
          (if bool_decide (p :: r = partsOf it)
           then GitHubItem.url it else "").
Proof. apply nodeAt_buildTreeIn_fields. Qed.

(** In a list of plain paths every segment prefix of a path is a node. *)
Lemma nodeAt_buildTree_exists items e p r :
  plainPaths items →
  e ∈ items → isPrefix (p :: r) (partsOf e) = true →
  ∃ n, nodeAt (buildTree items) (p :: r) = Some n.
Proof.
  intros Hplain He Hp. apply (nodeAt_buildTreeIn_exists false items e); [done..|].
  rewrite (flag_plainPaths false items Hplain).
  by apply (isPrefix_Forall _ _ _ Hp), Hplain.
Qed.

Lemma buildTreeIn_app b items more :
  buildTreeIn b (items ++ more) = fold_left addItem more (buildTreeIn b items).
Proof. unfold buildTreeIn. apply fold_left_app. Qed.

(** A node is never rewritten once it exists. *)
Lemma label_nodeAt_fold items ps : ∀ state m,
  nodeAt (fst state) ps = Some m →
  ∃ m', nodeAt (fst (fold_left addItem items state)) ps = Some m' ∧
        label m' = label m.
Proof.
  induction items as [|it items IH]; intros state m Hm; [eauto|].
  cbn [fold_left].
  pose proof (nodeAt_walk (snd state) it (partsOf it) (partsOf it) 0
                (fst state) ps) as H.
  rewrite Hm in H. cbv [fmap option_fmap option_map] in H.
  destruct (nodeAt (walk _ _ _ _ _ _) ps) as [m1|] eqn:Hm1; [|done].
  destruct (IH (addItem state it) m1 Hm1) as (m' & Hm' & Hl).
  exists m'. split; [done|]. congruence.
Qed.

(** The entry that first gets through to a place decides the node. *)
Lemma nodeAt_first_walk b it t ps :
  ps ≠ [] → nodeAt t ps = None →
  isPrefix ps (partsOf it) = true →
  Forall (λ s, JS.inherited b s = false) ps →
  ∃ m, nodeAt (walk b it (partsOf it) (partsOf it) 0 t) ps = Some m ∧
       label m = label (createdAt it (partsOf it) 0 ps).
Proof.
  intros Hne Hn Hp Hplain.
  pose proof (nodeAt_walk b it (partsOf it) (partsOf it) 0 t ps) as H.
  rewrite Hn, (visited_plain b _ _ _ Hp Hplain) in H.
  cbv [fmap option_fmap option_map] in H.
  destruct (nodeAt (walk _ _ _ _ _ _) ps) as [m|]; [|done].
  exists m. split; [done|]. congruence.
Qed.

(** ** buildTree: every node is reached by its segments *)

Lemma allNodes_kids n m :
  m ∈ allNodes n ↔
  m = n ∨ ∃ kc, kc ∈ TreeNode.kids n ∧ m ∈ allNodes (snd kc).
Proof. by rewrite allNodes_unfold, elem_of_cons, elem_of_concat_map. Qed.

Lemma uniqueKeys_child n kc :
  uniqueKeys n → kc ∈ TreeNode.kids n → uniqueKeys (snd kc).
Proof.
  intros Hn Hkc m Hm. apply Hn, allNodes_kids. right. eauto.
Qed.

Lemma uniqueKeys_extend item parts rest : ∀ index current,
  uniqueKeys current → uniqueKeys (extend item parts rest index current).
Proof.
  induction rest as [|part rest' IH]; intros index current Hu; [done|].
  cbn [extend]. set (cs := TreeNode.kids current).
  set (child := match Obj.get part cs with
                | Some c => c
                | None => newNode item parts index part
                end).
  assert (uniqueKeys child) as Hchild.
  { subst child. destruct (Obj.get part cs) as [c|] eqn:Hc.
    - apply (uniqueKeys_child current (part, c) Hu). by apply get_elem.
    - intros m ->%list_elem_of_singleton. constructor. }
  intros m [->|(kc & Hkc & Hm)]%allNodes_kids.
  - rewrite kids_setChildren. apply NoDup_keys_set, Hu, allNodes_kids.
    by left.
  - rewrite kids_setChildren in Hkc.
    apply elem_of_set in Hkc as [->|Hkc].
    + by apply (IH (S index) child Hchild).
    + by apply (uniqueKeys_child current kc Hu).
Qed.

Lemma uniqueKeys_walk b item parts rest index current :
  uniqueKeys current → uniqueKeys (walk b item parts rest index current).
Proof. rewrite walk_extend. apply uniqueKeys_extend. Qed.

Lemma uniqueKeys_buildTreeIn b items : uniqueKeys (fst (buildTreeIn b items)).
Proof.
  unfold buildTreeIn.
  assert (uniqueKeys (fst (rootNode, b))) as Hroot.
  { intros m ->%list_elem_of_singleton. constructor. }
  revert Hroot. generalize (rootNode, b).
  induction items as [|it items IH]; intros state Hs; [done|].
  cbn [fold_left]. apply IH. unfold addItem. cbn [fst].
  by apply uniqueKeys_walk.
Qed.

Lemma uniqueKeys_buildTree items : uniqueKeys (buildTree items).
Proof. apply uniqueKeys_buildTreeIn. Qed.

Lemma allNodes_nodeAt : ∀ n m,
  uniqueKeys n → m ∈ allNodes n → ∃ ps, nodeAt n ps = Some m.
Proof.
  induction n as [n IH] using TreeNode_ind_kids.
  intros m Hu [->|(kc & Hkc & Hm)]%allNodes_kids.
  - by exists [].
  - rewrite Forall_forall in IH.
    destruct (IH kc Hkc m (uniqueKeys_child n kc Hu Hkc) Hm) as [ps Hps].
    exists (fst kc :: ps). simpl.
    rewrite (elem_get _ (fst kc) (snd kc)); [done| |by destruct kc].
    apply Hu, allNodes_kids. by left.
Qed.

(** ** getSelectionStatus on proper trees *)

Lemma Status_eqb_eq a b : Status_eqb a b = true ↔ a = b.
Proof. destruct a, b; simpl; split; congruence. Qed.

Lemma forallb_status {A} (g : A → Status) (l : list A) s0 :
  forallb (λ s, Status_eqb s s0) (map g l) = true ↔ ∀ x, x ∈ l → g x = s0.
Proof.
  induction l as [|a l IH]; simpl.
  - split; [|done]. intros _ x Hx. by apply elem_of_nil in Hx.
  - rewrite andb_true_iff, Status_eqb_eq, IH. split.
    + intros [Ha Hl] x [->|Hx]%elem_of_cons; eauto.
    + intros H. split; [apply H; left|intros x Hx; apply H; by right].
Qed.

Lemma status_tree_unfold selection n cs :
  TreeNode.type n = tree → TreeNode.children n = Some cs → cs ≠ [] →
  getSelectionStatus selection n =
  let statuses := map (λ kc, getSelectionStatus selection (snd kc)) cs in
  if forallb (λ s, Status_eqb s checked) statuses then checked
  else if forallb (λ s, Status_eqb s unchecked) statuses then unchecked
  else indeterminate.
Proof.
  destruct n as [nm pth ty sh ur ch]; simpl. intros -> -> Hne.
  destruct cs; [done|]. done.
Qed.

Lemma status_blob selection n :
  TreeNode.type n = blob →
  getSelectionStatus selection n =
  if JS.truthy (selection !! TreeNode.path n) then checked else unchecked.
Proof. destruct n as [nm pth ty sh ur ch]; simpl. by intros ->. Qed.

Lemma status_no_children selection n :
  TreeNode.type n = tree → TreeNode.kids n = [] →
  getSelectionStatus selection n = unchecked.
Proof.
  destruct n as [nm pth ty sh ur [cs|]]; simpl; intros -> Hk; [|done].
  unfold TreeNode.kids in Hk. simpl in Hk. by subst.
Qed.

Lemma truthy_true (o : option bool) : JS.truthy o = true ↔ o = Some true.
Proof. destruct o as [[]|]; simpl; split; congruence. Qed.

Lemma truthy_false (o : option bool) : JS.truthy o = false ↔ o ≠ Some true.
Proof. destruct o as [[]|]; simpl; split; congruence. Qed.

Lemma properTree_blob n :
  properTree n = true → TreeNode.type n = blob → TreeNode.kids n = [].
Proof.
  destruct n as [nm pth ty sh ur [cs|]]; simpl; intros Hp ->; [|done].
  apply bool_decide_eq_true in Hp. by destruct cs.
Qed.

Lemma properTree_tree n :
  properTree n = true → TreeNode.type n = tree →
  ∃ cs, TreeNode.children n = Some cs ∧ cs ≠ [] ∧
        ∀ kc, kc ∈ cs → properTree (snd kc) = true.
Proof.
  destruct n as [nm pth ty sh ur [cs|]]; simpl; intros Hp ->; [|done].
  apply andb_prop in Hp as [Hne Hall]. exists cs. split; [done|]. split.
  - intros ->. done.
  - intros kc Hkc. rewrite forallb_forall in Hall. apply Hall.
    by apply list_elem_of_In.
Qed.

(** On a proper tree the status says exactly what the FILE nodes say. *)
Lemma status_proper selection : ∀ n,
  properTree n = true →
  (getSelectionStatus selection n = checked ↔
     ∀ f, f ∈ fileNodes n → selection !! TreeNode.path f = Some true) ∧
  (getSelectionStatus selection n = unchecked ↔
     ∀ f, f ∈ fileNodes n → selection !! TreeNode.path f ≠ Some true).
Proof.
  induction n as [n IH] using TreeNode_ind_kids. intros Hp.
  rewrite fileNodes_unfold.
  destruct (TreeNode.type n) eqn:Hty.
  - rewrite (properTree_blob n Hp Hty), (status_blob _ _ Hty). simpl.
    destruct (JS.truthy (selection !! TreeNode.path n)) eqn:Ht.
    + apply truthy_true in Ht. split; split; try done.
      * by intros _ f ->%list_elem_of_singleton.
      * intros H. destruct (H n); [by left|done].
    + apply truthy_false in Ht. split; split; try done.
      * intros H. destruct Ht. apply H. by left.
      * by intros _ f ->%list_elem_of_singleton.
  - destruct (properTree_tree n Hp Hty) as (cs & Hcs & Hne & Hall).
    rewrite (status_tree_unfold _ _ _ Hty Hcs Hne).
    rewrite (kids_Some _ _ Hcs) in *. rewrite Forall_forall in IH.
    cbn zeta. simpl app.
    set (g := λ kc : string * TreeNode.t, getSelectionStatus selection kc.2).
    assert ((∀ kc, kc ∈ cs → g kc = checked) ↔
            ∀ f, f ∈ concat (map (λ kc, fileNodes kc.2) cs) →
                 selection !! TreeNode.path f = Some true) as HC.
    { split.
      - intros H f (kc & Hkc & Hf)%elem_of_concat_map.
        by apply (IH kc Hkc (Hall kc Hkc)); [apply H|].
      - intros H kc Hkc. apply (IH kc Hkc (Hall kc Hkc)).
        intros f Hf. apply H, elem_of_concat_map. eauto. }
    assert ((∀ kc, kc ∈ cs → g kc = unchecked) ↔
            ∀ f, f ∈ concat (map (λ kc, fileNodes kc.2) cs) →
                 selection !! TreeNode.path f ≠ Some true) as HU.
    { split.
      - intros H f (kc & Hkc & Hf)%elem_of_concat_map.
        by apply (IH kc Hkc (Hall kc Hkc)); [apply H|].
      - intros H kc Hkc. apply (IH kc Hkc (Hall kc Hkc)).
        intros f Hf. apply H, elem_of_concat_map. eauto. }
    rewrite <- HC, <- HU, <- !forallb_status. fold g.
    destruct (forallb _ (map g cs)) eqn:EC.
    + split; [done|]. split; [done|]. intros EU.
      pose proof (proj1 (forallb_status g cs checked) EC) as HEC.
      pose proof (proj1 (forallb_status g cs unchecked) EU) as HEU.
      destruct cs as [|kc cs]; [done|].
      assert (kc ∈ kc :: cs) as Hin by (by left).
      specialize (HEC kc Hin). specialize (HEU kc Hin). congruence.
    + destruct (forallb (λ s, Status_eqb s unchecked) (map g cs));
        split; split; intros ?; done.
Qed.

(** The same failure on the empty entry list: no FILE at all, so every
    FILE is selected, and the status of the root is UNCHECKED. *)
Example status_of_empty_root (selection : SelectionState) :
  getSelectionStatus selection (buildTree []) = unchecked ∧
  ∀ f, f ∈ fileNodes (buildTree []) →
       selection !! TreeNode.path f = Some true.
Proof. split; [done|]. intros f Hf. by apply elem_of_nil in Hf. Qed.

(** And when a FILE has children: the status of a FILE node never looks
    beneath it. *)
Example status_of_file_with_children :
  let root := buildTree [file "a"; file "a/b"] in
  let selection : SelectionState := {["a" := true]} in
  getSelectionStatus selection root = checked ∧
  ∃ f, f ∈ fileNodes root ∧ selection !! TreeNode.path f = None.
Proof.
  split; [vm_compute; reflexivity|].
  eexists. split; [right; left|]. vm_compute. reflexivity.
Qed.

(** ** handleToggle: what is written, and where *)

Lemma writeAll_app ks1 ks2 v st :
  writeAll (ks1 ++ ks2) v st = writeAll ks2 v (writeAll ks1 v st).
Proof. unfold writeAll. apply fold_left_app. Qed.

Lemma lookup_writeAll ks v (st : SelectionState) k :
  writeAll ks v st !! k = if bool_decide (k ∈ ks) then Some v else st !! k.
Proof.
  revert st. induction ks as [|a ks IH]; intros st.
  - case_bool_decide as H; [by apply elem_of_nil in H|done].
  - unfold writeAll in *. cbn [fold_left]. rewrite IH.
    destruct (decide (k ∈ ks)) as [Hin|Hin].
    + rewrite !bool_decide_eq_true_2; [done|by right|done].
    + rewrite (bool_decide_eq_false_2 _ Hin).
      destruct (decide (k = a)) as [->|Hne].
      * rewrite lookup_insert_eq, bool_decide_eq_true_2; [done|by left].
      * rewrite lookup_insert_ne by done.
        rewrite bool_decide_eq_false_2; [done|].
        by intros [?|?]%elem_of_cons.
Qed.

Lemma filePaths_unfold n :
  filePaths n =
  match TreeNode.type n with blob => [TreeNode.path n] | tree => [] end ++
  concat (map (λ kc, filePaths (snd kc)) (TreeNode.kids n)).
Proof.
  unfold filePaths. rewrite fileNodes_unfold, fmap_app. f_equal.
  - by destruct (TreeNode.type n).
  - induction (TreeNode.kids n) as [|kc cs IH]; simpl; [done|].
    by rewrite fmap_app, IH.
Qed.

Lemma toggleChildren_unfold n v st :
  toggleChildren n v st =
  fold_left (λ s kc, toggleChildren (snd kc) v s) (TreeNode.kids n)
    match TreeNode.type n with
    | blob => <[TreeNode.path n := v]> st
    | tree => st
    end.
Proof. destruct n as [? ? ? ? ? [cs|]]; done. Qed.

(** [toggleChildren] writes the target at the path of every FILE node of
    the subtree, whatever its depth, and nowhere else. *)
Lemma toggleChildren_writeAll v : ∀ n st,
  toggleChildren n v st = writeAll (filePaths n) v st.
Proof.
  induction n as [n IH] using TreeNode_ind_kids. intros st.
  rewrite toggleChildren_unfold, filePaths_unfold, writeAll_app.
  assert (writeAll
            match TreeNode.type n with
            | blob => [TreeNode.path n] | tree => [] end v st =
          match TreeNode.type n with
          | blob => <[TreeNode.path n := v]> st | tree => st end) as ->
    by (by destruct (TreeNode.type n)).
  generalize (match TreeNode.type n with
              | blob => <[TreeNode.path n := v]> st | tree => st end).
  induction IH as [|kc cs Hkc _ IHcs]; intros s; simpl; [done|].
  by rewrite writeAll_app, Hkc, IHcs.
Qed.

Lemma findNode_unfold path n :
  findNode path n =
  if String.eqb (TreeNode.path n) path then Some n
  else
    (fix first (l : Obj.t TreeNode.t) : option TreeNode.t :=
       match l with
       | [] => None
       | kc :: r =>
           match findNode path (snd kc) with
           | Some m => Some m
           | None => first r
           end
       end) (TreeNode.kids n).
Proof. destruct n as [? ? ? ? ? [cs|]]; done. Qed.

Lemma findAndToggle_unfold path ics n st :
  findAndToggle path ics n st =
  if String.eqb (TreeNode.path n) path then
    (true, toggleChildren n (negb ics) st)
  else
    (fix some (l : Obj.t TreeNode.t) (s : SelectionState)
       : bool * SelectionState :=
       match l with
       | [] => (false, s)
       | kc :: r =>
           let '(found, s') := findAndToggle path ics (snd kc) s in
           if found then (true, s') else some r s'
       end) (TreeNode.kids n) st.
Proof. destruct n as [? ? ? ? ? [cs|]]; done. Qed.

(** [findAndToggle] toggles the first node carrying the path, and leaves
    the state alone when there is none. *)
Lemma findAndToggle_findNode path ics : ∀ n st,
  findAndToggle path ics n st =
  match findNode path n with
  | Some m => (true, toggleChildren m (negb ics) st)
  | None => (false, st)
  end.
Proof.
  induction n as [n IH] using TreeNode_ind_kids. intros st.
  rewrite findAndToggle_unfold, findNode_unfold.
  destruct (String.eqb (TreeNode.path n) path); [done|].
  induction IH as [|kc cs Hkc _ IHcs]; [done|].
  rewrite Hkc. destruct (findNode path kc.2); [done|]. apply IHcs.
Qed.

Lemma findNode_None path : ∀ n,
  findNode path n = None ↔ ∀ m, m ∈ allNodes n → TreeNode.path m ≠ path.
Proof.
  induction n as [n IH] using TreeNode_ind_kids.
  rewrite findNode_unfold, allNodes_unfold.
  destruct (String.eqb_spec (TreeNode.path n) path) as [Heq|Hne].
  - split; [done|]. intros H. destruct (H n); [by left|done].
  - induction IH as [|kc cs Hkc _ IHcs]; simpl.
    + split; [|done]. by intros _ m ->%list_elem_of_singleton.
    + destruct (findNode path kc.2) as [m|] eqn:Hm.
      * split; [done|]. intros H. exfalso.
        assert (Some m = None) as Hcontra; [|done].
        apply Hkc. intros m' Hm'. apply H. right.
        apply elem_of_app. by left.
      * rewrite IHcs. split.
        -- intros H m [->|[Hin|Hin]%elem_of_app]%elem_of_cons; [done|..].
           ++ by apply Hkc.
           ++ apply H. by right.
        -- intros H m [->|Hin]%elem_of_cons; [done|].
           apply H. right. apply elem_of_app. by right.
Qed.

Lemma handleToggle_found tree path selection node :
  findNode path tree = Some node →
  handleToggle (Some tree) path false selection =
  writeAll (filePaths node) (negb (isCurrentlySelected selection path))
    selection.
Proof.
  intros Hf. unfold handleToggle.
  by rewrite findAndToggle_findNode, Hf, toggleChildren_writeAll.
Qed.

Lemma isCurrentlySelected_true (selection : SelectionState) path :
  isCurrentlySelected selection path = true ↔
  ∀ k v, selection !! k = Some v → under path k = true → v = true.
Proof.
  unfold isCurrentlySelected, selectionKeys.
  rewrite forallb_forall. split.
  - intros H k v Hk Hu.
    assert (JS.truthy (selection !! k) = true) as Ht.
    { apply H, filter_In. split; [|done].
      apply in_map_iff. exists (k, v). split; [done|].
      by apply list_elem_of_In, elem_of_map_to_list. }
    rewrite Hk in Ht. done.
  - intros H k [Hin Hu]%filter_In.
    apply in_map_iff in Hin as ([k' v] & <- & Hin). simpl in *.
    apply list_elem_of_In, elem_of_map_to_list in Hin.
    rewrite Hin. simpl. by apply (H k').
Qed.

Lemma keysMatch_under selection path node k :
  keysMatch selection path node → k ∈ filePaths node →
  is_Some (selection !! k) ∧ under path k = true.
Proof. intros H Hk. by apply H. Qed.

Lemma keysMatch_writeAll selection path node v :
  keysMatch selection path node →
  keysMatch (writeAll (filePaths node) v selection) path node.
Proof.
  intros H k. rewrite lookup_writeAll. case_bool_decide as Hk.
  - split; [done|]. intros _. split; [by eexists|].
    by apply (keysMatch_under selection path node).
  - apply H.
Qed.

(** When the inspected keys are the FILE paths of the node and all carry
    the same value, that value is what [handleToggle] computes. *)
Lemma isCurrentlySelected_uniform selection path node v :
  keysMatch selection path node → filePaths node ≠ [] →
  (∀ k, k ∈ filePaths node → selection !! k = Some v) →
  isCurrentlySelected selection path = v.
Proof.
  intros Hm Hne Hv. destruct v.
  - apply isCurrentlySelected_true. intros k v Hk Hu.
    assert (k ∈ filePaths node) as Hin by (apply Hm; eauto).
    rewrite (Hv k Hin) in Hk. congruence.
  - destruct (isCurrentlySelected selection path) eqn:E; [|done].
    rewrite isCurrentlySelected_true in E.
    destruct (filePaths node) as [|k ks] eqn:Hks; [done|].
    assert (k ∈ filePaths node) as Hin by (rewrite Hks; by left).
    destruct (keysMatch_under _ _ _ _ Hm Hin) as [_ Hu].
    rewrite <- Hks in Hv. symmetry. by apply (E k false); [apply Hv|].
Qed.

Lemma elem_of_filePaths n k :
  k ∈ filePaths n ↔ ∃ f, f ∈ fileNodes n ∧ TreeNode.path f = k.
Proof.
  unfold filePaths. rewrite list_elem_of_fmap. split.
  - intros (f & -> & Hf). eauto.
  - intros (f & Hf & <-). eauto.
Qed.

(** On a proper subtree whose FILE paths are the inspected keys, the
    target of the toggle is the one the status gives. *)
Lemma target_from_status selection path node :
  properTree node = true → keysMatch selection path node →
  negb (isCurrentlySelected selection path) =
  match getSelectionStatus selection node with
  | checked => false
  | unchecked | indeterminate => true
  end.
Proof.
  intros Hp Hm.
  destruct (status_proper selection node Hp) as [HC _].
  assert (isCurrentlySelected selection path = true ↔
          getSelectionStatus selection node = checked) as Hiff.
  { rewrite isCurrentlySelected_true, HC. split.
    - intros H f Hin.
      assert (TreeNode.path f ∈ filePaths node) as Hk
        by (apply elem_of_filePaths; eauto).
      destruct (keysMatch_under _ _ _ _ Hm Hk) as [[v Hv] Hu].
      by rewrite Hv, (H _ _ Hv Hu).
    - intros H k v Hk Hu.
      assert (k ∈ filePaths node) as Hin by (apply Hm; eauto).
      apply elem_of_filePaths in Hin as (f & Hin & <-).
      rewrite (H f Hin) in Hk. congruence. }
  destruct (getSelectionStatus selection node) eqn:Hs.
  - by rewrite (proj2 Hiff eq_refl).
  - destruct (isCurrentlySelected selection path); [|done].
    destruct Hiff as [H1 _]. discriminate (H1 eq_refl).
  - destruct (isCurrentlySelected selection path); [|done].
    destruct Hiff as [H1 _]. discriminate (H1 eq_refl).
Qed.

Lemma keysMatch_sameKeys a b path node :
  sameKeys a b → keysMatch a path node → keysMatch b path node.
Proof. intros Hab Hm k. rewrite <- (Hab k). apply Hm. Qed.

(** Toggling never adds a key to a map that has the FILE paths of the
    tree as its keys. *)
Lemma handleToggle_sameKeys_dir t selection path node :
  findNode path t = Some node → keysMatch selection path node →
  sameKeys selection (handleToggle (Some t) path false selection).
Proof.
  intros Hf Hm k. rewrite (handleToggle_found _ _ _ _ Hf), lookup_writeAll.
  case_bool_decide as Hk; [|done].
  split; [by eexists|]. intros _.
  by apply (keysMatch_under selection path node).
Qed.

Lemma handleToggle_sameKeys_file treeData (selection : SelectionState) path :
  is_Some (selection !! path) →
  sameKeys selection (handleToggle treeData path true selection).
Proof.
  intros Hp k. unfold handleToggle. rewrite assign_own by done.
  destruct (decide (k = path)) as [->|Hne].
  - rewrite lookup_insert_eq. split; [by eexists|done].
  - by rewrite lookup_insert_ne.
Qed.

(** ** Checking the side conditions on concrete inputs *)

Lemma keysMatch_intro (selection : SelectionState) path node :
  forallb (λ k, implb (under path k) (bool_decide (k ∈ filePaths node)))
    (selectionKeys selection) = true →
  forallb (λ k, bool_decide (is_Some (selection !! k)) && under path k)
    (filePaths node) = true →
  keysMatch selection path node.
Proof.
  rewrite !forallb_forall. intros H1 H2 k. split.
  - intros [[v Hv] Hu].
    assert (In k (selectionKeys selection)) as Hin.
    { apply in_map_iff. exists (k, v). split; [done|].
      by apply list_elem_of_In, elem_of_map_to_list. }
    specialize (H1 k Hin). rewrite Hu in H1.
    by apply bool_decide_eq_true in H1.
  - intros Hk%list_elem_of_In. specialize (H2 k Hk).
    apply andb_prop in H2 as [H2 ?]. by apply bool_decide_eq_true in H2.
Qed.

Lemma keysMatch_sample : keysMatch sampleSelection "src" srcNode.
Proof. apply keysMatch_intro; vm_compute; reflexivity. Defined.

(** ** sortTreeItems: the comparator *)

Section Order.
Variable localeCompare : string → string → Z.

Lemma firstDifference_common pre x y ra rb i aLen bLen :
  x ≠ y →
  firstDifference localeCompare (pre ++ x :: ra) (pre ++ y :: rb)
    i aLen bLen =
  let j := i + length pre in
  let aIsDeep := (j <? aLen - 1)%nat in
  let bIsDeep := (j <? bLen - 1)%nat in
  if aIsDeep && negb bIsDeep then Some (-1)%Z
  else if negb aIsDeep && bIsDeep then Some 1%Z
  else Some (localeCompare x y).
Proof.
  intros Hne. revert i.
  induction pre as [|p pre IH]; intros i; cbn [app firstDifference length].
  - apply String.eqb_neq in Hne. rewrite Hne. cbn [negb].
    by rewrite Nat.add_0_r.
  - rewrite String.eqb_refl. cbn [negb]. rewrite IH.
    by rewrite Nat.add_succ_r.
Qed.

Lemma firstDifference_prefix_l l rest i aLen bLen :
  firstDifference localeCompare l (l ++ rest) i aLen bLen = None.
Proof.
  revert i. induction l as [|p l IH]; intros i; simpl.
  - by destruct rest.
  - rewrite String.eqb_refl. simpl. apply IH.
Qed.

Lemma firstDifference_prefix_r l rest i aLen bLen :
  firstDifference localeCompare (l ++ rest) l i aLen bLen = None.
Proof.
  revert i. induction l as [|p l IH]; intros i; simpl.
  - by destruct rest.
  - rewrite String.eqb_refl. simpl. apply IH.
Qed.

(** The comparator at the first differing segment. *)
Lemma comparePaths_differ a b pre x y ra rb :
  JS.split "/" a = pre ++ x :: ra →
  JS.split "/" b = pre ++ y :: rb →
  x ≠ y →
  comparePaths localeCompare a b =
  match ra, rb with
  | _ :: _, [] => (-1)%Z
  | [], _ :: _ => 1%Z
  | _, _ => localeCompare x y
  end.
Proof.
  intros Ha Hb Hne. unfold comparePaths. rewrite Ha, Hb.
  rewrite firstDifference_common by done. cbn zeta.
  rewrite !length_app. cbn [length]. simpl Nat.add.
  destruct ra as [|? ra], rb as [|? rb]; cbn [length].
  - rewrite !(proj2 (Nat.ltb_ge _ _)) by lia. done.
  - rewrite (proj2 (Nat.ltb_ge (length pre) _)) by lia.
    rewrite (proj2 (Nat.ltb_lt (length pre) _)) by lia. done.
  - rewrite (proj2 (Nat.ltb_lt (length pre) _)) by lia.
    rewrite (proj2 (Nat.ltb_ge (length pre) _)) by lia. done.
  - rewrite !(proj2 (Nat.ltb_lt (length pre) _)) by lia. done.
Qed.

(** The comparator when one list of segments extends the other. *)
Lemma comparePaths_prefix a b rest :
  JS.split "/" b = JS.split "/" a ++ rest →
  comparePaths localeCompare a b = (- Z.of_nat (length rest))%Z ∧
  comparePaths localeCompare b a = Z.of_nat (length rest).
Proof.
  intros Hb. unfold comparePaths. rewrite Hb.
  rewrite firstDifference_prefix_l, firstDifference_prefix_r.
  rewrite length_app. lia.
Qed.

End Order.

(** On the three sample paths the comparator is a strict total order that
    never consults [localeCompare]: any sort returns the same list. *)
Example comparePaths_sample (localeCompare : string → string → Z) :
  let cmp := comparePaths localeCompare in
  cmp "src/sub/b.ts" "src/a.ts" = (-1)%Z ∧ cmp "src/a.ts" "src/sub/b.ts" = 1%Z ∧
  cmp "src/a.ts" "README.md" = (-1)%Z ∧ cmp "README.md" "src/a.ts" = 1%Z ∧
  cmp "src/sub/b.ts" "README.md" = (-1)%Z ∧
  cmp "README.md" "src/sub/b.ts" = 1%Z.
Proof. repeat split. Qed.

(** The sort returns its input rearranged. *)
Lemma insertSorted_perm (localeCompare : string → string → Z) {T}
    (path : T → string) (x : T) (sorted : list T) :
  insertSorted localeCompare path x sorted ≡ₚ x :: sorted.
Proof.
  induction sorted as [|y r IH]; simpl; [done|].
  destruct (comparePaths localeCompare (path x) (path y) <=? 0)%Z; [done|].
  rewrite IH. apply Permutation_swap.
Qed.

Lemma sortTreeItems_perm (localeCompare : string → string → Z) {T}
    (path : T → string) (items : list T) :
  sortTreeItems localeCompare path items ≡ₚ items.
Proof.
  unfold sortTreeItems. induction items as [|x items IH]; simpl; [done|].
  by rewrite insertSorted_perm, IH.
Qed.

Lemma firstDifference_swap (localeCompare : string → string → Z) :
  (∀ x y, localeCompare y x = (- localeCompare x y)%Z) →
  ∀ aParts bParts i aLen bLen,
    firstDifference localeCompare bParts aParts i bLen aLen =
    Z.opp <$> firstDifference localeCompare aParts bParts i aLen bLen.
Proof.
  intros Hanti.
  induction aParts as [|a aRest IH]; intros [|b bRest] i aLen bLen;
    cbn [firstDifference]; try done.
  rewrite (String.eqb_sym b a).
  destruct (String.eqb a b); cbn [negb]; [apply IH|].
  destruct (i <? aLen - 1)%nat, (i <? bLen - 1)%nat; cbn; try done.
  - by rewrite Hanti.
  - by rewrite Hanti.
Qed.

Lemma firstDifference_nonzero (localeCompare : string → string → Z) :
  (∀ x y, localeCompare x y = 0%Z → x = y) →
  ∀ aParts bParts i aLen bLen r,
    firstDifference localeCompare aParts bParts i aLen bLen = Some r →
    r ≠ 0%Z.
Proof.
  intros Hsep.
  induction aParts as [|a aRest IH]; intros [|b bRest] i aLen bLen r;
    cbn [firstDifference]; try done.
  destruct (String.eqb_spec a b) as [->|Hne]; cbn [negb]; [apply IH|].
  destruct (i <? aLen - 1)%nat, (i <? bLen - 1)%nat; cbn;
    intros [= <-]; try done; intros H0; by apply Hne, Hsep.
Qed.

Lemma firstDifference_None (localeCompare : string → string → Z) :
  ∀ aParts bParts i aLen bLen,
    firstDifference localeCompare aParts bParts i aLen bLen = None →
    length aParts = length bParts → aParts = bParts.
Proof.
  induction aParts as [|a aRest IH]; intros [|b bRest] i aLen bLen;
    cbn [firstDifference length]; try done.
  destruct (String.eqb_spec a b) as [->|Hne]; cbn [negb].
  - intros H [= Hlen]. f_equal. by apply (IH _ _ _ _ H).
  - by destruct (i <? aLen - 1)%nat, (i <? bLen - 1)%nat.
Qed.

Lemma comparePaths_swap (localeCompare : string → string → Z) a b :
  (∀ x y, localeCompare y x = (- localeCompare x y)%Z) →
  comparePaths localeCompare b a = (- comparePaths localeCompare a b)%Z.
Proof.
  intros Hanti. unfold comparePaths. cbv zeta.
  rewrite (firstDifference_swap _ Hanti).
  destruct (firstDifference localeCompare _ _ _ _ _); cbn; lia.
Qed.

Lemma comparePaths_zero (localeCompare : string → string → Z) a b :
  (∀ x y, localeCompare x y = 0%Z → x = y) →
  comparePaths localeCompare a b = 0%Z → a = b.
Proof.
  intros Hsep. unfold comparePaths. cbv zeta.
  destruct (firstDifference localeCompare _ _ _ _ _) as [r|] eqn:Hd.
  - intros ->. by apply (firstDifference_nonzero _ Hsep) in Hd.
  - intros Hlen. apply firstDifference_None in Hd; [|lia].
    by rewrite <- (join_split "/" a), <- (join_split "/" b), Hd.
Qed.

(** ** sortTreeItems: the comparator is transitive where no path is a
    prefix of another *)

Section Consistent.
Variable localeCompare : string → string → Z.
Hypothesis Hstrict : strictTotal localeCompare.

Lemma comparePaths_compareFrom a b :
  comparePaths localeCompare a b =
  compareFrom localeCompare 0 (JS.split "/" a) (JS.split "/" b).
Proof. done. Qed.

Lemma compareFrom_cons_eq i a aRest bRest :
  compareFrom localeCompare i (a :: aRest) (a :: bRest) =
  compareFrom localeCompare (S i) aRest bRest.
Proof.
  unfold compareFrom. cbn [firstDifference length].
  rewrite String.eqb_refl. cbn [negb]. rewrite !Nat.add_succ_r.
  cbn [Nat.add]. destruct (firstDifference _ _ _ _ _ _); lia.
Qed.

Lemma compareFrom_cons_ne i a b aRest bRest :
  a ≠ b →
  compareFrom localeCompare i (a :: aRest) (b :: bRest) =
  match aRest, bRest with
  | _ :: _, [] => (-1)%Z
  | [], _ :: _ => 1%Z
  | _, _ => localeCompare a b
  end.
Proof.
  intros Hne. unfold compareFrom. cbn [firstDifference length].
  apply String.eqb_neq in Hne. rewrite Hne. cbn [negb].
  destruct aRest as [|? aRest], bRest as [|? bRest]; cbn [length].
  - rewrite !(proj2 (Nat.ltb_ge _ _)) by lia. done.
  - rewrite (proj2 (Nat.ltb_ge i (i + 1 - 1))) by lia.
    rewrite (proj2 (Nat.ltb_lt i _)) by lia. done.
  - rewrite (proj2 (Nat.ltb_lt i _)) by lia.
    rewrite (proj2 (Nat.ltb_ge i (i + 1 - 1))) by lia. done.
  - rewrite !(proj2 (Nat.ltb_lt i _)) by lia. done.
Qed.

Lemma isProperPrefix_nil l : isProperPrefix [] l = false → l = [].
Proof. by destruct l. Qed.

Lemma isProperPrefix_cons a ps l :
  isProperPrefix (a :: ps) (a :: l) = isProperPrefix ps l.
Proof.
  unfold isProperPrefix. cbn [isPrefix length]. by rewrite String.eqb_refl.
Qed.

Lemma isProperPrefix_tails a ps l :
  isProperPrefix (a :: ps) (a :: l) = false → ps = [] → l = [].
Proof.
  rewrite isProperPrefix_cons. intros H ->. by apply isProperPrefix_nil.
Qed.

(** Among three lists of segments none of which is a proper prefix of
    another, the comparator is transitive. *)
Lemma compareFrom_trans aParts :
  ∀ bParts cParts i,
    isProperPrefix aParts bParts = false →
    isProperPrefix bParts aParts = false →
    isProperPrefix bParts cParts = false →
    isProperPrefix cParts bParts = false →
    isProperPrefix aParts cParts = false →
    isProperPrefix cParts aParts = false →
    (compareFrom localeCompare i aParts bParts <= 0)%Z →
    (compareFrom localeCompare i bParts cParts <= 0)%Z →
    (compareFrom localeCompare i aParts cParts <= 0)%Z.
Proof.
  destruct Hstrict as (Hanti & Hsep & Htrans).
  induction aParts as [|a aRest IH];
    intros [|b bRest] [|c cRest] i Hab Hba Hbc Hcb Hac Hca; try done.
  destruct (decide (a = b)) as [Heq1|Hne1], (decide (b = c)) as [Heq2|Hne2].
  - subst b c. rewrite !compareFrom_cons_eq. rewrite !isProperPrefix_cons in *.
    by apply IH.
  - subst b.
    pose proof (isProperPrefix_tails _ _ _ Hab).
    pose proof (isProperPrefix_tails _ _ _ Hba).
    rewrite (compareFrom_cons_ne i a c aRest cRest),
      (compareFrom_cons_ne i a c bRest cRest) by done.
    intros _. destruct aRest, bRest, cRest; try done; naive_solver.
  - subst c.
    pose proof (isProperPrefix_tails _ _ _ Hbc).
    pose proof (isProperPrefix_tails _ _ _ Hcb).
    rewrite (compareFrom_cons_ne i a b aRest bRest),
      (compareFrom_cons_ne i a b aRest cRest) by done.
    intros Hle _. revert Hle.
    destruct aRest, bRest, cRest; try done; naive_solver.
  - rewrite (compareFrom_cons_ne i a b aRest bRest),
      (compareFrom_cons_ne i b c bRest cRest) by done.
    pose proof (Hanti a b) as Hanti'. pose proof (Htrans a b c) as Htrans'.
    assert (localeCompare a b ≠ 0%Z) as Hnz1 by (by intros ?%Hsep).
    assert (localeCompare b c ≠ 0%Z) as Hnz2 by (by intros ?%Hsep).
    destruct (decide (a = c)) as [Heq3|Hne3].
    + subst c.
      pose proof (isProperPrefix_tails _ _ _ Hac).
      pose proof (isProperPrefix_tails _ _ _ Hca).
      rewrite Hanti'.
      destruct aRest, bRest, cRest; try done; try naive_solver lia.
    + rewrite (compareFrom_cons_ne i a c aRest cRest) by done.
      destruct aRest, bRest, cRest; try done; try lia.
Qed.

Lemma comparePaths_trans a b c :
  prefixFree [a; b; c] →
  (comparePaths localeCompare a b <= 0)%Z →
  (comparePaths localeCompare b c <= 0)%Z →
  (comparePaths localeCompare a c <= 0)%Z.
Proof.
  intros Hfree. rewrite !comparePaths_compareFrom.
  unfold prefixFree in Hfree. rewrite !Forall_cons in Hfree.
  destruct Hfree as ((_ & Hab & Hac & _) & (Hba & _ & Hbc & _) &
                     (Hca & Hcb & _ & _) & _).
  by apply compareFrom_trans.
Qed.

End Consistent.

Lemma prefixFree_elem paths :
  prefixFree paths ↔
  ∀ a b, a ∈ paths → b ∈ paths →
         isProperPrefix (JS.split "/" a) (JS.split "/" b) = false.
Proof.
  unfold prefixFree. rewrite Forall_forall.
  split; intros H a; [intros b Ha|intros Ha].
  - specialize (H a Ha). rewrite Forall_forall in H. apply H.
  - rewrite Forall_forall. intros b. by apply H.
Qed.

Lemma prefixFree_subseteq paths paths' :
  paths' ⊆ paths → prefixFree paths → prefixFree paths'.
Proof.
  rewrite !prefixFree_elem. intros Hsub H a b Ha Hb.
  apply H; by apply Hsub.
Qed.

(** ** sortTreeItems: the order of the result *)

Lemma inOrder_cons {T} cmp (path : T → string) x l :
  inOrder cmp path (x :: l) ↔
  (∀ y, y ∈ l → (cmp (path x) (path y) <= 0)%Z) ∧ inOrder cmp path l.
Proof.
  split.
  - intros H. split.
    + intros y [j Hj]%list_elem_of_lookup.
      apply (H 0 (S j) x y); [lia|done|done].
    + intros i j y z Hij Hi Hj. apply (H (S i) (S j) y z); [lia|done|done].
  - intros [Hx Hl] [|i] [|j] y z Hij Hi Hj; try lia.
    + cbn in Hi, Hj. injection Hi as <-.
      apply Hx. by apply list_elem_of_lookup_2 in Hj.
    + cbn in Hi, Hj. apply (Hl i j y z); [lia|done|done].
Qed.

(** In such an arrangement an item stands before every item that
    compares greater than it. *)
Lemma inOrder_earlier {T} cmp (path : T → string) out i j x y :
  inOrder cmp path out → out !! i = Some x → out !! j = Some y →
  (cmp (path y) (path x) > 0)%Z → x ≠ y → i < j.
Proof.
  intros Ho Hi Hj Hgt Hne.
  destruct (Nat.lt_trichotomy i j) as [?|[->|Hlt]]; [done| |].
  - rewrite Hi in Hj. by injection Hj.
  - pose proof (Ho j i y x Hlt Hj Hi). lia.
Qed.

Section Sorted.
Variable localeCompare : string → string → Z.
Hypothesis Hstrict : strictTotal localeCompare.
Context {T : Type} (path : T → string).

Lemma insertSorted_inOrder x sorted :
  prefixFree (path <$> x :: sorted) →
  inOrder (comparePaths localeCompare) path sorted →
  inOrder (comparePaths localeCompare) path
    (insertSorted localeCompare path x sorted).
Proof.
  induction sorted as [|y r IH]; intros Hfree Hs; cbn [insertSorted].
  - apply inOrder_cons. split; [by intros ? ?%elem_of_nil|done].
  - apply inOrder_cons in Hs as Hs'. destruct Hs' as [Hy Hr].
    destruct (Z.leb_spec (comparePaths localeCompare (path x) (path y)) 0)
      as [Hle|Hgt].
    + apply inOrder_cons. split; [|done].
      intros z [->|Hz]%elem_of_cons; [done|].
      apply (comparePaths_trans _ Hstrict _ (path y)); [|done|by apply Hy].
      eapply prefixFree_subseteq; [|done].
      intros p Hp. cbn [fmap list_fmap].
      apply elem_of_cons in Hp as [->|Hp]; [solve_elem|].
      apply elem_of_cons in Hp as [->|Hp]; [solve_elem|].
      apply list_elem_of_singleton in Hp as ->.
      do 2 right. by apply list_elem_of_fmap_2.
    + apply inOrder_cons. split.
      * intros z Hz. rewrite insertSorted_perm in Hz.
        apply elem_of_cons in Hz as [->|Hz]; [|by apply Hy].
        rewrite (comparePaths_swap _ (path x) (path y)); [lia|].
        apply Hstrict.
      * apply IH; [|done]. eapply prefixFree_subseteq; [|done].
        intros p Hp. cbn [fmap list_fmap] in *.
        apply elem_of_cons in Hp as [->|Hp]; [solve_elem|].
        by do 2 right.
Qed.

Lemma sortTreeItems_inOrder items :
  prefixFree (path <$> items) →
  inOrder (comparePaths localeCompare) path
    (sortTreeItems localeCompare path items).
Proof.
  induction items as [|x items IH]; intros Hfree.
  - by intros i j x y _ Hi.
  - change (sortTreeItems localeCompare path (x :: items))
      with (insertSorted localeCompare path x
              (sortTreeItems localeCompare path items)).
    apply insertSorted_inOrder.
    + eapply prefixFree_subseteq; [|done].
      intros p Hp. cbn [fmap list_fmap] in *.
      apply elem_of_cons in Hp as [->|Hp]; [solve_elem|]. right.
      apply list_elem_of_fmap in Hp as (z & -> & Hz).
      rewrite sortTreeItems_perm in Hz. by apply list_elem_of_fmap_2.
    + apply IH. eapply prefixFree_subseteq; [|done].
      intros p Hp. by right.
Qed.

(** Two arrangements of items with different paths that are both in the
    order of the comparator are the same. *)
Lemma inOrder_unique l1 :
  ∀ l2, NoDup (path <$> l1) → l1 ≡ₚ l2 →
        inOrder (comparePaths localeCompare) path l1 →
        inOrder (comparePaths localeCompare) path l2 → l1 = l2.
Proof.
  destruct Hstrict as (Hanti & Hsep & _).
  induction l1 as [|x l1 IH]; intros l2 Hnd Hp H1 H2.
  - by apply Permutation_nil_l in Hp.
  - destruct l2 as [|y l2]; [by apply Permutation_nil_r in Hp|].
    apply inOrder_cons in H1 as [Hx H1], H2 as [Hy H2].
    cbn [fmap list_fmap] in Hnd. apply NoDup_cons in Hnd as [Hfresh Hnd].
    assert (x = y) as <-.
    { assert (x ∈ y :: l2) as Hxin by (rewrite <- Hp; by left).
      assert (y ∈ x :: l1) as Hyin by (rewrite Hp; by left).
      apply elem_of_cons in Hxin as [?|Hxin]; [done|].
      apply elem_of_cons in Hyin as [?|Hyin]; [done|].
      exfalso. apply Hfresh.
      assert (path x = path y) as ->; [|by apply list_elem_of_fmap_2].
      apply (comparePaths_zero localeCompare); [done|].
      pose proof (Hx y Hyin). pose proof (Hy x Hxin).
      pose proof (comparePaths_swap localeCompare (path x) (path y) Hanti).
      lia. }
    f_equal. apply IH; [done| |done|done].
    by apply Permutation_cons_inv in Hp.
Qed.

End Sorted.

Lemma string_compare_trans (x : string) :
  ∀ y z, String.compare x y = Lt → String.compare y z = Lt →
         String.compare x z = Lt.
Proof.
  induction x as [|a x IH]; intros [|b y] [|c z]; cbn; try done.
  unfold Ascii.compare.
  destruct (N.compare_spec (Ascii.N_of_ascii a) (Ascii.N_of_ascii b))
    as [Hab|Hab|Hab]; [| |done];
    destruct (N.compare_spec (Ascii.N_of_ascii b) (Ascii.N_of_ascii c))
      as [Hbc|Hbc|Hbc]; try done.
  - rewrite Hab, Hbc, N.compare_refl. apply IH.
  - intros _ _. rewrite Hab. by apply N.compare_lt_iff in Hbc as ->.
  - intros _ _. rewrite <- Hbc. by apply N.compare_lt_iff in Hab as ->.
  - intros _ _.
    by rewrite (proj2 (N.compare_lt_iff _ _) (N.lt_trans _ _ _ Hab Hbc)).
Qed.

(** The comparison by code units is a strict total order. *)
Lemma ordinalCompare_strictTotal : strictTotal ordinalCompare.
Proof.
  split; [|split].
  - intros x y. unfold ordinalCompare. rewrite (String.compare_antisym x y).
    by destruct (String.compare y x).
  - intros x y. unfold ordinalCompare.
    destruct (String.compare x y) eqn:Hc; try done.
    intros _. by apply String.compare_eq_iff.
  - intros x y z. unfold ordinalCompare.
    destruct (String.compare x y) eqn:Hxy; try done.
    destruct (String.compare y z) eqn:Hyz; try done.
    by rewrite (string_compare_trans x y z).
Qed.

(** The order of the sample paths does not depend on the sorting
    algorithm: the only arrangement of them in which no item compares
    greater than a later one is the one [sortTreeItems] returns. *)
Lemma samplePaths_sorted_unique (localeCompare : string → string → Z)
    (out : list string) :
  out ≡ₚ samplePaths →
  (∀ i j x y, i < j → out !! i = Some x → out !! j = Some y →
              (comparePaths localeCompare x y <= 0)%Z) →
  out = ["src/sub/b.ts"; "src/a.ts"; "README.md"].
Proof.
  intros Hp Hs. pose proof (Permutation_length Hp) as Hlen.
  destruct out as [|x [|y [|z [|]]]]; try discriminate Hlen.
  assert (x ∈ samplePaths) as Hx by (rewrite <- Hp; solve_elem).
  assert (y ∈ samplePaths) as Hy by (rewrite <- Hp; solve_elem).
  assert (z ∈ samplePaths) as Hz by (rewrite <- Hp; solve_elem).
  assert (NoDup [x; y; z]) as Hnd.
  { rewrite Hp. unfold samplePaths. repeat constructor; solve_not_elem. }
  pose proof (Hs 0 1 x y (Nat.lt_0_1) eq_refl eq_refl) as Hxy.
  pose proof (Hs 1 2 y z (Nat.lt_succ_diag_r 1) eq_refl eq_refl) as Hyz.
  apply NoDup_cons in Hnd as [Hx' Hnd]. apply NoDup_cons in Hnd as [Hy' _].
  unfold samplePaths in Hx, Hy, Hz.
  repeat match goal with
         | H : _ ∈ _ :: _ |- _ => apply elem_of_cons in H as [->|H]
         | H : _ ∈ [] |- _ => by apply elem_of_nil in H
         end;
    try reflexivity;
    try (exfalso; apply Hx'; solve_elem);
    try (exfalso; apply Hy'; solve_elem);
    try (exfalso; vm_compute in Hxy; by apply Hxy);
    try (exfalso; vm_compute in Hyz; by apply Hyz).
Qed.

(** ** buildAsciiIndex: lines of the rendered tree *)

Lemma count_append c a b :
  JS.count c (a +:+ b) = JS.count c a + JS.count c b.
Proof. induction a as [|d a IH]; simpl; [done|]. rewrite IH. lia. Qed.

Lemma occurs_count c s : JS.occurs c s = false → JS.count c s = 0.
Proof.
  induction s as [|d s IH]; simpl; [done|].
  intros [-> Hs]%orb_false_elim. by rewrite IH.
Qed.

Lemma occurs_append c a b :
  JS.occurs c (a +:+ b) = JS.occurs c a || JS.occurs c b.
Proof.
  induction a as [|d a IH]; simpl; [done|]. by rewrite IH, orb_assoc.
Qed.

Lemma buildAsciiIndex_unfold node prefix isLast :
  buildAsciiIndex node prefix isLast =
  let cs := TreeNode.kids node in
  let len := length (Obj.values cs) in
  if String.eqb (TreeNode.name node) "root" then
    JS.join ""
      ((fix each (l : Obj.t TreeNode.t) (i : nat) : list string :=
          match l with
          | [] => []
          | kc :: r =>
              buildAsciiIndex (snd kc) "" (Nat.eqb i (len - 1))
                :: each r (S i)
          end) cs 0)
  else
    let connector := if isLast then connectorLast else connectorMid in
    let result := prefix +:+ connector +:+ TreeNode.name node +:+ newline in
    let childPrefix :=
      prefix +:+ (if isLast then prefixLast else prefixMid) in
    (fix each (l : Obj.t TreeNode.t) (i : nat) (result : string) : string :=
       match l with
       | [] => result
       | kc :: r =>
           each r (S i)
             (result +:+
                buildAsciiIndex (snd kc) childPrefix (Nat.eqb i (len - 1)))
       end) cs 0 result.
Proof. destruct node as [? ? ? ? ? [cs|]]; done. Qed.

Lemma printedNodes_unfold n :
  length (printedNodes n) =
  (if String.eqb (TreeNode.name n) "root" then 0 else 1) +
  list_sum (map (λ kc, length (printedNodes (snd kc))) (TreeNode.kids n)).
Proof.
  unfold printedNodes at 1. rewrite allNodes_unfold. cbn [List.filter].
  assert (∀ cs : Obj.t TreeNode.t,
            length (List.filter
                      (λ m, negb (String.eqb (TreeNode.name m) "root"))
                      (concat (map (λ kc, allNodes kc.2) cs))) =
            list_sum (map (λ kc, length (printedNodes kc.2)) cs)) as Hcs.
  { induction cs as [|kc cs IH]; [done|]. cbn [map concat list_sum].
    by rewrite List.filter_app, length_app, IH. }
  destruct (String.eqb (TreeNode.name n) "root"); simpl; by rewrite Hcs.
Qed.

Lemma count_join_empty c l :
  JS.count c (JS.join "" l) = list_sum (map (JS.count c) l).
Proof.
  unfold JS.join. induction l as [|x l IH]; [done|].
  destruct l as [|y l]; [simpl; lia|].
  rewrite concat_cons, !count_append, IH. simpl. lia.
Qed.

(** The number of lines is the number of nodes not taken for the root,
    provided no name contains a line feed. *)
Lemma lineCount_buildAsciiIndex : ∀ n prefix isLast,
  (∀ m, m ∈ allNodes n → JS.occurs JS.LF (TreeNode.name m) = false) →
  JS.occurs JS.LF prefix = false →
  lineCount (buildAsciiIndex n prefix isLast) = length (printedNodes n).
Proof.
  unfold lineCount.
  induction n as [n IH] using TreeNode_ind_kids.
  intros prefix isLast Hnames Hprefix.
  rewrite buildAsciiIndex_unfold, printedNodes_unfold. cbn zeta.
  rewrite allNodes_unfold in Hnames.
  assert (JS.occurs JS.LF (TreeNode.name n) = false) as Hn
    by (apply Hnames; by left).
  assert (∀ kc m, kc ∈ TreeNode.kids n → m ∈ allNodes kc.2 →
            JS.occurs JS.LF (TreeNode.name m) = false) as Hkids.
  { intros kc m Hkc Hm. apply Hnames. right.
    apply elem_of_concat_map. eauto. }
  clear Hnames. generalize (length (Obj.values (TreeNode.kids n)) - 1).
  intros last.
  destruct (String.eqb (TreeNode.name n) "root").
  - rewrite count_join_empty. simpl. generalize 0.
    induction IH as [|kc cs Hkc _ IHcs]; intros i; [done|].
    cbn -[buildAsciiIndex printedNodes JS.count].
    rewrite Hkc, IHcs; [done|..].
    + intros ? ? ?. apply Hkids. by right.
    + intros m Hm. apply (Hkids kc); [by left|done].
    + done.
  - set (childPrefix := prefix +:+ (if isLast then prefixLast else prefixMid)).
    assert (JS.occurs JS.LF childPrefix = false) as HcP.
    { unfold childPrefix. rewrite occurs_append, Hprefix.
      by destruct isLast. }
    set (result := prefix +:+ _).
    assert (JS.count JS.LF result = 1) as Hres.
    { unfold result. rewrite !count_append.
      rewrite (occurs_count _ _ Hprefix), (occurs_count _ _ Hn).
      by destruct isLast. }
    rewrite <- Hres. generalize result. generalize 0.
    clearbody childPrefix. clear result Hres.
    induction IH as [|kc cs Hkc _ IHcs]; intros i acc; [simpl; lia|].
    cbn -[buildAsciiIndex printedNodes JS.count]. rewrite IHcs.
    + rewrite count_append, Hkc; [unfold list_sum; lia|..].
      * intros m Hm. apply (Hkids kc); [by left|done].
      * done.
    + intros ? ? ?. apply Hkids. by right.
Qed.

Lemma filter_all {A} (f : A → bool) (l : list A) :
  (∀ x, x ∈ l → f x = true) → List.filter f l = l.
Proof.
  induction l as [|a l IH]; intros H; simpl; [done|].
  rewrite (H a) by (by left). rewrite IH; [done|].
  intros x Hx. apply H. by right.
Qed.

(** Where the claim of C7 does hold: the top node is the synthetic root,
    no other node is named ["root"], and no name contains a line feed. *)
Lemma renderTree_lineCount (t : TreeNode.t) :
  TreeNode.name t = "root" →
  (∀ m, m ∈ allNodes t → JS.occurs JS.LF (TreeNode.name m) = false) →
  (∀ kc m, kc ∈ TreeNode.kids t → m ∈ allNodes (snd kc) →
           TreeNode.name m ≠ "root") →
  lineCount (renderTree t) = length (allNodes t) - 1.
Proof.
  intros Hroot Hnames Hclash. unfold renderTree.
  rewrite lineCount_buildAsciiIndex by done.
  unfold printedNodes. rewrite allNodes_unfold. cbn [List.filter].
  rewrite Hroot. cbn [String.eqb Ascii.eqb negb]. simpl.
  rewrite filter_all; [lia|].
  intros m (kc & Hkc & Hm)%elem_of_concat_map.
  apply negb_true_iff, String.eqb_neq. by apply (Hclash kc).
Qed.

(** ** handleFetch: the default selection *)

Lemma initialSelection_fold items : ∀ (acc : SelectionState) p,
  acc !! "__proto__" = None →
  fold_left
    (λ sel item,
       match GitHubItem.type item with
       | blob =>
           JS.assign (GitHubItem.path item)
             (has COMMON_EXTENSIONS (extensionOf (GitHubItem.path item))) sel
       | tree => sel
       end) items acc !! p =
  if listsFile p items && negb (String.eqb p "__proto__")
  then Some (has COMMON_EXTENSIONS (extensionOf p))
  else acc !! p.
Proof.
  unfold listsFile.
  induction items as [|it items IH]; intros acc p Hacc; simpl; [done|].
  assert (match GitHubItem.type it with
          | blob =>
              JS.assign (GitHubItem.path it)
                (has COMMON_EXTENSIONS (extensionOf (GitHubItem.path it))) acc
          | tree => acc
          end !! "__proto__" = None) as Hacc'.
  { destruct (GitHubItem.type it); [|done].
    destruct (String.eqb_spec (GitHubItem.path it) "__proto__") as [->|Hne];
      [by rewrite assign_proto|by rewrite lookup_assign_ne]. }
  rewrite IH by done. destruct (existsb _ items); simpl.
  { rewrite orb_true_r. simpl.
    destruct (String.eqb p "__proto__") eqn:Hp; simpl; [|done].
    apply String.eqb_eq in Hp as ->. by rewrite Hacc'. }
  rewrite orb_false_r. destruct (GitHubItem.type it); simpl; [|done].
  destruct (String.eqb_spec (GitHubItem.path it) p) as [->|Hne]; simpl.
  - destruct (String.eqb_spec p "__proto__") as [->|Hp]; simpl;
      [by rewrite assign_proto|].
    by rewrite assign_insert, lookup_insert_eq.
  - by rewrite lookup_assign_ne.
Qed.

(** A path is a key of the default selection exactly when a FILE entry
    lists it and it is not [__proto__], and its value only depends on the
    path. *)
Lemma initialSelection_lookup items p :
  initialSelection items !! p =
  if listsFile p items && negb (String.eqb p "__proto__")
  then Some (has COMMON_EXTENSIONS (extensionOf p))
  else None.
Proof. unfold initialSelection. by rewrite initialSelection_fold. Qed.

Lemma split_length sep s : length (JS.split sep s) = S (JS.count sep s).
Proof.
  induction s as [|c r IH]; simpl; [done|].
  destruct (Ascii.eqb c sep); simpl; [by rewrite IH|].
  destruct (JS.split sep r); simpl in *; lia.
Qed.

Lemma last_split_after sep a b :
  last (JS.split sep (a +:+ String sep b)) = last (JS.split sep b).
Proof.
  induction a as [|c a IH]; simpl.
  - rewrite Ascii.eqb_refl.
    pose proof (split_nonempty sep b). by destruct (JS.split sep b).
  - pose proof (split_length sep (a +:+ String sep b)) as Hlen.
    rewrite count_append in Hlen. simpl in Hlen.
    rewrite Ascii.eqb_refl in Hlen.
    destruct (JS.split sep (a +:+ String sep b)) as [|h [|h' t]];
      simpl in Hlen; try lia.
    destruct (Ascii.eqb c sep); by rewrite <- IH.
Qed.

Lemma extensionOf_pop path :
  extensionOf path =
  JS.toLowerCase (default "" (JS.pop (JS.split "." path))).
Proof.
  unfold extensionOf. destruct (JS.pop (JS.split "." path)) as [s|]; [|done].
  simpl. by destruct (String.eqb_spec (JS.toLowerCase s) "") as [->|].
Qed.

(** With a dot in the path, the extension is what follows the last one,
    in lower case. *)
Lemma extensionOf_dotted pre ext :
  JS.occurs "." ext = false →
  extensionOf (pre +:+ "." +:+ ext) = JS.toLowerCase ext.
Proof.
  intros Hext. rewrite extensionOf_pop. unfold JS.pop.
  change (pre +:+ "." +:+ ext) with (pre +:+ String "." ext).
  by rewrite last_split_after, (split_no_sep _ _ Hext).
Qed.

(** Without a dot, the extension is the whole path, in lower case. *)
Lemma extensionOf_dotless path :
  JS.occurs "." path = false → extensionOf path = JS.toLowerCase path.
Proof.
  intros H. by rewrite extensionOf_pop, (split_no_sep _ _ H).
Qed.

(** Where the claim of C8 does hold: for a path with a dot the entry is
    [true] exactly when what follows the last dot is, in lower case, in
    the allow-list; and a path that only DIRECTORY entries list is not a
    key of the map. *)
Lemma initialSelection_dotted items pre ext :
  JS.occurs "." ext = false →
  initialSelection items !! (pre +:+ "." +:+ ext) =
  if listsFile (pre +:+ "." +:+ ext) items
  then Some (has COMMON_EXTENSIONS (JS.toLowerCase ext))
  else None.
Proof.
  intros Hext. rewrite initialSelection_lookup, extensionOf_dotted by done.
  assert (String.eqb (pre +:+ "." +:+ ext) "__proto__" = false) as ->.
  { apply String.eqb_neq. intros Heq.
    assert (JS.occurs "." (pre +:+ "." +:+ ext) = true) as Hdot.
    { rewrite occurs_append.
      change ("." +:+ ext) with (String "." ext). simpl.
      apply orb_true_r. }
    by rewrite Heq in Hdot. }
  by rewrite andb_true_r.
Qed.

(** ** formatRepoOutput: one step appends one record *)

Lemma concat_empty_cons x l :
  String.concat "" (x :: l) = x +:+ String.concat "" l.
Proof. destruct l; simpl; [by rewrite append_nil_r|done]. Qed.

Lemma mdStep_append output file :
  mdStep output file = output +:+ mdStep "" file.
Proof.
  unfold mdStep.
  destruct (ContentType_eqb (FileContent.type file) image
            && JS.truthyStr (FileContent.dataUrl file)); [done|].
  destruct (ContentType_eqb (FileContent.type file) text); [done|].
  by rewrite append_nil_r.
Qed.

Lemma txtStep_append output file :
  txtStep output file = output +:+ txtStep "" file.
Proof.
  unfold txtStep.
  by destruct (ContentType_eqb (FileContent.type file) text).
Qed.

Lemma fold_left_append (step : string → FileContent.t → string) :
  (∀ output file, step output file = output +:+ step "" file) →
  ∀ files output,
    fold_left step files output =
    output +:+ String.concat "" (map (step "") files).
Proof.
  intros Hstep. induction files as [|f files IH]; intros output.
  - simpl. by rewrite append_nil_r.
  - cbn [fold_left map]. rewrite IH, concat_empty_cons, (Hstep output f).
    apply append_assoc.
Qed.

Lemma mdStep_omitted file : mdEmits file = false → mdStep "" file = "".
Proof.
  unfold mdEmits, mdStep.
  destruct (FileContent.type file); [done|]. by intros ->.
Qed.

Lemma concat_map_filter (g : FileContent.t → string) (keep : FileContent.t → bool)
    (files : list FileContent.t) :
  (∀ file, keep file = false → g file = "") →
  String.concat "" (map g files) =
  String.concat "" (map g (List.filter keep files)).
Proof.
  intros Hg. induction files as [|f files IH]; [done|].
  cbn [map List.filter]. rewrite concat_empty_cons, IH.
  destruct (keep f) eqn:Hk.
  - cbn [map]. by rewrite concat_empty_cons.
  - by rewrite (Hg f Hk).
Qed.

(** ** The state after a fetch *)

Lemma isPrefix_app_l ps l : isPrefix ps (ps ++ l) = true.
Proof. induction ps; simpl; [done|]. by rewrite String.eqb_refl. Qed.

Lemma isPrefix_split ps l :
  isPrefix ps l = true → l = ps ++ drop (length ps) l.
Proof.
  intros H. rewrite <- (isPrefix_take _ _ H) at 1. by rewrite take_drop.
Qed.

(** On paths, "equal to [path] or starting with [path/]" is "passing
    through the segments of [path]". *)
Lemma under_iff ps k :
  segments "/" ps →
  under (JS.join "/" ps) k = true ↔ isPrefix ps (JS.split "/" k) = true.
Proof.
  intros Hseg. unfold under. rewrite orb_true_iff. split.
  - intros [->%String.eqb_eq|H].
    + rewrite split_join by done. apply isPrefix_refl.
    + apply prefix_inv in H as [r ->]. rewrite append_assoc.
      change ("/" +:+ r) with (String "/" r).
      rewrite split_app_sep, split_join by done. apply isPrefix_app_l.
  - intros H. apply isPrefix_split in H.
    rewrite <- (join_split "/" k), H.
    destruct (drop (length ps) (JS.split "/" k)) as [|q qs] eqn:Hd.
    + left. rewrite app_nil_r. apply String.eqb_refl.
    + right. rewrite join_app by (done || apply Hseg).
      unfold JS.startsWith. rewrite <- append_assoc. apply prefix_append.
Qed.

Lemma fileNodes_allNodes : ∀ n f,
  f ∈ fileNodes n ↔ f ∈ allNodes n ∧ TreeNode.type f = blob.
Proof.
  induction n as [n IH] using TreeNode_ind_kids. intros f.
  rewrite Forall_forall in IH.
  rewrite fileNodes_unfold, allNodes_unfold, elem_of_app, elem_of_cons,
    !elem_of_concat_map.
  split.
  - intros [Hf|(kc & Hkc & Hf)].
    + destruct (TreeNode.type n) eqn:Hty.
      * apply list_elem_of_singleton in Hf as ->. split; [by left|done].
      * by apply elem_of_nil in Hf.
    + apply (IH kc Hkc) in Hf as [Hf Hb]. split; [|done]. right. eauto.
  - intros [[->|(kc & Hkc & Hf)] Hb].
    + left. rewrite Hb. by left.
    + right. exists kc. split; [done|]. by apply (IH kc Hkc).
Qed.

Lemma nodeAt_allNodes ps : ∀ n m, nodeAt n ps = Some m → m ∈ allNodes n.
Proof.
  induction ps as [|p r IH]; intros n m; simpl.
  - intros [= ->]. apply allNodes_kids. by left.
  - destruct (Obj.get p (TreeNode.kids n)) as [c|] eqn:Hc; [|done].
    intros Hm. apply allNodes_kids. right. exists (p, c).
    split; [by apply get_elem|by apply IH].
Qed.

Lemma allNodes_trans m n : ∀ r,
  m ∈ allNodes n → n ∈ allNodes r → m ∈ allNodes r.
Proof.
  induction r as [r IH] using TreeNode_ind_kids. intros Hm Hn.
  rewrite Forall_forall in IH.
  apply allNodes_kids in Hn as [->|(kc & Hkc & Hn)]; [done|].
  apply allNodes_kids. right. exists kc. split; [done|]. by apply IH.
Qed.

Lemma uniqueKeys_sub r n : uniqueKeys r → n ∈ allNodes r → uniqueKeys n.
Proof. intros Hr Hn m Hm. by apply Hr, (allNodes_trans m n). Qed.

Lemma listsFile_true p items :
  listsFile p items = true ↔
  ∃ e, e ∈ items ∧ GitHubItem.type e = blob ∧ GitHubItem.path e = p.
Proof.
  unfold listsFile. rewrite existsb_exists. split.
  - intros (e & He & [Ht Hp]%andb_prop). exists e.
    split; [by apply list_elem_of_In|].
    split; [by destruct (GitHubItem.type e)|by apply String.eqb_eq].
  - intros (e & He & Ht & Hp). exists e.
    split; [by apply list_elem_of_In|].
    by rewrite Ht, Hp, String.eqb_refl.
Qed.

Lemma nodeAt_segments items p r n :
  nodeAt (buildTree items) (p :: r) = Some n → segments "/" (p :: r).
Proof.
  intros (it & _ & Hp & _)%nodeAt_buildTree_fields. split; [done|].
  destruct (split_segments "/" (GitHubItem.path it)) as [_ Hall].
  fold (partsOf it) in Hall.
  rewrite (isPrefix_split _ _ Hp) in Hall. by apply Forall_app in Hall as [? _].
Qed.

Lemma plainPaths_not_proto items e :
  plainPaths items → e ∈ items → GitHubItem.path e ≠ "__proto__".
Proof.
  intros Hplain He Heq. specialize (Hplain e He).
  unfold partsOf in Hplain. rewrite Heq in Hplain.
  by apply Forall_inv in Hplain.
Qed.

(** Right after a fetch of a list of plain paths in which no FILE lies on
    the way to another entry and no path is listed with two kinds, the
    keys that [handleToggle] inspects for a directory are exactly the
    paths of the FILE nodes beneath it. *)
Lemma keysMatch_after_fetch items p r n :
  plainPaths items → wellNested items → consistentKinds items →
  nodeAt (buildTree items) (p :: r) = Some n →
  keysMatch (initialSelection items) (JS.join "/" (p :: r)) n.
Proof.
  intros Hplain Hwn Hck Hn k.
  pose proof (nodeAt_segments _ _ _ _ Hn) as Hseg.
  rewrite (under_iff _ k Hseg), initialSelection_lookup.
  rewrite elem_of_filePaths. split.
  - intros [Hsome Hpre].
    destruct (listsFile k items) eqn:Hl; [|by destruct Hsome].
    apply listsFile_true in Hl as (e & He & Hblob & <-).
    fold (partsOf e) in Hpre.
    pose proof (partsOf_nonempty e) as Hne.
    destruct (partsOf e) as [|q qs] eqn:Hparts; [done|].
    destruct (nodeAt_buildTree_exists items e q qs Hplain He) as [f Hf].
    { rewrite Hparts. apply isPrefix_refl. }
    exists f.
    pose proof (nodeAt_buildTree_fields _ _ _ _ Hf)
      as (e0 & He0 & Hp0 & _ & Hpath & Htype & _).
    assert (q :: qs = partsOf e0) as Heq.
    { apply isPrefix_same_length; [done|].
      pose proof (isPrefix_length _ _ Hp0) as Hle.
      destruct (decide (length (q :: qs) = length (partsOf e0))); [done|].
      pose proof (wellNested_elim items e e0 Hwn He He0 Hblob) as Hnp.
      unfold isProperPrefix in Hnp. rewrite Hparts, Hp0 in Hnp.
      apply andb_false_iff in Hnp as [?|Hnp]; [done|].
      apply Nat.ltb_ge in Hnp. lia. }
    assert (GitHubItem.path e0 = GitHubItem.path e) as Hsame.
    { rewrite <- (join_split "/" (GitHubItem.path e0)),
        <- (join_split "/" (GitHubItem.path e)).
      fold (partsOf e0) (partsOf e). by rewrite <- Heq, Hparts. }
    rewrite bool_decide_eq_true_2 in Htype by done.
    rewrite (Hck e0 e He0 He Hsame), Hblob in Htype.
    split.
    + apply fileNodes_allNodes. split; [|done].
      rewrite (isPrefix_split _ _ Hpre) in Hf.
      rewrite nodeAt_app, Hn in Hf. by apply nodeAt_allNodes in Hf.
    + rewrite Hpath, <- Hparts. apply join_split.
  - intros (f & [Hf Hblob]%fileNodes_allNodes & <-).
    assert (uniqueKeys n) as Hu.
    { apply (uniqueKeys_sub (buildTree items)).
      - apply uniqueKeys_buildTree.
      - by apply nodeAt_allNodes in Hn. }
    destruct (allNodes_nodeAt n f Hu Hf) as [qs Hqs].
    assert (nodeAt (buildTree items) ((p :: r) ++ qs) = Some f) as Hfull
      by (by rewrite nodeAt_app, Hn).
    change ((p :: r) ++ qs) with (p :: (r ++ qs)) in Hfull.
    pose proof (nodeAt_buildTree_fields _ _ _ _ Hfull)
      as (e & He & Hpe & _ & Hpath & Htype & _).
    rewrite Hblob in Htype. case_bool_decide as Heq; [|done].
    assert (TreeNode.path f = GitHubItem.path e) as ->.
    { rewrite Hpath, Heq. apply join_split. }
    split.
    + rewrite (proj2 (listsFile_true _ _)) by (by exists e).
      pose proof (plainPaths_not_proto items e Hplain He) as Hnp.
      apply String.eqb_neq in Hnp as ->. by eexists.
    + fold (partsOf e). rewrite <- Heq.
      change (p :: r ++ qs) with ((p :: r) ++ qs). apply isPrefix_app_l.
Qed.

Lemma findNode_Some path : ∀ n m,
  findNode path n = Some m → m ∈ allNodes n ∧ TreeNode.path m = path.
Proof.
  induction n as [n IH] using TreeNode_ind_kids. intros m.
  rewrite findNode_unfold, allNodes_unfold.
  destruct (String.eqb_spec (TreeNode.path n) path) as [Heq|Hne].
  - intros [= <-]. split; [by left|done].
  - induction IH as [|kc cs Hkc _ IHcs]; [done|]. simpl.
    destruct (findNode path kc.2) as [m'|] eqn:Hm'.
    + intros [= <-]. destruct (Hkc m' eq_refl) as [Hin Hp].
      split; [|done]. right. apply elem_of_app. by left.
    + intros H. destruct (IHcs H) as [Hin Hp]. split; [|done].
      apply elem_of_cons in Hin as [->|Hin]; [done|].
      right. apply elem_of_app. by right.
Qed.

(** In a built tree a path other than the empty one names one node. *)
Lemma findNode_after_fetch items p r n :
  nodeAt (buildTree items) (p :: r) = Some n →
  JS.join "/" (p :: r) ≠ "" →
  findNode (JS.join "/" (p :: r)) (buildTree items) = Some n.
Proof.
  intros Hn Hne.
  pose proof (nodeAt_buildTree_fields _ _ _ _ Hn) as (_ & _ & _ & _ & Hp & _).
  destruct (findNode (JS.join "/" (p :: r)) (buildTree items)) as [m|] eqn:Hm.
  - f_equal. apply findNode_Some in Hm as [Hin Hpm].
    destruct (allNodes_nodeAt _ m (uniqueKeys_buildTree items) Hin)
      as [[|q qs] Hqs].
    + injection Hqs as <-. pose proof (label_buildTree items) as Hl.
      apply label_eq in Hl as (_ & Hroot & _). simpl in Hroot. congruence.
    + pose proof (nodeAt_buildTree_fields _ _ _ _ Hqs)
        as (_ & _ & _ & _ & Hq & _).
      assert (q :: qs = p :: r) as Heq.
      { rewrite <- (split_join "/" (q :: qs)), <- (split_join "/" (p :: r));
          [congruence|by eapply nodeAt_segments..]. }
      rewrite Heq in Hqs. congruence.
  - exfalso. apply (proj1 (findNode_None _ _) Hm n); [|done].
    by apply nodeAt_allNodes in Hn.
Qed.

(** Where the claim of C1 does hold: in a session that started with a
    fetch of a list of plain paths in which no FILE lies on the way to
    another entry and no path is listed with two kinds, whatever was
    toggled since, toggling a directory whose subtree is proper writes,
    at every FILE beneath it, [false] if its status is CHECKED and [true]
    if it is UNCHECKED or INDETERMINATE. *)
Lemma toggle_follows_status_in_session items selection p r n :
  plainPaths items → wellNested items → consistentKinds items →
  sameKeys (initialSelection items) selection →
  nodeAt (buildTree items) (p :: r) = Some n →
  JS.join "/" (p :: r) ≠ "" → properTree n = true →
  ∀ f, f ∈ fileNodes n →
       handleToggle (Some (buildTree items)) (JS.join "/" (p :: r)) false
         selection !! TreeNode.path f =
       Some match getSelectionStatus selection n with
            | checked => false
            | unchecked | indeterminate => true
            end.
Proof.
  intros Hplain Hwn Hck Hkeys Hn Hne Hp f Hf.
  assert (keysMatch selection (JS.join "/" (p :: r)) n) as Hm.
  { apply (keysMatch_sameKeys (initialSelection items)); [done|].
    by apply keysMatch_after_fetch. }
  rewrite (handleToggle_found _ _ _ n) by (by apply findNode_after_fetch).
  rewrite lookup_writeAll, bool_decide_eq_true_2
    by (apply elem_of_filePaths; eauto).
  by rewrite (target_from_status _ _ n).
Qed.

(** The sample session meets these conditions. *)
Example toggle_follows_status_sample :
  ∀ f, f ∈ fileNodes srcNode →
       handleToggle (Some sampleTree) "src" false sampleSelection
         !! TreeNode.path f = Some false.
Proof.
  assert (plainPaths sampleItems) as Hplain.
  { intros e He. unfold sampleItems in He.
    repeat (apply elem_of_cons in He as [->|He];
            [vm_compute; by repeat constructor|]).
    by apply elem_of_nil in He. }
  assert (wellNested sampleItems) as Hwn.
  { unfold wellNested, sampleItems.
    repeat (constructor; [intros _; repeat constructor|]). constructor. }
  assert (consistentKinds sampleItems) as Hck.
  { assert (∀ e, e ∈ sampleItems → GitHubItem.type e = blob) as Hblob.
    { intros e He. unfold sampleItems in He.
      repeat (apply elem_of_cons in He as [->|He]; [done|]).
      by apply elem_of_nil in He. }
    intros e e' He He' _. by rewrite (Hblob e He), (Hblob e' He'). }
  assert (sameKeys (initialSelection sampleItems) sampleSelection) as Hkeys.
  { intros k. rewrite initialSelection_lookup. unfold sampleSelection.
    destruct (decide (k = "src/a.ts")) as [->|H1]; [by split; eexists|].
    destruct (decide (k = "src/sub/b.ts")) as [->|H2]; [by split; eexists|].
    destruct (decide (k = "README.md")) as [->|H3]; [by split; eexists|].
    rewrite !lookup_insert_ne, lookup_empty by done.
    destruct (listsFile k sampleItems) eqn:E; [exfalso|done].
    apply listsFile_true in E as (e & He & _ & Hp). unfold sampleItems in He.
    repeat (apply elem_of_cons in He as [->|He]; [by subst k|]).
    by apply elem_of_nil in He. }
  intros f Hf.
  exact (toggle_follows_status_in_session sampleItems sampleSelection
           "src" [] srcNode Hplain Hwn Hck Hkeys eq_refl ltac:(discriminate)
           eq_refl f Hf).
Qed.

(** ** buildTree: names found on [Object.prototype] *)

(** At a segment named like a member of [Object.prototype] no node is
    created and the walk leaves the tree: what follows the segment is not
    in the tree either, and an entry of that very name leaves no node,
    however often it is listed. *)
Example buildTree_inherited_name :
  is_Some (nodeAt (buildTree [file "src/constructor/a.ts"]) ["src"]) ∧
  nodeAt (buildTree [file "src/constructor/a.ts"]) ["src"; "constructor"]
    = None ∧
  TreeNode.kids (buildTree [file "toString"; dir "toString"]) = [].
Proof. vm_compute. split; [by eexists|done]. Qed.

(** A path that goes on after a segment [__proto__] leaves a member
    [children] on [Object.prototype]; from then on a segment [children]
    is found there, and is no node. *)
Example buildTree_children_inherited :
  snd (buildTreeIn false [file "__proto__/x"]) = true ∧
  is_Some (nodeAt (buildTree [file "children/x"]) ["children"]) ∧
  nodeAt (fst (buildTreeIn false [file "__proto__/x"; file "children/x"]))
    ["children"] = None.
Proof. vm_compute. split; [done|split; [by eexists|done]]. Qed.

(** * The claims *)

(** ** C1: direction of a subtree toggle *)

(** C1, as stated, fails: the direction is not taken from the status of
    the node.  Directory ["src"] holds a selected FILE and a DIRECTORY
    without children, so its status is INDETERMINATE; every key of the map
    beneath ["src"] is [true], and toggling ["src"] writes [false], not
    [true], at the FILE. *)
Lemma C1_direction_ignores_status :
  let items := [file "src/a.ts"; dir "src/vendor"] in
  let selection := initialSelection items in
  ∃ node f,
    findNode "src" (buildTree items) = Some node ∧
    TreeNode.type node = tree ∧
    getSelectionStatus selection node = indeterminate ∧
    f ∈ fileNodes node ∧
    handleToggle (Some (buildTree items)) "src" false selection
      !! TreeNode.path f = Some false.
Proof.
  eexists _, _. split; [vm_compute; reflexivity|].
  split; [reflexivity|]. split; [vm_compute; reflexivity|].
  split; [left|vm_compute; reflexivity].
Qed.

(** The same with no key in the map: the status of ["src"] in the sample
    tree is UNCHECKED, and toggling it writes [false] at its files. *)
Example toggle_with_no_keys :
  ∃ node f,
    findNode "src" sampleTree = Some node ∧
    getSelectionStatus ∅ node = unchecked ∧
    f ∈ fileNodes node ∧
    handleToggle (Some sampleTree) "src" false ∅ !! TreeNode.path f
      = Some false.
Proof.
  eexists _, _. split; [vm_compute; reflexivity|].
  split; [vm_compute; reflexivity|].
  split; [left|vm_compute; reflexivity].
Qed.

(** C1 (amended): for every tree and selection map, [handleToggle] on a
    directory path present in the tree takes the direction from the keys
    of the map, not from the status: the target is [false] exactly when
    every key of the map that equals the path or starts with the path
    followed by '/' maps to [true] (vacuously so when there is none), and
    [true] otherwise.  Every descendant FILE's entry, at every depth
    beneath the node, is set to the target, and no other entry changes.
    When the subtree is proper (no DIRECTORY without children, no FILE with
    children) and the inspected keys are exactly the paths of its FILE
    nodes, this is the direction the status gives: [false] if it is CHECKED,
    [true] if it is UNCHECKED or INDETERMINATE. *)
Theorem C1_toggle_direction (tree : TreeNode.t) (selection : SelectionState)
    (path : string) (node : TreeNode.t) :
  findNode path tree = Some node →
  let target := negb (isCurrentlySelected selection path) in
  let result := handleToggle (Some tree) path false selection in
  (target = false ↔
     ∀ k v, selection !! k = Some v → under path k = true → v = true) ∧
  (∀ f, f ∈ fileNodes node → result !! TreeNode.path f = Some target) ∧
  (∀ k, k ∉ filePaths node → result !! k = selection !! k) ∧
  (properTree node = true → keysMatch selection path node →
   target = match getSelectionStatus selection node with
            | checked => false
            | unchecked | indeterminate => true
            end).
Proof.
  intros Hf target result. subst target result.
  rewrite (handleToggle_found _ _ _ _ Hf). repeat split.
  - intros H. apply isCurrentlySelected_true.
    by destruct (isCurrentlySelected selection path).
  - intros H. apply isCurrentlySelected_true in H. by rewrite H.
  - intros f Hin. rewrite lookup_writeAll, bool_decide_eq_true_2; [done|].
    apply elem_of_filePaths. eauto.
  - intros k Hk. by rewrite lookup_writeAll, bool_decide_eq_false_2.
  - intros Hp Hm. by apply target_from_status.
Qed.

(** C1 (amended) at the sample tree with everything beneath ["src"]
    selected: the status of ["src"] is CHECKED and every FILE beneath it is
    set to [false]. *)
Lemma C1_toggle_direction_witness :
  findNode "src" sampleTree = Some srcNode ∧
  getSelectionStatus sampleSelection srcNode = checked ∧
  negb (isCurrentlySelected sampleSelection "src") = false ∧
  ∀ f, f ∈ fileNodes srcNode →
       handleToggle (Some sampleTree) "src" false sampleSelection
         !! TreeNode.path f
       = Some (negb (isCurrentlySelected sampleSelection "src")).
Proof.
  assert (findNode "src" sampleTree = Some srcNode) as Hf by reflexivity.
  pose proof (C1_toggle_direction sampleTree sampleSelection "src" srcNode Hf)
    as (_ & Hset & _ & Hstatus).
  split; [exact Hf|]. split; [vm_compute; reflexivity|].
  split; [|exact Hset].
  rewrite (Hstatus eq_refl keysMatch_sample). vm_compute. reflexivity.
Defined.

(** ** C2: status of the root *)




(** ** C3: duplicate paths *)

(** C3, as stated, fails: when the same path is listed twice the node keeps
    what the first entry gave it.  Here ["a"] is listed as a file and then
    as a directory; the node at ["a"] does not carry the kind, identifier
    and contentRef of the second entry. *)
Lemma C3_second_entry_does_not_win :
  ¬ ∃ n, nodeAt (buildTree [file "a"; dir "a"]) (partsOf (dir "a")) = Some n ∧
         TreeNode.type n = GitHubItem.type (dir "a") ∧
         TreeNode.sha n = GitHubItem.sha (dir "a") ∧
         TreeNode.url n = GitHubItem.url (dir "a").
Proof.
  intros (n & Hn & Ht & _). vm_compute in Hn.
  injection Hn as <-. discriminate Ht.
Qed.

(** C3 (amended): for every entry list in which the same path occurs in
    two entries, [buildTree] raises no error (it is a total function) and
    the node at that path carries the kind, identifier and contentRef of
    the first of the two entries, provided no entry listed before it has a
    path that passes through that path (a node is never rewritten once it
    exists) and no segment of the path is, when that first entry is read,
    the name of a member found on [Object.prototype] (at such a segment
    the walk leaves the tree and creates no node).  This holds from any
    state of [Object.prototype] the code can have left. *)
Theorem C3_first_entry_wins (childrenInherited : bool)
    (l1 l2 l3 : list GitHubItem.t) (e1 e2 : GitHubItem.t) :
  GitHubItem.path e1 = GitHubItem.path e2 →
  Forall (λ e, isPrefix (partsOf e1) (partsOf e) = false) l1 →
  Forall (λ s, JS.inherited (snd (buildTreeIn childrenInherited l1)) s = false)
    (partsOf e1) →
  ∃ n, nodeAt (fst (buildTreeIn childrenInherited
                      (l1 ++ e1 :: l2 ++ e2 :: l3))) (partsOf e2) = Some n ∧
       TreeNode.path n = GitHubItem.path e1 ∧
       TreeNode.type n = GitHubItem.type e1 ∧
       TreeNode.sha n = GitHubItem.sha e1 ∧
       TreeNode.url n = GitHubItem.url e1.
Proof.
  intros Hpath Hl1 Hplain.
  assert (partsOf e2 = partsOf e1) as -> by (unfold partsOf; by rewrite Hpath).
  pose proof (partsOf_nonempty e1) as Hne.
  assert (nodeAt (fst (buildTreeIn childrenInherited l1)) (partsOf e1) = None)
    as Hnone.
  { destruct (nodeAt _ (partsOf e1)) as [m|] eqn:Hm; [exfalso|done].
    destruct (fromEntries_buildTreeIn childrenInherited l1 _ m Hne Hm)
      as (it & Hin & Hp & _).
    rewrite Forall_forall in Hl1. by rewrite (Hl1 it Hin) in Hp. }
  destruct (nodeAt_first_walk _ e1 _ (partsOf e1) Hne Hnone
              (isPrefix_refl _) Hplain) as (m & Hm & Hlabel).
  rewrite buildTreeIn_app. cbn [fold_left].
  destruct (label_nodeAt_fold (l2 ++ e2 :: l3) (partsOf e1)
              (addItem (buildTreeIn childrenInherited l1) e1) m Hm)
    as (n & Hn & Hl).
  exists n. split; [done|].
  rewrite Hlabel, label_createdAt in Hl by (done || apply isPrefix_refl).
  rewrite !bool_decide_eq_true_2 in Hl by done.
  apply label_eq in Hl as (_ & Hp & Ht & Hs & Hu).
  repeat split; try done.
  rewrite Hp. apply join_split.
Qed.

(** A witness of C3 (amended): ["a"] listed as a file and then as a
    directory, after an unrelated entry. *)
Lemma C3_first_entry_wins_witness :
  ∃ n, nodeAt (buildTree ([file "b"] ++ file "a" :: [] ++ dir "a" :: []))
         (partsOf (dir "a")) = Some n ∧
       TreeNode.path n = "a" ∧ TreeNode.type n = blob ∧
       TreeNode.sha n = "sha:a" ∧ TreeNode.url n = "url:a".
Proof.
  apply (C3_first_entry_wins false [file "b"] [] [] (file "a") (dir "a")).
  - reflexivity.
  - repeat constructor.
  - repeat constructor.
Defined.

(** ** C4: toggling twice *)

(** C4, as stated, fails: from a partial selection the first toggle
    selects everything and the second clears everything.  In the sample
    tree with only ["src/a.ts"] selected, toggling ["src"] twice leaves
    ["src/a.ts"] unselected. *)
Lemma C4_double_toggle_not_identity :
  let selection : SelectionState :=
    <["src/a.ts" := true]> (<["src/sub/b.ts" := false]> ∅) in
  handleToggle (Some sampleTree) "src" false
    (handleToggle (Some sampleTree) "src" false selection) ≠ selection.
Proof.
  intros selection H.
  apply (f_equal (λ m : SelectionState, m !! "src/a.ts")) in H.
  vm_compute in H. discriminate H.
Qed.

(** C4 (amended): for every tree, every selection map and every directory
    path present in the tree, if the keys of the map that equal the path
    or start with the path followed by '/' are exactly the paths of the
    FILE nodes beneath the node, and all of them carry the same value
    (everything beneath is selected, or nothing is), then applying
    [handleToggle] twice in a row yields the original map. *)
Theorem C4_double_toggle (tree : TreeNode.t) (selection : SelectionState)
    (path : string) (node : TreeNode.t) :
  findNode path tree = Some node →
  keysMatch selection path node →
  (∃ v, ∀ f, f ∈ fileNodes node → selection !! TreeNode.path f = Some v) →
  handleToggle (Some tree) path false
    (handleToggle (Some tree) path false selection) = selection.
Proof.
  intros Hf Hm [v Hv].
  rewrite !(handleToggle_found _ _ _ _ Hf).
  destruct (filePaths node) as [|k0 ks] eqn:Hks; [done|]. rewrite <- Hks.
  assert (filePaths node ≠ []) as Hne by (by rewrite Hks).
  assert (∀ k, k ∈ filePaths node → selection !! k = Some v) as Hv'.
  { intros k (f & Hin & <-)%elem_of_filePaths. by apply Hv. }
  rewrite (isCurrentlySelected_uniform selection path node v) by done.
  rewrite (isCurrentlySelected_uniform _ path node (negb v)).
  - rewrite negb_involutive. apply map_eq. intros k.
    rewrite !lookup_writeAll. case_bool_decide as Hk; [|done].
    symmetry. by apply Hv'.
  - by apply keysMatch_writeAll.
  - done.
  - intros k Hk. by rewrite lookup_writeAll, bool_decide_eq_true_2.
Qed.

(** C4 (amended) at the sample tree with everything beneath ["src"]
    selected. *)
Lemma C4_double_toggle_witness :
  handleToggle (Some sampleTree) "src" false
    (handleToggle (Some sampleTree) "src" false sampleSelection)
  = sampleSelection.
Proof.
  apply (C4_double_toggle sampleTree sampleSelection "src" srcNode).
  - reflexivity.
  - exact keysMatch_sample.
  - exists true. intros f Hf.
    let l := eval vm_compute in (fileNodes srcNode) in
    change (fileNodes srcNode) with l in Hf.
    apply elem_of_cons in Hf as [->|Hf]; [reflexivity|].
    apply list_elem_of_singleton in Hf as ->. reflexivity.
Defined.

(** ** C5: order of the exported files *)




(** ** C6: shape of the built tree *)

(** C6, as stated, fails when a FILE entry lies on the way to another
    entry: with ["a"] and ["a/b"] both listed as files, the proper prefix
    ["a"] of the listed FILE path ["a/b"] is a FILE node, and that FILE
    node has a child. *)
Lemma C6_file_on_the_way :
  let t := buildTree [file "a"; file "a/b"] in
  ¬ (∀ k, k < length (partsOf (file "a/b")) →
       ∃ d, nodeAt t (take k (partsOf (file "a/b"))) = Some d ∧
            TreeNode.type d = tree) ∧
  ¬ (∀ n, n ∈ allNodes t → TreeNode.type n = blob → TreeNode.kids n = []).
Proof.
  intros t. split.
  - intros H.
    assert (1 < length (partsOf (file "a/b"))) as Hlt by (simpl; lia).
    destruct (H 1 Hlt) as (d & Hd & Ht).
    vm_compute in Hd. injection Hd as <-. discriminate Ht.
  - intros H.
    assert (∃ n, nodeAt t ["a"] = Some n ∧ n ∈ allNodes t) as (n & Hn & Hin).
    { eexists. split; [reflexivity|]. right. left. }
    injection Hn as <-. discriminate (H _ Hin eq_refl).
Qed.

(** C6 (amended): for every entry list in which no FILE entry's path is a
    proper segment prefix of another entry's path, in the tree returned by
    [buildTree] every listed FILE path none of whose segments is the name
    of a member found on [Object.prototype] is reachable at exactly that
    path (the node's path equals the '/'-joined segments from the root to
    it); every proper prefix of such a path exists in the tree as a
    DIRECTORY node whose path is the '/'-joined prefix, synthesized with
    empty identifier and contentRef when no entry lists it; FILE nodes
    have no children; and no node is reached through a segment named like
    a member of [Object.prototype].  This holds from any state of
    [Object.prototype] the code can have left, the members found on it
    being those of the state the call leaves. *)
Theorem C6_built_tree_shape (childrenInherited : bool)
    (items : list GitHubItem.t) :
  wellNested items →
  let built := fst (buildTreeIn childrenInherited items) in
  let found := JS.inherited (snd (buildTreeIn childrenInherited items)) in
  (∀ e, e ∈ items → GitHubItem.type e = blob →
     Forall (λ s, found s = false) (partsOf e) →
     (∃ n, nodeAt built (partsOf e) = Some n ∧
           TreeNode.path n = GitHubItem.path e ∧
           TreeNode.path n = JS.join "/" (partsOf e)) ∧
     (∀ k, k < length (partsOf e) →
        ∃ d, nodeAt built (take k (partsOf e)) = Some d ∧
             TreeNode.type d = tree ∧
             TreeNode.path d = JS.join "/" (take k (partsOf e)) ∧
             ((∀ e', e' ∈ items → partsOf e' ≠ take k (partsOf e)) →
              TreeNode.sha d = "" ∧ TreeNode.url d = ""))) ∧
  (∀ n, n ∈ allNodes built →
     TreeNode.type n = blob → TreeNode.kids n = []) ∧
  (∀ ps n, nodeAt built ps = Some n → plainSegments ps).
Proof.
  intros Hwn built found. subst built found. split; [|split].
  - intros e He Hblob Hfound. split.
    + pose proof (partsOf_nonempty e) as Hne.
      destruct (partsOf e) as [|p r] eqn:Hparts; [done|].
      destruct (nodeAt_buildTreeIn_exists childrenInherited items e p r He)
        as [n Hn]; [rewrite Hparts; apply isPrefix_refl|done|].
      exists n. split; [done|].
      apply nodeAt_buildTreeIn_fields in Hn as (_ & _ & _ & _ & Hp & _).
      rewrite Hp, <- Hparts. split; [apply join_split|done].
    + intros k Hk. destruct k as [|k].
      { eexists. split; [done|]. pose proof (label_buildTreeIn childrenInherited items)
          as Hl.
        apply label_eq in Hl as (_ & Hp & Ht & Hs & Hu). simpl.
        by rewrite Hs, Hu. }
      pose proof (partsOf_nonempty e) as Hne.
      assert (∃ p r, take (S k) (partsOf e) = p :: r) as (p & r & Htk).
      { destruct (partsOf e); [done|]. simpl. eauto. }
      pose proof (isPrefix_take_self (partsOf e) (S k)) as Hpre.
      assert (length (take (S k) (partsOf e)) < length (partsOf e)) as Hlen.
      { rewrite length_take. lia. }
      pose proof (Forall_take _ (S k) _ Hfound) as Hfound'.
      rewrite Htk in *.
      destruct (nodeAt_buildTreeIn_exists childrenInherited items e p r He
                  Hpre Hfound') as [d Hd].
      exists d. split; [done|].
      apply nodeAt_buildTreeIn_fields in Hd
        as (e0 & Hin0 & Hp0 & _ & Hp & Ht & Hs & Hu).
      repeat split.
      * rewrite Ht. case_bool_decide as Heq; [|done].
        destruct (GitHubItem.type e0) eqn:Hty; [|done].
        pose proof (wellNested_elim items e0 e Hwn Hin0 He Hty) as Hnp.
        unfold isProperPrefix in Hnp. rewrite <- Heq, Hpre in Hnp.
        apply Nat.ltb_lt in Hlen. rewrite Hlen in Hnp. done.
      * done.
      * rewrite Hs. case_bool_decide as Heq; [|done].
        exfalso. by apply (H e0).
      * rewrite Hu. case_bool_decide as Heq; [|done].
        exfalso. by apply (H e0).
  - intros n Hnode Hblob.
    destruct (allNodes_nodeAt _ n (uniqueKeys_buildTreeIn childrenInherited
                                     items) Hnode) as [ps Hn].
    destruct ps as [|p r].
    { injection Hn as <-.
      pose proof (label_buildTreeIn childrenInherited items) as Hl.
      apply label_eq in Hl as (_ & _ & Ht & _).
      rewrite Hblob in Ht. discriminate Ht. }
    pose proof (nodeAt_buildTreeIn_fields _ _ _ _ _ Hn)
      as (it & Hin & Hp & _ & _ & Ht & _).
    rewrite Hblob in Ht. case_bool_decide as Heq; [|done].
    destruct (TreeNode.kids n) as [|[k c] cs] eqn:Hk; [done|]. exfalso.
    assert (nodeAt (fst (buildTreeIn childrenInherited items))
              ((p :: r) ++ [k]) = Some c) as Hc.
    { rewrite nodeAt_app, Hn. simpl. rewrite Hk, get_head. done. }
    apply nodeAt_buildTreeIn_fields in Hc as (it' & Hin' & Hp' & _).
    change (isPrefix ((p :: r) ++ [k]) (partsOf it') = true) in Hp'.
    pose proof (wellNested_elim items it it' Hwn Hin Hin' (eq_sym Ht)) as Hnp.
    unfold isProperPrefix in Hnp. rewrite <- Heq in Hnp.
    rewrite (isPrefix_app _ _ _ Hp') in Hnp.
    apply isPrefix_length in Hp'. rewrite length_app in Hp'. simpl in Hp'.
    assert (length (p :: r) < length (partsOf it')) as Hlt by (simpl; lia).
    apply Nat.ltb_lt in Hlt. rewrite Hlt in Hnp. done.
  - intros [|p r] n Hn; [constructor|].
    by apply nodeAt_buildTreeIn_fields in Hn as (_ & _ & _ & ? & _).
Qed.

(** C6 (amended) at the sample entry list: ["src/sub/b.ts"] is reached
    at its path. *)
Lemma C6_built_tree_shape_witness :
  wellNested sampleItems ∧
  (∃ n, nodeAt (buildTree sampleItems) (partsOf (file "src/sub/b.ts"))
          = Some n ∧
        TreeNode.path n = "src/sub/b.ts" ∧
        TreeNode.path n = JS.join "/" (partsOf (file "src/sub/b.ts"))) ∧
  ∀ n, n ∈ allNodes (buildTree sampleItems) →
       TreeNode.type n = blob → TreeNode.kids n = [].
Proof.
  assert (wellNested sampleItems) as H.
  { unfold wellNested, sampleItems.
    repeat (constructor; [intros _; repeat constructor|]). constructor. }
  destruct (C6_built_tree_shape false sampleItems H) as (Hfiles & Hkids & _).
  split; [exact H|]. split; [|exact Hkids].
  destruct (Hfiles (file "src/sub/b.ts")) as [Hn _].
  - right. left.
  - reflexivity.
  - vm_compute. repeat constructor.
  - exact Hn.
Defined.

(** ** C7: lines of the rendered tree *)

(** C7 fails on the code for a repository that has a directory named
    ["root"]: [buildAsciiIndex] takes every node of that name for the
    synthetic root, prints no line for it and prints its children without
    indentation.  The tree of the single entry ["root/a.txt"] has two nodes
    besides the synthetic root, and is rendered as one line. *)
Theorem C7_node_named_root_prints_no_line :
  let t := buildTree [file "root/a.txt"] in
  length (allNodes t) - 1 = 2 ∧
  renderTree t = "└── a.txt" +:+ newline ∧
  lineCount (renderTree t) = 1.
Proof. repeat split. Qed.

(** ** C8: the default selection *)

(** C8 fails on the code for a FILE whose path has no dot: [split('.')]
    then has a single piece, so [pop()] returns the whole path and the
    [|| ''] fallback never applies.  The root-level file ["go"] has no
    extension, and the empty extension is not in the allow-list, yet it
    is selected by default. *)
Theorem C8_dotless_path_taken_for_extension :
  JS.occurs "." "go" = false ∧
  has COMMON_EXTENSIONS "" = false ∧
  extensionOf "go" = "go" ∧
  initialSelection [file "go"] !! "go" = Some true.
Proof. repeat split. Qed.

(** ** C9: toggling a path that is not in the tree *)

(** C9: for every tree (or none yet), every selection map and every path
    carried by no node of the tree, [handleToggle] on that path as a
    directory returns the selection map it was given. *)
Theorem C9_toggle_absent_path (treeData : option TreeNode.t)
    (selection : SelectionState) (path : string) :
  (∀ t, treeData = Some t → Forall (λ n, TreeNode.path n ≠ path) (allNodes t)) →
  handleToggle treeData path false selection = selection.
Proof.
  intros H. unfold handleToggle. destruct treeData as [t|]; [|done].
  rewrite findAndToggle_findNode.
  assert (findNode path t = None) as ->; [|done].
  apply findNode_None. specialize (H t eq_refl).
  by rewrite Forall_forall in H.
Qed.

(** C9 at the sample tree: no node carries the path ["docs"]. *)
Lemma C9_toggle_absent_path_witness :
  handleToggle (Some sampleTree) "docs" false sampleSelection
  = sampleSelection.
Proof.
  apply (C9_toggle_absent_path (Some sampleTree) sampleSelection "docs").
  intros t [= <-].
  let l := eval vm_compute in (allNodes sampleTree) in
  change (allNodes sampleTree) with l.
  repeat constructor; discriminate.
Defined.

(** ** C10: records of the two output formats *)

(** C10: the items are formatted in sorted order, each of them once.  In
    Markdown mode the output is the header followed by one record per
    content item that is a text file or an image
    whose data URI is present (a defined, non-empty string: the code tests
    its truthiness); each such record starts with the heading
    ["### File: <path>"], and any other item (an image without data URI)
    adds nothing.  In plain mode the output is the header followed by one
    record per content item, text or not, each starting with the banner
    ["FILE: <path>"]. *)
Theorem C10_records_per_format (localeCompare : string → string → Z)
    (contents : list FileContent.t) (tree : TreeNode.t)
    (repoDetails : option RepoDetails.t) :
  let sorted := sortTreeItems localeCompare FileContent.path contents in
  let index := renderTree tree in
  sorted ≡ₚ contents ∧
  (∀ file,
     mdEmits file = true ↔
     FileContent.type file = text ∨
     (FileContent.type file = image ∧
      JS.truthyStr (FileContent.dataUrl file) = true)) ∧
  formatRepoOutput localeCompare contents tree md repoDetails =
    mdHeader index repoDetails +:+
    String.concat "" (map (mdStep "") (List.filter mdEmits sorted)) ∧
  (∀ file, mdEmits file = true →
     ∃ body, mdStep "" file =
             nl +:+ "### File: " +:+ FileContent.path file +:+ body) ∧
  (∀ file output, mdEmits file = false → mdStep output file = output) ∧
  formatRepoOutput localeCompare contents tree txt repoDetails =
    txtHeader index repoDetails +:+
    String.concat "" (map (txtStep "") sorted) ∧
  (∀ file,
     ∃ body, txtStep "" file =
             nl +:+ "---" +:+ nl +:+ "FILE: " +:+ FileContent.path file
               +:+ body).
Proof.
  intros sorted index. split; [|split; [|split; [|split; [|split; [|split]]]]].
  - apply sortTreeItems_perm.
  - intros f. unfold mdEmits. split.
    + destruct (FileContent.type f); [by left|]. intros H. by right.
    + intros [->|[-> H]]; done.
  - unfold formatRepoOutput. fold sorted index.
    rewrite (fold_left_append mdStep mdStep_append).
    by rewrite (concat_map_filter _ mdEmits sorted mdStep_omitted).
  - intros file. unfold mdEmits, mdStep.
    destruct (FileContent.type file); simpl.
    + intros _. eexists. reflexivity.
    + intros ->. eexists. reflexivity.
  - intros file output H.
    by rewrite mdStep_append, (mdStep_omitted _ H), append_nil_r.
  - unfold formatRepoOutput. fold sorted index.
    by rewrite (fold_left_append txtStep txtStep_append).
  - intros file. unfold txtStep.
    destruct (ContentType_eqb (FileContent.type file) text);
      eexists; reflexivity.
Qed.

(** C10 at a text file, an image with its data URI and an image without:
    the last one has a record in plain mode only. *)
Lemma C10_records_per_format_witness :
  (∃ body, mdStep "" notesFile = nl +:+ "### File: notes.md" +:+ body) ∧
  (∃ body, mdStep "" logoFile = nl +:+ "### File: logo.png" +:+ body) ∧
  (∀ output, mdStep output brokenImage = output) ∧
  (∃ body, txtStep "" brokenImage =
           nl +:+ "---" +:+ nl +:+ "FILE: lost.png" +:+ body).
Proof.
  destruct (C10_records_per_format ordinalCompare
              [notesFile; logoFile; brokenImage] sampleTree None)
    as (_ & _ & _ & Hmd & Hskip & _ & Htxt).
  split; [apply (Hmd notesFile); reflexivity|].
  split; [apply (Hmd logoFile); reflexivity|].
  split; [intros output; apply (Hskip brokenImage); reflexivity|].
  apply (Htxt brokenImage).
Defined.

(** * Further properties of the code *)

(** ** buildTree: the nodes of the tree *)

Lemma nodeAt_buildTreeIn_name b items p r n :
  nodeAt (fst (buildTreeIn b items)) (p :: r) = Some n →
  Some (TreeNode.name n) = last (p :: r).
Proof.
  intros Hn.
  destruct (fromEntries_buildTreeIn b items (p :: r) n ltac:(done) Hn)
    as (it & _ & Hp & _ & H).
  rewrite label_createdAt in H by done.
  apply label_eq in H as (Hname & _). rewrite Hname.
  by destruct (last (p :: r)) eqn:E; [|apply last_None in E].
Qed.

Lemma nodeAt_buildTree_name items p r n :
  nodeAt (buildTree items) (p :: r) = Some n →
  Some (TreeNode.name n) = last (p :: r).
Proof. apply nodeAt_buildTreeIn_name. Qed.

(** X1: the nodes of the built tree.  A node below the root lies on the
    path of an entry, at segments none of which is the name of a member
    of [Object.prototype]; its name is the last segment and its path the
    '/'-joined segments.  A non-empty segment prefix of the path of an
    entry is a node when none of its segments is found on
    [Object.prototype] in the state the call leaves, which is the state
    it started from with [children] added if some path goes on after a
    segment [__proto__].  Every node of the tree is reached from the root
    by its segments.  So for a list of plain paths, from the standard
    [Object.prototype], the nodes below the root are exactly the
    non-empty segment prefixes of the listed paths. *)
Theorem X1_nodes_are_entry_prefixes (childrenInherited : bool)
    (items : list GitHubItem.t) :
  let built := fst (buildTreeIn childrenInherited items) in
  let left := snd (buildTreeIn childrenInherited items) in
  (∀ p r n, nodeAt built (p :: r) = Some n →
     (∃ e, e ∈ items ∧ isPrefix (p :: r) (partsOf e) = true) ∧
     plainSegments (p :: r) ∧
     Some (TreeNode.name n) = last (p :: r) ∧
     TreeNode.path n = JS.join "/" (p :: r)) ∧
  (∀ e p r, e ∈ items → isPrefix (p :: r) (partsOf e) = true →
     Forall (λ s, JS.inherited left s = false) (p :: r) →
     is_Some (nodeAt built (p :: r))) ∧
  left = childrenInherited
         || existsb (λ it, reachesPrototype (partsOf it)) items ∧
  (∀ n, n ∈ allNodes built → ∃ ps, nodeAt built ps = Some n) ∧
  (plainPaths items →
   ∀ p r, is_Some (nodeAt (buildTree items) (p :: r)) ↔
          ∃ e, e ∈ items ∧ isPrefix (p :: r) (partsOf e) = true).
Proof.
  intros built left. subst built left. split; [|split; [|split; [|split]]].
  - intros p r n Hn. split; [|split; [|split]].
    + apply nodeAt_buildTreeIn_fields in Hn as (e & He & Hp & _). eauto.
    + by apply nodeAt_buildTreeIn_fields in Hn as (_ & _ & _ & ? & _).
    + by apply (nodeAt_buildTreeIn_name childrenInherited items).
    + by apply nodeAt_buildTreeIn_fields in Hn as (_ & _ & _ & _ & ? & _).
  - intros e p r He Hp Hplain.
    destruct (nodeAt_buildTreeIn_exists childrenInherited items e p r
                He Hp Hplain) as [n Hn]. eauto.
  - unfold buildTreeIn. by rewrite flag_fold.
  - intros n Hn. apply allNodes_nodeAt; [apply uniqueKeys_buildTreeIn|done].
  - intros Hplain p r. split.
    + intros [n Hn].
      apply nodeAt_buildTree_fields in Hn as (e & He & Hp & _). eauto.
    + intros (e & He & Hp).
      destruct (nodeAt_buildTree_exists items e p r Hplain He Hp) as [n Hn].
      eauto.
Qed.

(** X1 on the sample list: ["src/sub"], which no entry lists, is a
    node. *)
Lemma X1_nodes_are_entry_prefixes_witness :
  is_Some (nodeAt (buildTree sampleItems) ["src"; "sub"]).
Proof.
  destruct (X1_nodes_are_entry_prefixes false sampleItems)
    as (_ & _ & _ & _ & H).
  apply H.
  - intros e He. unfold sampleItems in He.
    repeat (apply elem_of_cons in He as [->|He];
            [vm_compute; repeat constructor|]).
    by apply elem_of_nil in He.
  - exists (file "src/sub/b.ts"). split; [solve_elem|reflexivity].
Defined.

Lemma replace_same {A} (o : Obj.t A) k v :
  Obj.get k o = Some v → Obj.replace k v o = o.
Proof.
  induction o as [|[k0 v0] o IH]; simpl; [done|].
  destruct (String.eqb_spec k k0) as [->|Hne].
  - by intros [= ->].
  - intros H. by rewrite IH.
Qed.

Lemma set_same {A} (o : Obj.t A) k v : Obj.get k o = Some v → Obj.set k v o = o.
Proof. intros H. unfold Obj.set. rewrite H. by apply replace_same. Qed.

Lemma setChildren_kids n :
  TreeNode.kids n ≠ [] → TreeNode.setChildren n (TreeNode.kids n) = n.
Proof. destruct n as [? ? ? ? ? [cs|]]; [done|]. by intros []. Qed.

(** A walk that finds a node at every part until it leaves the tree
    changes nothing. *)
Lemma walk_stable b item parts : ∀ rest index current,
  (∀ ps, ps ≠ [] → isPrefix ps rest = true →
         is_Some (nodeAt current ps) ∨ blocked b current ps) →
  walk b item parts rest index current = current.
Proof.
  induction rest as [|part rest' IH]; intros index current H; [done|].
  cbn [walk].
  destruct (Obj.get part (TreeNode.kids current)) as [c|] eqn:Hc.
  - rewrite (IH (S index) c), (set_same _ _ _ Hc).
    + apply setChildren_kids. intros Hk. by rewrite Hk in Hc.
    + intros ps Hne Hp.
      destruct (H (part :: ps)) as [Hs|(pre & s & post & Heq & Hn & Hi)];
        [done|simpl; by rewrite String.eqb_refl| |].
      * left. simpl in Hs. by rewrite Hc in Hs.
      * right. destruct pre as [|q pre]; injection Heq as <- Heq.
        -- simpl in Hn. by rewrite Hc in Hn.
        -- exists pre, s, post. split; [done|]. split; [|done].
           simpl in Hn. by rewrite Hc in Hn.
  - destruct (H [part]) as [Hs|(pre & s & post & Heq & Hn & Hi)];
      [done|simpl; by rewrite String.eqb_refl| |].
    + simpl in Hs. rewrite Hc in Hs. by destruct Hs.
    + destruct pre as [|q pre]; injection Heq as <- Heq.
      * by rewrite Hi.
      * by destruct pre.
Qed.

Lemma reachesPrototype_prefix : ∀ ps l,
  isPrefix ps l = true → reachesPrototype ps = true →
  reachesPrototype l = true.
Proof.
  unfold reachesPrototype.
  induction ps as [|a ps IH]; intros [|x l]; try done.
  cbn [isPrefix]. intros [->%String.eqb_eq Hp]%andb_prop.
  destruct ps as [|a' ps]; [done|]. destruct l as [|x' l]; [done|].
  change (removelast (x :: a' :: ps)) with (x :: removelast (a' :: ps)).
  change (removelast (x :: x' :: l)) with (x :: removelast (x' :: l)).
  cbn [existsb]. intros [->|H]%orb_true_iff; [done|].
  rewrite (IH (x' :: l) Hp H). apply orb_true_r.
Qed.

(** X2: listing a path that the entries before it already passed through
    (a directory after one of its files, or a path a second time, whatever
    kind and identifier the later entry carries) changes nothing: the tree
    is the one built without that entry. *)
Theorem X2_relisting_changes_nothing (items more : list GitHubItem.t)
    (e e' : GitHubItem.t) :
  e' ∈ items → isPrefix (partsOf e) (partsOf e') = true →
  buildTree (items ++ e :: more) = buildTree (items ++ more).
Proof.
  intros He' Hp. unfold buildTree. rewrite !buildTreeIn_app.
  cbn [fold_left]. do 2 f_equal.
  pose proof (walkedThrough_buildTreeIn false items) as Hw.
  pose proof (flag_fold items (rootNode, false)) as Hflag.
  fold (buildTreeIn false items) in Hflag.
  destruct (buildTreeIn false items) as [t b]. cbn [fst snd] in *.
  unfold addItem. cbn [fst snd]. fold (partsOf e). f_equal.
  - apply walk_stable. intros ps Hne Hps.
    apply (Hw e' ps He' Hne). by apply (isPrefix_trans _ _ _ Hps).
  - destruct (reachesPrototype (partsOf e)) eqn:Hr; [|apply orb_false_r].
    rewrite orb_true_r, Hflag. symmetry. apply existsb_exists.
    exists e'. split; [by apply list_elem_of_In|].
    by apply (reachesPrototype_prefix _ _ Hp).
Qed.

(** X2 at the sample list: listing directory ["src"] after its files. *)
Lemma X2_relisting_changes_nothing_witness :
  buildTree (sampleItems ++ dir "src" :: []) = buildTree (sampleItems ++ []).
Proof.
  apply (X2_relisting_changes_nothing sampleItems [] (dir "src")
           (file "src/a.ts")).
  - left.
  - reflexivity.
Defined.

(** X3: in a built tree a path other than the empty one names a single
    node, and the search by path that [handleToggle] runs returns it. *)
Theorem X3_path_names_one_node (items : list GitHubItem.t) (n : TreeNode.t) :
  n ∈ allNodes (buildTree items) → TreeNode.path n ≠ "" →
  findNode (TreeNode.path n) (buildTree items) = Some n ∧
  ∀ m, m ∈ allNodes (buildTree items) →
       TreeNode.path m = TreeNode.path n → m = n.
Proof.
  intros Hn Hne.
  assert (∃ p r, nodeAt (buildTree items) (p :: r) = Some n) as (p & r & Hat).
  { destruct (allNodes_nodeAt _ n (uniqueKeys_buildTree items) Hn)
      as [[|p r] Hps]; [|eauto].
    injection Hps as <-. pose proof (label_buildTree items) as Hl.
    apply label_eq in Hl as (_ & Hroot & _). by destruct Hne. }
  pose proof (nodeAt_buildTree_fields _ _ _ _ Hat)
    as (it & _ & _ & _ & Hp & _).
  assert (findNode (TreeNode.path n) (buildTree items) = Some n) as Hfind.
  { rewrite Hp. apply findNode_after_fetch; [done|]. by rewrite <- Hp. }
  split; [done|]. intros m Hm Hpm.
  destruct (allNodes_nodeAt _ m (uniqueKeys_buildTree items) Hm)
    as [[|q qs] Hqs].
  - injection Hqs as <-. pose proof (label_buildTree items) as Hl.
    apply label_eq in Hl as (_ & Hroot & _). simpl in Hroot. congruence.
  - pose proof (nodeAt_buildTree_fields _ _ _ _ Hqs)
      as (it' & _ & _ & _ & Hq & _).
    assert (q :: qs = p :: r) as Heq.
    { rewrite <- (split_join "/" (q :: qs)), <- (split_join "/" (p :: r));
        [congruence|by eapply nodeAt_segments..]. }
    rewrite Heq in Hqs. congruence.
Qed.

(** X3 at directory ["src"] of the sample tree. *)
Lemma X3_path_names_one_node_witness :
  findNode (TreeNode.path srcNode) (buildTree sampleItems) = Some srcNode ∧
  ∀ m, m ∈ allNodes (buildTree sampleItems) →
       TreeNode.path m = TreeNode.path srcNode → m = srcNode.
Proof.
  apply (X3_path_names_one_node sampleItems srcNode).
  - right. left.
  - discriminate.
Defined.

(** ** FileTree.tsx on built trees *)

Lemma childrenDefined_extend item parts rest : ∀ index current,
  (∀ m, m ∈ allNodes current → is_Some (TreeNode.children m)) →
  ∀ m, m ∈ allNodes (extend item parts rest index current) →
       is_Some (TreeNode.children m).
Proof.
  induction rest as [|part rest' IH]; intros index current Hd; [done|].
  cbn [extend]. set (cs := TreeNode.kids current).
  set (child := match Obj.get part cs with
                | Some c => c
                | None => newNode item parts index part
                end).
  assert (∀ m, m ∈ allNodes child → is_Some (TreeNode.children m)) as Hchild.
  { subst child. destruct (Obj.get part cs) as [c|] eqn:Hc.
    - intros m Hm. apply Hd, allNodes_kids. right. exists (part, c).
      split; [by apply get_elem|done].
    - intros m ->%list_elem_of_singleton. by eexists. }
  intros m [->|(kc & Hkc & Hm)]%allNodes_kids; [by eexists|].
  rewrite kids_setChildren in Hkc.
  apply elem_of_set in Hkc as [->|Hkc].
  - by apply (IH (S index) child Hchild).
  - apply Hd, allNodes_kids. right. eauto.
Qed.

(** Every node of a built tree has its [children] object. *)
Lemma childrenDefined_buildTree items m :
  m ∈ allNodes (buildTree items) → is_Some (TreeNode.children m).
Proof.
  unfold buildTree, buildTreeIn.
  assert (∀ m, m ∈ allNodes (fst (rootNode, false)) →
               is_Some (TreeNode.children m)) as Hroot.
  { intros ? ->%list_elem_of_singleton. by eexists. }
  revert m Hroot. generalize (rootNode, false).
  induction items as [|it items IH]; intros state m Hs; [by apply Hs|].
  cbn [fold_left]. apply IH. unfold addItem. cbn [fst].
  rewrite walk_extend. by apply childrenDefined_extend.
Qed.

(** In a built tree a child is filed under its own name. *)
Lemma child_key_is_name items n kc :
  n ∈ allNodes (buildTree items) → kc ∈ TreeNode.kids n →
  fst kc = TreeNode.name (snd kc).
Proof.
  intros Hn Hkc.
  destruct (allNodes_nodeAt _ n (uniqueKeys_buildTree items) Hn) as [ps Hps].
  assert (nodeAt (buildTree items) (ps ++ [fst kc]) = Some (snd kc)) as Hc.
  { rewrite nodeAt_app, Hps. simpl.
    rewrite (elem_get _ (fst kc) (snd kc)); [done| |by destruct kc].
    by apply (uniqueKeys_buildTree items). }
  assert (∃ p r, ps ++ [fst kc] = p :: r) as (p & r & Heq)
    by (destruct ps; simpl; eauto).
  rewrite Heq in Hc. apply nodeAt_buildTree_name in Hc.
  rewrite <- Heq, last_snoc in Hc. congruence.
Qed.

(** X4: in the tree browser the children of a built tree are ordered by
    name only.  [buildTree] gives every node, FILE or DIRECTORY, a
    [children] object, which the comparator of [sortedChildren] takes for
    the mark of a directory; so its directories-first rule never applies
    and it returns the locale comparison of the two names. *)
Theorem X4_browser_orders_by_name_only (localeCompare : string → string → Z)
    (items : list GitHubItem.t) (n : TreeNode.t) (a b : string * TreeNode.t) :
  n ∈ allNodes (buildTree items) →
  a ∈ TreeNode.kids n → b ∈ TreeNode.kids n →
  FileTree.sortsAsDirectory (snd a) = true ∧
  FileTree.sortsAsDirectory (snd b) = true ∧
  FileTree.compareEntries localeCompare a b =
    localeCompare (TreeNode.name (snd a)) (TreeNode.name (snd b)).
Proof.
  intros Hn Ha Hb.
  assert (∀ kc, kc ∈ TreeNode.kids n →
                FileTree.sortsAsDirectory (snd kc) = true) as Hdir.
  { intros kc Hkc. unfold FileTree.sortsAsDirectory.
    destruct (childrenDefined_buildTree items (snd kc)) as [cs ->].
    - apply (allNodes_trans _ n); [|done]. apply allNodes_kids. right.
      exists kc. split; [done|]. apply allNodes_kids. by left.
    - apply orb_true_r. }
  split; [by apply Hdir|]. split; [by apply Hdir|].
  unfold FileTree.compareEntries. rewrite (Hdir a Ha), (Hdir b Hb). simpl.
  by rewrite (child_key_is_name items n a), (child_key_is_name items n b).
Qed.

(** X4 at the root of the sample tree: FILE ["README.md"] against
    DIRECTORY ["src"]. *)
Lemma X4_browser_orders_by_name_only_witness :
  FileTree.sortsAsDirectory readmeNode = true ∧
  FileTree.sortsAsDirectory srcNode = true ∧
  FileTree.compareEntries ordinalCompare ("README.md", readmeNode)
    ("src", srcNode) = ordinalCompare "README.md" "src".
Proof.
  apply (X4_browser_orders_by_name_only ordinalCompare sampleItems
           (buildTree sampleItems) ("README.md", readmeNode) ("src", srcNode)).
  - left.
  - right. left.
  - left.
Defined.

(** ** getSelectionStatus and handleToggle: what a click changes *)

Lemma forallb_decide {A} (P : A → Prop) `{∀ x, Decision (P x)} (l : list A) :
  forallb (λ x, bool_decide (P x)) l = true → ∀ x, x ∈ l → P x.
Proof.
  rewrite forallb_forall. intros Hall x Hx%list_elem_of_In.
  apply (bool_decide_eq_true_1 (P x)). by apply Hall.
Qed.

Lemma fileNodes_child n kc f :
  kc ∈ TreeNode.kids n → f ∈ fileNodes (snd kc) → f ∈ fileNodes n.
Proof.
  intros Hkc Hf. rewrite fileNodes_unfold. apply elem_of_app. right.
  apply elem_of_concat_map. eauto.
Qed.

Lemma status_frame (a b : SelectionState) : ∀ n,
  (∀ f, f ∈ fileNodes n →
        JS.truthy (a !! TreeNode.path f) = JS.truthy (b !! TreeNode.path f)) →
  getSelectionStatus a n = getSelectionStatus b n.
Proof.
  induction n as [n IH] using TreeNode_ind_kids. intros H.
  destruct (TreeNode.type n) eqn:Hty.
  - rewrite !status_blob by done. rewrite (H n); [done|].
    rewrite fileNodes_unfold, Hty. by left.
  - destruct (TreeNode.children n) as [cs|] eqn:Hch.
    + pose proof (kids_Some _ _ Hch) as Hk.
      destruct (decide (cs = [])) as [->|Hne].
      { by rewrite !status_no_children. }
      rewrite !(status_tree_unfold _ n cs) by done. cbv zeta.
      assert (map (λ kc, getSelectionStatus a (snd kc)) cs =
              map (λ kc, getSelectionStatus b (snd kc)) cs) as ->; [|done].
      rewrite Hk in IH. apply map_ext_in. intros kc Hkc%list_elem_of_In.
      rewrite Forall_forall in IH. apply (IH kc Hkc).
      intros f Hf. apply H. apply (fileNodes_child n kc); [by rewrite Hk|done].
    + by rewrite !status_no_children by (done || by apply kids_None).
Qed.

Lemma status_nothing_selected : ∀ n, getSelectionStatus ∅ n = unchecked.
Proof.
  induction n as [n IH] using TreeNode_ind_kids.
  destruct (TreeNode.type n) eqn:Hty.
  - by rewrite status_blob.
  - destruct (TreeNode.children n) as [cs|] eqn:Hch.
    + pose proof (kids_Some _ _ Hch) as Hk.
      destruct (decide (cs = [])) as [->|Hne].
      { by rewrite status_no_children. }
      rewrite (status_tree_unfold _ n cs) by done. cbv zeta.
      rewrite Hk, Forall_forall in IH.
      assert (forallb (λ s, Status_eqb s unchecked)
                (map (λ kc, getSelectionStatus ∅ (snd kc)) cs) = true) as ->
        by (by apply forallb_status).
      destruct cs as [|kc cs]; [done|]. simpl.
      rewrite (IH kc) by (by left). done.
    + by rewrite status_no_children by (done || by apply kids_None).
Qed.

(** With no FILE beneath it selected, a node is UNCHECKED, whatever its
    shape. *)
Lemma status_all_unselected (selection : SelectionState) n :
  (∀ f, f ∈ fileNodes n → JS.truthy (selection !! TreeNode.path f) = false) →
  getSelectionStatus selection n = unchecked.
Proof.
  intros H. rewrite <- (status_nothing_selected n). apply status_frame.
  intros f Hf. by rewrite (H f Hf), lookup_empty.
Qed.



(** X6: a click on a directory's box settles its status.  When
    [handleToggle] finds the directory, it leaves the node UNCHECKED if
    every inspected key was selected, whatever the shape of the subtree;
    and otherwise CHECKED, provided every directory beneath has a child
    and no file has any.  In a proper subtree the status is never
    INDETERMINATE after the click. *)
Theorem X6_toggle_settles_status (tree : TreeNode.t)
    (selection : SelectionState) (path : string) (node : TreeNode.t) :
  findNode path tree = Some node →
  let after := handleToggle (Some tree) path false selection in
  (isCurrentlySelected selection path = true →
   getSelectionStatus after node = unchecked) ∧
  (isCurrentlySelected selection path = false → properTree node = true →
   getSelectionStatus after node = checked) ∧
  (properTree node = true → getSelectionStatus after node ≠ indeterminate).
Proof.
  intros Hf after.
  assert (∀ f, f ∈ fileNodes node →
            after !! TreeNode.path f =
            Some (negb (isCurrentlySelected selection path))) as Hset.
  { intros f Hin. subst after.
    rewrite (handleToggle_found _ _ _ _ Hf), lookup_writeAll.
    rewrite bool_decide_eq_true_2; [done|]. apply elem_of_filePaths. eauto. }
  assert (isCurrentlySelected selection path = true →
          getSelectionStatus after node = unchecked) as Hoff.
  { intros Hics. apply status_all_unselected. intros f Hin.
    by rewrite (Hset f Hin), Hics. }
  assert (isCurrentlySelected selection path = false →
          properTree node = true →
          getSelectionStatus after node = checked) as Hon.
  { intros Hics Hp. apply (status_proper after node Hp). intros f Hin.
    by rewrite (Hset f Hin), Hics. }
  split; [done|]. split; [done|]. intros Hp.
  destruct (isCurrentlySelected selection path) eqn:Hics.
  - by rewrite Hoff.
  - by rewrite Hon.
Qed.

(** X6 on the sample: everything beneath ["src"] is selected, the click
    leaves it UNCHECKED. *)
Lemma X6_toggle_settles_status_witness :
  getSelectionStatus (handleToggle (Some sampleTree) "src" false
                        sampleSelection) srcNode = unchecked.
Proof.
  pose proof (X6_toggle_settles_status sampleTree sampleSelection "src" srcNode
                eq_refl) as (Hoff & _).
  apply Hoff. vm_compute. reflexivity.
Defined.

(** X7: a click on a directory's box leaves the status of every subtree
    that shares no FILE path with it as it was. *)
Theorem X7_toggle_elsewhere_keeps_status (tree : TreeNode.t)
    (selection : SelectionState) (path : string) (node m : TreeNode.t) :
  findNode path tree = Some node →
  (∀ f, f ∈ fileNodes m → TreeNode.path f ∉ filePaths node) →
  getSelectionStatus (handleToggle (Some tree) path false selection) m =
  getSelectionStatus selection m.
Proof.
  intros Hf Hdisj. apply status_frame. intros f Hin.
  rewrite (handleToggle_found _ _ _ _ Hf), lookup_writeAll.
  by rewrite bool_decide_eq_false_2 by (by apply Hdisj).
Qed.

(** X7 on the sample: the click on ["src"] leaves ["README.md"] as it
    was. *)
Lemma X7_toggle_elsewhere_keeps_status_witness :
  getSelectionStatus (handleToggle (Some sampleTree) "src" false
                        sampleSelection) readmeNode =
  getSelectionStatus sampleSelection readmeNode.
Proof.
  apply (X7_toggle_elsewhere_keeps_status sampleTree sampleSelection "src"
           srcNode readmeNode eq_refl).
  apply (forallb_decide (λ f, TreeNode.path f ∉ filePaths srcNode)).
  vm_compute. reflexivity.
Defined.

(** X8: the click on a file's box ([isFile] true) reads and writes the
    selection at a key the caller chooses.  The result does not depend on
    the tree (not even on there being one), no other key changes, and the
    status of every subtree that holds no FILE with that path is as
    before.  For a path other than [__proto__] the key gets the negation
    of what [prev[path]] is: of the own value, or, without an own key, of
    the member of that name [Object.prototype] has by the standard
    (truthy) or of [undefined].  So on an own key the status of a FILE
    with that path flips and a second click restores the map; on a path
    that is no key and no name of [Object.prototype] the status flips as
    well and two clicks leave the key behind with [false]; on a name of
    [Object.prototype] that is no key the first click writes [false] and
    the second [true]; and [__proto__], when no key, is never written. *)
Theorem X8_file_toggle (treeData treeData' : option TreeNode.t)
    (path : string) (prev : SelectionState) :
  let after := handleToggle treeData path true prev in
  let again := handleToggle treeData' path true after in
  after = handleToggle treeData' path true prev ∧
  (∀ k, k ≠ path → after !! k = prev !! k) ∧
  (∀ m, path ∉ filePaths m →
        getSelectionStatus after m = getSelectionStatus prev m) ∧
  (path ≠ "__proto__" →
   after = <[path := negb (JS.truthyAt prev path)]> prev ∧
   (is_Some (prev !! path) ∨ JS.inherited false path = false →
    ∀ n, TreeNode.type n = blob → TreeNode.path n = path →
         getSelectionStatus after n =
         match getSelectionStatus prev n with
         | checked => unchecked
         | unchecked | indeterminate => checked
         end) ∧
   (is_Some (prev !! path) → again = prev) ∧
   (prev !! path = None →
    again = <[path := JS.inherited false path]> prev)) ∧
  (path = "__proto__" → prev !! path = None → after = prev ∧ again = prev).
Proof.
  intros after again. subst again after. unfold handleToggle.
  split; [done|]. split; [|split; [|split]].
  - intros k Hk. by apply lookup_assign_ne.
  - intros m Hm. apply status_frame. intros f Hin.
    rewrite lookup_assign_ne; [done|]. intros Heq. apply Hm.
    apply elem_of_filePaths. eauto.
  - intros Hne. rewrite !assign_insert by done. split; [done|].
    split; [|split].
    + intros Hown n Hty <-. rewrite !status_blob by done.
      rewrite lookup_insert_eq.
      assert (JS.truthyAt prev (TreeNode.path n) =
              JS.truthy (prev !! TreeNode.path n)) as ->.
      { destruct Hown as [Hown|Hplain];
          [by apply truthyAt_is_Some|by apply truthyAt_plain]. }
      simpl. by destruct (JS.truthy (prev !! TreeNode.path n)).
    + intros [v Hv]. unfold JS.truthyAt at 1.
      rewrite lookup_insert_eq, insert_insert_eq.
      rewrite (truthyAt_own _ _ _ Hv), negb_involutive. by apply insert_id.
    + intros Hnone. unfold JS.truthyAt.
      rewrite lookup_insert_eq, insert_insert_eq, Hnone.
      by rewrite negb_involutive.
  - intros -> Hnone. by rewrite !assign_proto.
Qed.

(** X8 at the name ["toString"] on the empty selection: the first click
    writes [false], the second [true]. *)
Lemma X8_file_toggle_witness :
  handleToggle None "toString" true (∅ : SelectionState)
    = <["toString" := false]> ∅ ∧
  handleToggle (Some sampleTree) "toString" true
    (handleToggle None "toString" true (∅ : SelectionState))
    = <["toString" := true]> ∅.
Proof.
  destruct (X8_file_toggle None (Some sampleTree) "toString" ∅)
    as (_ & _ & _ & H & _).
  destruct H as (Hafter & _ & _ & Hagain); [done|].
  split; [exact Hafter|by apply Hagain].
Defined.

Lemma findNode_own_path items n :
  n ∈ allNodes (buildTree items) → TreeNode.path n ≠ "" →
  findNode (TreeNode.path n) (buildTree items) = Some n.
Proof.
  intros Hn Hne.
  assert (∃ p r, nodeAt (buildTree items) (p :: r) = Some n) as (p & r & Hat).
  { destruct (allNodes_nodeAt _ n (uniqueKeys_buildTree items) Hn)
      as [[|p r] Hps]; [|eauto].
    injection Hps as <-. pose proof (label_buildTree items) as Hl.
    apply label_eq in Hl as (_ & Hroot & _). by destruct Hne. }
  pose proof (nodeAt_buildTree_fields _ _ _ _ Hat)
    as (it & _ & _ & _ & Hp & _).
  rewrite Hp. apply findNode_after_fetch; [done|]. by rewrite <- Hp.
Qed.

Lemma inherited_no_slash k :
  JS.inherited false k = true → JS.occurs "/" k = false.
Proof.
  unfold JS.inherited. rewrite orb_false_r.
  intros (x & Hin & Hx%String.eqb_eq)%existsb_exists. subst x.
  unfold JS.prototypeNames in Hin. simpl in Hin.
  repeat (destruct Hin as [<-|Hin]; [reflexivity|]). done.
Qed.

(** The path of a node of a built tree is no name of a member of
    [Object.prototype]. *)
Lemma node_path_plain items n :
  n ∈ allNodes (buildTree items) → JS.inherited false (TreeNode.path n) = false.
Proof.
  intros Hn.
  destruct (allNodes_nodeAt _ n (uniqueKeys_buildTree items) Hn)
    as [[|p r] Hps].
  - injection Hps as <-. pose proof (label_buildTree items) as Hl.
    apply label_eq in Hl as (_ & -> & _). done.
  - pose proof (nodeAt_buildTree_fields _ _ _ _ Hps)
      as (it & _ & _ & Hplain & -> & _).
    destruct r as [|q r]; [by apply Forall_inv in Hplain|].
    destruct (JS.inherited false (JS.join "/" (p :: q :: r))) eqn:E; [|done].
    apply inherited_no_slash in E.
    change (p :: q :: r) with ([p] ++ q :: r) in E.
    rewrite join_app in E by done. rewrite !occurs_append in E.
    simpl in E. by rewrite orb_true_r in E.
Qed.

Lemma isDirectory_false n :
  FileTree.isDirectory n = false → fileNodes n = [n].
Proof.
  unfold FileTree.isDirectory. intros [Hty Hch]%orb_false_elim.
  rewrite fileNodes_unfold.
  destruct (TreeNode.type n); [|done].
  assert (TreeNode.kids n = []) as ->; [|done].
  unfold TreeNode.kids. destruct (TreeNode.children n) as [[|kc cs]|]; done.
Qed.



(** ** The expanded rows: handleToggleExpand and the first expansion *)

Lemma elem_of_handleToggleExpand path prev q :
  q ∈ handleToggleExpand path prev ↔
  if decide (q = path) then q ∉ prev else q ∈ prev.
Proof.
  unfold handleToggleExpand, has. cbv zeta.
  case_bool_decide as Hin; destruct (decide (q = path)) as [->|Hne].
  - rewrite elem_of_difference, elem_of_singleton. split; [by intros [_ ?]|done].
  - rewrite elem_of_difference, elem_of_singleton. split; [by intros [? _]|done].
  - rewrite elem_of_union, elem_of_singleton. split; [done|by right].
  - rewrite elem_of_union, elem_of_singleton. split; [by intros [?|?]|by left].
Qed.

(** X10: expanding and collapsing.  [handleToggleExpand] changes the
    membership of its path and of no other; applied twice it gives back
    the set it started from; and so does the click on a row of the
    browser, which reacts for a directory only. *)
Theorem X10_expand_click_round_trip (path : string) (prev : gset string)
    (node : TreeNode.t) :
  (path ∈ handleToggleExpand path prev ↔ path ∉ prev) ∧
  (∀ q, q ≠ path → q ∈ handleToggleExpand path prev ↔ q ∈ prev) ∧
  handleToggleExpand path (handleToggleExpand path prev) = prev ∧
  FileTree.rowClick node (FileTree.rowClick node prev) = prev.
Proof.
  assert (∀ p s, handleToggleExpand p (handleToggleExpand p s) = s) as Htwice.
  { intros p s. apply set_eq. intros q.
    rewrite !elem_of_handleToggleExpand.
    destruct (decide (q = p)) as [->|Hne].
    - rewrite elem_of_handleToggleExpand, decide_True by done.
      split; [apply dec_stable|by intros ? ?].
    - by rewrite elem_of_handleToggleExpand, decide_False. }
  split; [|split; [|split]].
  - by rewrite elem_of_handleToggleExpand, decide_True.
  - intros q Hq. by rewrite elem_of_handleToggleExpand, decide_False.
  - apply Htwice.
  - unfold FileTree.rowClick. destruct (FileTree.isDirectory node); [|done].
    apply Htwice.
Qed.

Lemma count_occurs c s : JS.count c s = 0 ↔ JS.occurs c s = false.
Proof.
  induction s as [|d r IH]; simpl; [done|].
  destruct (Ascii.eqb d c); simpl; [split; [lia|done]|apply IH].
Qed.

Lemma initialExpansion_fold items : ∀ (acc : gset string) p,
  p ∈ fold_left
        (λ expansion item,
           match GitHubItem.type item with
           | blob => expansion
           | tree =>
               if (length (JS.split "/" (GitHubItem.path item)) <? 2)%nat
               then expansion ∪ {[GitHubItem.path item]}
               else expansion
           end) items acc ↔
  p ∈ acc ∨
  ∃ e, e ∈ items ∧ GitHubItem.type e = tree ∧ GitHubItem.path e = p ∧
       JS.occurs "/" p = false.
Proof.
  induction items as [|it items IH]; intros acc p; simpl.
  - split; [by left|]. intros [?|(e & He & _)]; [done|].
    by apply elem_of_nil in He.
  - rewrite IH. clear IH.
    assert ((length (JS.split "/" (GitHubItem.path it)) <? 2)%nat =
            negb (JS.occurs "/" (GitHubItem.path it))) as Hlen.
    { rewrite split_length.
      destruct (JS.occurs "/" (GitHubItem.path it)) eqn:Ho; simpl.
      - apply Nat.ltb_ge.
        destruct (JS.count "/" (GitHubItem.path it)) eqn:Hc; [|lia].
        apply count_occurs in Hc. congruence.
      - apply count_occurs in Ho. by rewrite Ho. }
    rewrite Hlen. split.
    + intros [Hp|(e & He & Hrest)].
      * destruct (GitHubItem.type it) eqn:Hty; [by left|].
        destruct (JS.occurs "/" (GitHubItem.path it)) eqn:Ho; [by left|].
        simpl in Hp.
        apply elem_of_union in Hp as [Hp|Hp%elem_of_singleton]; [by left|].
        right. exists it. subst p. split; [by left|done].
      * right. exists e. split; [by right|done].
    + intros [Hp|(e & [->|He]%elem_of_cons & Hty & Hpath & Ho)].
      * left. destruct (GitHubItem.type it); [done|].
        destruct (negb _); [|done]. apply elem_of_union. by left.
      * left. rewrite Hty, Hpath, Ho. simpl.
        apply elem_of_union. right. by apply elem_of_singleton.
      * right. exists e. done.
Qed.

(** X11: the rows expanded after a fetch are the root (path [""]) and the
    directories of the first level that the list names itself: a path is
    in the first expansion exactly when it is empty or is the path,
    without ['/'], of a DIRECTORY entry.  A first-level directory that
    the list only implies through the paths of its files is not
    expanded. *)
Theorem X11_rows_expanded_after_fetch (items : list GitHubItem.t)
    (p : string) :
  p ∈ initialExpansion items ↔
  p = "" ∨
  ∃ e, e ∈ items ∧ GitHubItem.type e = tree ∧ GitHubItem.path e = p ∧
       JS.occurs "/" p = false.
Proof.
  unfold initialExpansion. rewrite initialExpansion_fold.
  by rewrite elem_of_singleton.
Qed.

(** ** generateOutput: what is requested and what comes back *)

Lemma traverse_unfold selection n acc :
  traverse selection n acc =
  fold_left (λ a kc, traverse selection (snd kc) a) (TreeNode.kids n)
    match TreeNode.type n with
    | blob =>
        if JS.truthy (selection !! TreeNode.path n)
        then acc ++ [targetOf n] else acc
    | tree => acc
    end.
Proof. destruct n as [? ? ? ? ? [cs|]]; done. Qed.

Lemma filter_concat_map {A B} (keep : B → bool) (g : A → list B) (l : list A) :
  List.filter keep (concat (map g l)) =
  concat (map (λ x, List.filter keep (g x)) l).
Proof.
  induction l as [|a l IH]; simpl; [done|].
  by rewrite List.filter_app, IH.
Qed.

Lemma selectedFiles_unfold selection n :
  selectedFiles selection n =
  match TreeNode.type n with
  | blob => if JS.truthy (selection !! TreeNode.path n) then [n] else []
  | tree => []
  end ++ concat (map (λ kc, selectedFiles selection (snd kc)) (TreeNode.kids n)).
Proof.
  unfold selectedFiles. rewrite fileNodes_unfold, List.filter_app.
  rewrite filter_concat_map. f_equal.
  destruct (TreeNode.type n); [|done]. simpl.
  by destruct (JS.truthy (selection !! TreeNode.path n)).
Qed.

Lemma traverse_selected selection : ∀ n acc,
  traverse selection n acc = acc ++ (targetOf <$> selectedFiles selection n).
Proof.
  induction n as [n IH] using TreeNode_ind_kids. intros acc.
  rewrite traverse_unfold, selectedFiles_unfold, fmap_app, app_assoc.
  set (own := match TreeNode.type n with
              | blob => if JS.truthy (selection !! TreeNode.path n)
                        then [n] else []
              | tree => []
              end).
  assert (match TreeNode.type n with
          | blob => if JS.truthy (selection !! TreeNode.path n)
                    then acc ++ [targetOf n] else acc
          | tree => acc
          end = acc ++ (targetOf <$> own)) as ->.
  { subst own. destruct (TreeNode.type n); [|by rewrite app_nil_r].
    destruct (JS.truthy _); [done|by rewrite app_nil_r]. }
  generalize (acc ++ (targetOf <$> own)). clear own.
  induction IH as [|kc cs Hkc _ IHcs]; intros acc'; simpl.
  - by rewrite app_nil_r.
  - by rewrite Hkc, IHcs, fmap_app, app_assoc.
Qed.

Lemma selectedFiles_elem selection t f :
  f ∈ selectedFiles selection t ↔
  f ∈ fileNodes t ∧ JS.truthy (selection !! TreeNode.path f) = true.
Proof.
  unfold selectedFiles. by rewrite list_elem_of_In, filter_In, <- list_elem_of_In.
Qed.

Lemma selectedFiles_nil selection t :
  selectedFiles selection t = [] ↔
  ∀ f, f ∈ fileNodes t → JS.truthy (selection !! TreeNode.path f) = false.
Proof.
  split.
  - intros Hnil f Hf.
    destruct (JS.truthy (selection !! TreeNode.path f)) eqn:Ht; [|done].
    assert (f ∈ selectedFiles selection t) as Hin
      by (by apply selectedFiles_elem).
    rewrite Hnil in Hin. by apply elem_of_nil in Hin.
  - intros H. destruct (selectedFiles selection t) as [|f l] eqn:Hsel; [done|].
    assert (f ∈ selectedFiles selection t) as Hin by (rewrite Hsel; by left).
    apply selectedFiles_elem in Hin as [Hf Ht]. rewrite (H f Hf) in Ht. done.
Qed.


Lemma generateOutput_cases (localeCompare : string → string → Z)
    fetch t selection downloadFormat activeRepoDetails :
  generateOutput localeCompare fetch (Some t) selection downloadFormat
    activeRepoDetails =
  match selectedFiles selection t with
  | [] => SelectionError "Please select at least one file."
  | _ :: _ =>
      match Service.fetchFileContents fetch
              (targetOf <$> selectedFiles selection t) with
      | None => FetchRejected
      | Some contents =>
          Generated contents
            (formatRepoOutput localeCompare contents t
               match downloadFormat with
               | asMd => md
               | asTxt | asPdf => txt
               end activeRepoDetails)
      end
  end.
Proof.
  unfold generateOutput. rewrite traverse_selected, app_nil_l.
  destruct (selectedFiles selection t) as [|f l]; [done|]. simpl.
  destruct (Service.fetchFileContents _ _); [|done].
  by destruct downloadFormat.
Qed.


Lemma fetchOne_Some fetch file c :
  Service.fetchOne fetch file = Some c →
  rejects fetch (FetchTarget.url file) = false ∧
  FileContent.path c = FetchTarget.path file ∧
  FileContent.url c = FetchTarget.url file ∧
  FileContent.type c =
    (if has Service.IMAGE_EXTENSIONS (extensionOf (FetchTarget.path file))
     then image else text).
Proof.
  unfold Service.fetchOne, rejects. cbv zeta.
  destruct (fetch (FetchTarget.url file)) as [response|]; [|done].
  destruct (Response.ok response); [|done]. simpl.
  destruct (has Service.IMAGE_EXTENSIONS _); by intros [= <-].
Qed.

Lemma fetchOne_None fetch file :
  Service.fetchOne fetch file = None ↔
  rejects fetch (FetchTarget.url file) = true.
Proof.
  unfold Service.fetchOne, rejects. cbv zeta.
  destruct (fetch (FetchTarget.url file)) as [response|]; [|done].
  destruct (Response.ok response); simpl; [|done].
  by destruct (has Service.IMAGE_EXTENSIONS _).
Qed.

Lemma fetchFileContents_Some fetch : ∀ files contents,
  Service.fetchFileContents fetch files = Some contents →
  FileContent.path <$> contents = FetchTarget.path <$> files ∧
  FileContent.url <$> contents = FetchTarget.url <$> files ∧
  ∀ c, c ∈ contents →
       FileContent.type c =
       if has Service.IMAGE_EXTENSIONS (extensionOf (FileContent.path c))
       then image else text.
Proof.
  intros files contents H%mapM_Some_1.
  induction H as [|file c files contents Hc _ IH].
  - split; [done|]. split; [done|]. intros c Hc. by apply elem_of_nil in Hc.
  - destruct IH as (IHp & IHu & IHt).
    apply fetchOne_Some in Hc as (_ & Hp & Hu & Ht).
    rewrite !fmap_cons, IHp, IHu, Hp, Hu. split; [done|]. split; [done|].
    intros c' [->|Hin]%elem_of_cons; [by rewrite Hp|by apply IHt].
Qed.



(** ** After a fetch: the default selection and the tree *)

(** A FILE node of a built tree carries the path of a FILE entry. *)
Lemma fileNodes_listed items f :
  f ∈ fileNodes (buildTree items) → listsFile (TreeNode.path f) items = true.
Proof.
  intros [Hin Hblob]%fileNodes_allNodes.
  destruct (allNodes_nodeAt _ f (uniqueKeys_buildTree items) Hin)
    as [[|p r] Hps].
  - injection Hps as <-. pose proof (label_buildTree items) as Hl.
    apply label_eq in Hl as (_ & _ & Hty & _). simpl in Hty. congruence.
  - pose proof (nodeAt_buildTree_fields _ _ _ _ Hps)
      as (it & Hit & _ & _ & Hpath & Hty & _).
    apply listsFile_true. exists it. split; [done|].
    case_bool_decide as Heq; [|congruence].
    split; [congruence|]. rewrite Hpath, Heq. symmetry. apply join_split.
Qed.

(** X15: right after a fetch every FILE node of the tree has an entry in
    the selection, [true] exactly when the lower-case extension of its
    path is in the allow-list; so a [generateOutput] that follows the
    fetch directly asks for the FILE nodes with such an extension, all of
    them and no other. *)
Theorem X15_first_request_follows_extensions (items : list GitHubItem.t) :
  (∀ f, f ∈ fileNodes (buildTree items) →
        initialSelection items !! TreeNode.path f =
        Some (has COMMON_EXTENSIONS (extensionOf (TreeNode.path f)))) ∧
  traverse (initialSelection items) (buildTree items) [] =
    targetOf <$>
      List.filter
        (λ f, has COMMON_EXTENSIONS (extensionOf (TreeNode.path f)))
        (fileNodes (buildTree items)).
Proof.
  assert (∀ f, f ∈ fileNodes (buildTree items) →
            initialSelection items !! TreeNode.path f =
            Some (has COMMON_EXTENSIONS (extensionOf (TreeNode.path f))))
    as Hkeys.
  { intros f Hf. rewrite initialSelection_lookup, fileNodes_listed by done.
    assert (TreeNode.path f ≠ "__proto__") as Hne.
    { apply plain_not_proto, (node_path_plain items).
      by apply fileNodes_allNodes in Hf as [? _]. }
    by apply String.eqb_neq in Hne as ->. }
  split; [done|]. rewrite traverse_selected, app_nil_l. f_equal.
  unfold selectedFiles. apply List.filter_ext_in.
  intros f Hf%list_elem_of_In. by rewrite (Hkeys f Hf).
Qed.

(** ** Pictures: the service and the browser *)

Lemma separator_decomposition sep s :
  JS.occurs sep s = false ∨
  ∃ q l, s = q +:+ String sep l ∧ JS.occurs sep l = false.
Proof.
  induction s as [|c r IH]; [by left|].
  destruct IH as [Hr|(q & l & -> & Hl)].
  - simpl. destruct (Ascii.eqb_spec c sep) as [->|Hne]; [|by left].
    right. by exists "", r.
  - right. by exists (String c q), l.
Qed.

Lemma suffix_after_separator c d : ∀ a a' b b',
  a +:+ String c b = a' +:+ String d b' → c ≠ d → JS.occurs c b' = false →
  ∃ x, b = x +:+ String d b'.
Proof.
  induction a as [|h a IH]; intros a' b b' Heq Hcd Hb'.
  - destruct a' as [|h' a''].
    + change (String c b = String d b') in Heq. congruence.
    + change (String c b = String h' (a'' +:+ String d b')) in Heq.
      injection Heq as _ ->. eauto.
  - destruct a' as [|h' a''].
    + change (String h (a +:+ String c b) = String d b') in Heq.
      injection Heq as _ Heq. rewrite <- Heq, occurs_append in Hb'.
      simpl in Hb'. rewrite Ascii.eqb_refl, orb_true_r in Hb'. done.
    + change (String h (a +:+ String c b) =
              String h' (a'' +:+ String d b')) in Heq.
      injection Heq as _ Heq. by apply (IH a'').
Qed.

Lemma occurs_slash_toLowerCase s :
  JS.occurs "/" (JS.toLowerCase s) = JS.occurs "/" s.
Proof.
  induction s as [|c r IH]; simpl; [done|]. rewrite IH. f_equal.
  by destruct c as [[] [] [] [] [] [] [] []].
Qed.

(** The extension of the last segment of a path is the extension of the
    path, when that one holds no ['/']. *)
Lemma extensionOf_last_segment pre name e :
  extensionOf (pre +:+ String "/" name) = e → JS.occurs "/" e = false →
  extensionOf name = e.
Proof.
  intros He Hslash.
  destruct (separator_decomposition "." (pre +:+ String "/" name))
    as [Hdot|(q & l & Heq & Hl)].
  - rewrite (extensionOf_dotless _ Hdot) in He.
    rewrite <- He, occurs_slash_toLowerCase, occurs_append in Hslash.
    simpl in Hslash. by rewrite orb_true_r in Hslash.
  - rewrite Heq in He.
    change (q +:+ String "." l) with (q +:+ "." +:+ l) in He.
    rewrite (extensionOf_dotted _ _ Hl) in He.
    rewrite <- He, occurs_slash_toLowerCase in Hslash.
    apply suffix_after_separator in Heq as [x ->]; [|done..].
    change (x +:+ String "." l) with (x +:+ "." +:+ l).
    by rewrite (extensionOf_dotted _ _ Hl).
Qed.

(** Below the root of a built tree, the path of a node is its name,
    alone or after a ['/']. *)
Lemma path_ends_with_name items p r n :
  nodeAt (buildTree items) (p :: r) = Some n →
  TreeNode.path n = TreeNode.name n ∨
  ∃ pre, TreeNode.path n = pre +:+ String "/" (TreeNode.name n).
Proof.
  intros Hn.
  pose proof (nodeAt_buildTree_name _ _ _ _ Hn) as Hname.
  pose proof (nodeAt_buildTree_fields _ _ _ _ Hn)
    as (it & _ & _ & _ & Hpath & _).
  symmetry in Hname. apply last_Some in Hname as [init Hinit].
  rewrite Hpath, Hinit. destruct init as [|q init].
  - by left.
  - right. exists (JS.join "/" (q :: init)). by rewrite join_app.
Qed.

Lemma image_extension_shape e :
  has FileTree.IMAGE_EXTENSIONS e = true →
  JS.occurs "/" e = false ∧
  (has Service.IMAGE_EXTENSIONS e = true ∨ e = "svg").
Proof.
  unfold has, FileTree.IMAGE_EXTENSIONS. intros H%bool_decide_eq_true.
  apply elem_of_list_to_set in H.
  repeat (apply elem_of_cons in H as [->|H]; [by vm_compute; auto|]).
  by apply elem_of_nil in H.
Qed.

Lemma service_image_extension e :
  has Service.IMAGE_EXTENSIONS e = true →
  has FileTree.IMAGE_EXTENSIONS e = true.
Proof.
  unfold has, Service.IMAGE_EXTENSIONS. intros H%bool_decide_eq_true.
  apply elem_of_list_to_set in H.
  repeat (apply elem_of_cons in H as [->|H]; [by vm_compute|]).
  by apply elem_of_nil in H.
Qed.

Lemma extensionOf_node_name items n e :
  n ∈ allNodes (buildTree items) →
  extensionOf (TreeNode.path n) = e →
  has FileTree.IMAGE_EXTENSIONS e = true →
  extensionOf (TreeNode.name n) = e.
Proof.
  intros Hn He Himg.
  destruct (image_extension_shape _ Himg) as [Hslash _].
  destruct (allNodes_nodeAt _ n (uniqueKeys_buildTree items) Hn)
    as [[|p r] Hps].
  - injection Hps as <-. pose proof (label_buildTree items) as Hl.
    apply label_eq in Hl as (_ & Hpath & _). simpl in Hpath.
    rewrite Hpath in He. subst e. vm_compute in Himg. done.
  - destruct (path_ends_with_name _ _ _ _ Hps) as [Heq|[pre Heq]].
    + by rewrite <- Heq.
    + rewrite Heq in He. by apply (extensionOf_last_segment pre).
Qed.

(** X16: pictures in the browser and in the bundle.  For every node of a
    built tree: when the service returns its content as an image,
    [getFileIcon] gives the image icon for it, which is the icon of its
    row unless the row is shown as a directory (the service takes the
    extension from the path, the browser from the name); and a node whose
    name has the extension ["svg"] gets the image icon from [getFileIcon],
    yet its content is always returned as text. *)
Theorem X16_image_contents_have_image_icon (items : list GitHubItem.t)
    (n : TreeNode.t) :
  n ∈ allNodes (buildTree items) →
  (∀ fetch c, Service.fetchOne fetch (targetOf n) = Some c →
              FileContent.type c = image →
              FileTree.getFileIcon n = FileTree.imageIcon ∧
              (FileTree.isDirectory n = false →
               FileTree.rowIcon n = FileTree.imageIcon)) ∧
  (extensionOf (TreeNode.name n) = "svg" →
   FileTree.getFileIcon n = FileTree.imageIcon ∧
   ∀ fetch c, Service.fetchOne fetch (targetOf n) = Some c →
              FileContent.type c = text).
Proof.
  intros Hn.
  assert (has Service.IMAGE_EXTENSIONS (extensionOf (TreeNode.path n)) = true →
          extensionOf (TreeNode.name n) = extensionOf (TreeNode.path n))
    as Hsame.
  { intros Himg. apply (extensionOf_node_name items); [done..|].
    by apply service_image_extension. }
  split.
  - intros fetch c (_ & _ & _ & Hty)%fetchOne_Some Himg.
    simpl in Hty.
    destruct (has Service.IMAGE_EXTENSIONS (extensionOf (TreeNode.path n)))
      eqn:Hext; [|congruence].
    assert (FileTree.getFileIcon n = FileTree.imageIcon) as Hicon.
    { unfold FileTree.getFileIcon, FileTree.showsImageIcon.
      by rewrite (Hsame eq_refl), (service_image_extension _ Hext). }
    split; [done|]. intros Hdir. unfold FileTree.rowIcon. by rewrite Hdir.
  - intros Hsvg. split.
    + unfold FileTree.getFileIcon, FileTree.showsImageIcon. by rewrite Hsvg.
    + intros fetch c (_ & _ & _ & Hty)%fetchOne_Some. simpl in Hty.
      destruct (has Service.IMAGE_EXTENSIONS (extensionOf (TreeNode.path n)))
        eqn:Hext; [|done].
      rewrite <- (Hsame eq_refl), Hsvg in Hext. done.
Qed.

(** X16 at ["assets/logo.PNG"]: fetched as an image, shown with the image
    icon. *)
Lemma X16_image_contents_have_image_icon_witness :
  (∃ c, Service.fetchOne echoFetch (targetOf logoNode) = Some c ∧
        FileContent.type c = image) ∧
  FileTree.rowIcon logoNode = FileTree.imageIcon.
Proof.
  pose proof (X16_image_contents_have_image_icon pictureItems logoNode)
    as Hicon.
  destruct Hicon as [Hicon _]; [right; right; left|].
  split; [eexists; split; reflexivity|].
  eapply (Hicon echoFetch); reflexivity.
Defined.

(** ** sortTreeItems: the comparator as an order *)

(** X17: the comparator of [sortTreeItems] is as good an order as the
    locale comparison it is given.  If [localeCompare] changes sign when
    its arguments are exchanged, so does the comparator, and nothing else
    is needed of [localeCompare] for that; and if [localeCompare] answers
    0 for equal strings only, the comparator answers 0 for equal paths
    only, so that the sort never meets a tie between two different
    paths. *)
Theorem X17_comparator_antisymmetric (localeCompare : string → string → Z)
    (a b : string) :
  ((∀ x y, localeCompare y x = (- localeCompare x y)%Z) →
   comparePaths localeCompare b a = (- comparePaths localeCompare a b)%Z) ∧
  ((∀ x y, localeCompare x y = 0%Z → x = y) →
   (comparePaths localeCompare a b = 0%Z ↔ a = b)).
Proof.
  split; [intros Hanti|intros Hsep; split].
  - unfold comparePaths. cbv zeta.
    rewrite (firstDifference_swap _ Hanti).
    destruct (firstDifference localeCompare _ _ _ _ _); cbn; lia.
  - unfold comparePaths. cbv zeta.
    destruct (firstDifference localeCompare _ _ _ _ _) as [r|] eqn:Hd.
    + intros ->. by apply (firstDifference_nonzero _ Hsep) in Hd.
    + intros Hlen. apply firstDifference_None in Hd; [|lia].
      by rewrite <- (join_split "/" a), <- (join_split "/" b), Hd.
  - intros ->. unfold comparePaths. cbv zeta.
    pose proof (firstDifference_prefix_l localeCompare (JS.split "/" b) [] 0
                  (length (JS.split "/" b)) (length (JS.split "/" b))) as Hd.
    rewrite app_nil_r in Hd. rewrite Hd. lia.
Qed.

(** X17 for the comparison by code units. *)
Lemma X17_comparator_antisymmetric_witness :
  comparePaths ordinalCompare "src/sub/b.ts" "src/a.ts" =
    (- comparePaths ordinalCompare "src/a.ts" "src/sub/b.ts")%Z ∧
  (comparePaths ordinalCompare "src/a.ts" "src/sub/b.ts" = 0%Z ↔
   "src/a.ts" = "src/sub/b.ts").
Proof.
  destruct (X17_comparator_antisymmetric ordinalCompare
              "src/a.ts" "src/sub/b.ts") as [Hsign Hzero].
  split; [apply Hsign|apply Hzero].
  - intros x y. unfold ordinalCompare. rewrite (String.compare_antisym x y).
    by destruct (String.compare y x).
  - intros x y. unfold ordinalCompare.
    destruct (String.compare x y) eqn:Hc; try done.
    intros _. by apply String.compare_eq_iff.
Defined.

(** ** parseRepoUrl *)

Lemma stripPrefix_Some : ∀ p s r, stripPrefix p s = Some r → s = p +:+ r.
Proof.
  induction p as [|c p IH]; intros s r; simpl.
  - by intros [= ->].
  - destruct s as [|d s]; [done|].
    destruct (Ascii.eqb_spec c d) as [->|Hne]; [|done].
    intros H. change (String d s = String d (p +:+ r)). f_equal.
    by apply IH.
Qed.

Lemma stripPrefix_app : ∀ p r, stripPrefix p (p +:+ r) = Some r.
Proof.
  induction p as [|c p IH]; intros r; [done|].
  change (String c p +:+ r) with (String c (p +:+ r)). simpl.
  by rewrite Ascii.eqb_refl.
Qed.

Lemma segmentOk_occurs s : segmentOk s = true → JS.occurs "/" s = false.
Proof. intros [_ H]%andb_prop. by apply negb_true_iff. Qed.

Lemma segmentOk_nonEmpty s : segmentOk s = true → nonEmpty s = true.
Proof. by intros [H _]%andb_prop. Qed.

Lemma segmentOk_intro s :
  nonEmpty s = true → JS.occurs "/" s = false → segmentOk s = true.
Proof. unfold segmentOk. by intros -> ->. Qed.

Lemma join_single sep s : JS.join sep [s] = s.
Proof. done. Qed.

(** What the pattern accepts, read off the cleaned URL. *)
Lemma parseRepoUrl_accepts url d :
  wellFormedDetails d = true → dropFinalSlash url = repoUrl d →
  parseRepoUrl url = inr d.
Proof.
  intros Hwf Hclean. unfold parseRepoUrl. cbv zeta.
  rewrite Hclean. unfold repoUrl. rewrite stripPrefix_app.
  destruct d as [o r rf p]. unfold wellFormedDetails, urlSegments in *.
  cbn [RepoDetails.owner RepoDetails.repo RepoDetails.ref RepoDetails.path]
    in *.
  apply andb_prop in Hwf as [[Ho Hr]%andb_prop Hrest].
  pose proof (segmentOk_occurs _ Ho) as Ho'.
  pose proof (segmentOk_occurs _ Hr) as Hr'.
  apply segmentOk_nonEmpty in Ho, Hr.
  destruct rf as [rf|], p as [p|]; try done.
  - apply andb_prop in Hrest as [[Hrf Hp]%andb_prop Hlt].
    pose proof (segmentOk_occurs _ Hrf) as Hrf'.
    apply segmentOk_nonEmpty in Hrf.
    change [o; r; "tree"; rf; p] with ([o; r; "tree"; rf] ++ [p]).
    rewrite join_app, join_single by done.
    change ("/" +:+ p) with (String "/" p).
    rewrite split_app_sep, split_join
      by (split; [done|by repeat constructor]).
    pose proof (join_split "/" p) as Hj.
    destruct (JS.split "/" p) as [|h t] eqn:Hsplit;
      [by apply split_nonempty in Hsplit|].
    cbn [app]. rewrite Ho, Hr, Hrf. cbn [andb String.eqb Ascii.eqb Bool.eqb].
    rewrite Hj, Hp, Hlt. done.
  - apply segmentOk_occurs in Hrest as Hrf'.
    apply segmentOk_nonEmpty in Hrest.
    rewrite split_join by (split; [done|by repeat constructor]).
    rewrite Ho, Hr, Hrest. done.
  - rewrite split_join by (split; [done|by repeat constructor]).
    by rewrite Ho, Hr.
Qed.

Lemma parseRepoUrl_sound url d :
  parseRepoUrl url = inr d →
  wellFormedDetails d = true ∧ dropFinalSlash url = repoUrl d.
Proof.
  unfold parseRepoUrl. cbv zeta.
  destruct (stripPrefix _ (dropFinalSlash url)) as [rest|] eqn:Hs; [|done].
  apply stripPrefix_Some in Hs.
  pose proof (join_split "/" rest) as Hj.
  pose proof (split_segments "/" rest) as [_ Hall].
  destruct (JS.split "/" rest) as [|o [|r [|k [|rf tail]]]] eqn:Hsplit;
    try done.
  - destruct (nonEmpty o) eqn:Ho, (nonEmpty r) eqn:Hr; try done.
    cbn [andb]. intros [= <-].
    apply Forall_cons in Hall as [Ho' Hall].
    apply Forall_cons in Hall as [Hr' _].
    unfold wellFormedDetails, repoUrl, urlSegments. cbn.
    rewrite !segmentOk_intro by done. split; [done|].
    by rewrite Hs, <- Hj.
  - destruct (nonEmpty o) eqn:Ho, (nonEmpty r) eqn:Hr,
      (String.eqb_spec k "tree") as [->|Hk], (nonEmpty rf) eqn:Hrf;
      try done.
    cbn [andb].
    apply Forall_cons in Hall as [Ho' Hall].
    apply Forall_cons in Hall as [Hr' Hall].
    apply Forall_cons in Hall as [_ Hall].
    apply Forall_cons in Hall as [Hrf' _].
    destruct tail as [|h t].
    + intros [= <-].
      unfold wellFormedDetails, repoUrl, urlSegments. cbn.
      rewrite !segmentOk_intro by done. split; [done|].
      by rewrite Hs, <- Hj.
    + remember (JS.join "/" (h :: t)) as path eqn:Hpath.
      destruct (nonEmpty path) eqn:Hp; [|done].
      destruct (hasLineTerminator path) eqn:Hlt; [done|].
      cbn [andb negb]. intros [= <-].
      unfold wellFormedDetails, repoUrl, urlSegments.
      cbn [RepoDetails.owner RepoDetails.repo RepoDetails.ref
             RepoDetails.path].
      rewrite !segmentOk_intro, Hp, Hlt by done. split; [done|].
      rewrite Hs, <- Hj.
      change (o :: r :: "tree" :: rf :: h :: t)
        with ([o; r; "tree"; rf] ++ h :: t).
      change [o; r; "tree"; rf; path] with ([o; r; "tree"; rf] ++ [path]).
      by rewrite !(join_app "/" [o; r; "tree"; rf]), join_single, Hpath.
Qed.

(** X18: what [parseRepoUrl] accepts.  It returns details [d] for a URL
    exactly when the URL, one final ['/'] dropped, is
    [https://github.com/owner/repo], [.../tree/ref] or
    [.../tree/ref/path] written with the fields of [d], where owner, repo
    and ref are non-empty without ['/'] and path is non-empty without a
    line terminator; a ref comes with [/tree/] only, a path with a ref
    only.  Every other URL gets the error with the fixed message. *)
Theorem X18_accepted_urls (url : string) :
  (∀ d, parseRepoUrl url = inr d ↔
        wellFormedDetails d = true ∧ dropFinalSlash url = repoUrl d) ∧
  (∀ message, parseRepoUrl url = inl message → message = invalidUrlMessage).
Proof.
  split.
  - intros d. split; [apply parseRepoUrl_sound|].
    intros [Hwf Hclean]. by apply parseRepoUrl_accepts.
  - intros message. unfold parseRepoUrl. cbv zeta.
    destruct (stripPrefix _ _) as [rest|]; [|congruence].
    destruct (JS.split "/" rest) as [|o [|r [|k [|rf [|h t]]]]];
      repeat (match goal with |- context [if ?c then _ else _] =>
                destruct c end);
      congruence.
Qed.

Lemma dropFinalSlash_keep : ∀ s, endsWithSlash s = false → dropFinalSlash s = s.
Proof.
  induction s as [|c r IH]; [done|]. destruct r as [|d r'].
  - simpl. by intros ->.
  - intros H. change (dropFinalSlash (String c (String d r')))
      with (String c (dropFinalSlash (String d r'))).
    f_equal. by apply IH.
Qed.

Lemma dropFinalSlash_app_slash : ∀ s, dropFinalSlash (s +:+ "/") = s.
Proof.
  induction s as [|c r IH]; [done|].
  change (String c r +:+ "/") with (String c (r +:+ "/")).
  destruct r as [|d r']; [done|].
  change (String d r' +:+ "/") with (String d (r' +:+ "/")) in *.
  change (dropFinalSlash (String c (String d (r' +:+ "/"))))
    with (String c (dropFinalSlash (String d (r' +:+ "/")))).
  by rewrite IH.
Qed.

Lemma endsWithSlash_app : ∀ a b,
  b ≠ "" → endsWithSlash (a +:+ b) = endsWithSlash b.
Proof.
  induction a as [|c a IH]; intros b Hb; [done|].
  change (String c a +:+ b) with (String c (a +:+ b)).
  specialize (IH b Hb).
  destruct (a +:+ b) as [|d r] eqn:Hab; [|done].
  destruct a; [|done]. by destruct b.
Qed.

Lemma endsWithSlash_segment : ∀ s, JS.occurs "/" s = false → endsWithSlash s = false.
Proof.
  induction s as [|c r IH]; [done|]. simpl.
  intros [Hc Hr]%orb_false_elim. destruct r; [done|]. by apply IH.
Qed.

Lemma nonEmpty_ne s : nonEmpty s = true → s ≠ "".
Proof. by destruct s. Qed.

Lemma endsWithSlash_repoUrl d :
  wellFormedDetails d = true →
  (∀ p, RepoDetails.path d = Some p → endsWithSlash p = false) →
  endsWithSlash (repoUrl d) = false.
Proof.
  intros Hwf Hpath. destruct d as [o r rf p].
  unfold wellFormedDetails, repoUrl, urlSegments in *.
  cbn [RepoDetails.owner RepoDetails.repo RepoDetails.ref RepoDetails.path]
    in *.
  apply andb_prop in Hwf as [[Ho Hr]%andb_prop Hrest].
  destruct rf as [rf|], p as [p|]; try done.
  - apply andb_prop in Hrest as [[Hrf Hp]%andb_prop Hlt].
    change [o; r; "tree"; rf; p] with ([o; r; "tree"; rf] ++ [p]).
    rewrite join_app, join_single, <- !append_assoc by done.
    rewrite endsWithSlash_app by (by apply nonEmpty_ne). by apply Hpath.
  - change [o; r; "tree"; rf] with ([o; r; "tree"] ++ [rf]).
    rewrite join_app, join_single, <- !append_assoc by done.
    rewrite endsWithSlash_app by (by apply nonEmpty_ne, segmentOk_nonEmpty).
    by apply endsWithSlash_segment, segmentOk_occurs.
  - change [o; r] with ([o] ++ [r]).
    rewrite join_app, join_single, <- !append_assoc by done.
    rewrite endsWithSlash_app by (by apply nonEmpty_ne, segmentOk_nonEmpty).
    by apply endsWithSlash_segment, segmentOk_occurs.
Qed.

(** X19: writing an address and reading it back.  For well-formed details
    whose path, if any, does not end in ['/'], [parseRepoUrl] returns the
    details from their URL, and also from that URL followed by one
    ['/']. *)
Theorem X19_url_round_trip (d : RepoDetails.t) :
  wellFormedDetails d = true →
  (∀ p, RepoDetails.path d = Some p → endsWithSlash p = false) →
  parseRepoUrl (repoUrl d) = inr d ∧
  parseRepoUrl (repoUrl d +:+ "/") = inr d.
Proof.
  intros Hwf Hpath. split; apply parseRepoUrl_accepts; try done.
  - by apply dropFinalSlash_keep, endsWithSlash_repoUrl.
  - apply dropFinalSlash_app_slash.
Qed.

(** X19 for [https://github.com/octo/demo/tree/main/src/lib]. *)
Lemma X19_url_round_trip_witness :
  parseRepoUrl "https://github.com/octo/demo/tree/main/src/lib"
    = inr sampleDetails ∧
  parseRepoUrl "https://github.com/octo/demo/tree/main/src/lib/"
    = inr sampleDetails.
Proof.
  apply (X19_url_round_trip sampleDetails).
  - reflexivity.
  - intros p [= <-]. reflexivity.
Defined.

(** ** buildAsciiIndex on built trees *)

(** Below the root of a built tree, the name of a node is a segment of
    the path of some entry. *)
Lemma name_is_segment items p r n :
  nodeAt (buildTree items) (p :: r) = Some n →
  ∃ e, e ∈ items ∧ TreeNode.name n ∈ partsOf e.
Proof.
  intros Hn.
  pose proof (nodeAt_buildTree_name _ _ _ _ Hn) as Hname.
  pose proof (nodeAt_buildTree_fields _ _ _ _ Hn)
    as (it & Hit & Hpre & _).
  exists it. split; [done|]. rewrite (isPrefix_split _ _ Hpre).
  apply elem_of_app. left. symmetry in Hname.
  apply last_Some in Hname as [init ->]. apply elem_of_app. right. by left.
Qed.

Lemma below_root_nodeAt items kc m :
  kc ∈ TreeNode.kids (buildTree items) → m ∈ allNodes (snd kc) →
  ∃ qs, nodeAt (buildTree items) (fst kc :: qs) = Some m.
Proof.
  intros Hkc Hm. pose proof (uniqueKeys_buildTree items) as Hu.
  destruct (allNodes_nodeAt (snd kc) m) as [qs Hqs];
    [by apply (uniqueKeys_child (buildTree items))|done|].
  exists qs. simpl.
  rewrite (elem_get _ (fst kc) (snd kc)); [done| |by destruct kc].
  apply Hu, allNodes_kids. by left.
Qed.

(** X20: the number of lines of the directory index.  For an entry list
    in which no segment of a path is ["root"] or holds a line feed, the
    index [buildAsciiIndex] prints for the built tree has one line for
    every node of the tree but the root. *)
Theorem X20_index_has_a_line_per_node (items : list GitHubItem.t) :
  (∀ e seg, e ∈ items → seg ∈ partsOf e →
            seg ≠ "root" ∧ JS.occurs JS.LF seg = false) →
  lineCount (renderTree (buildTree items)) =
  length (allNodes (buildTree items)) - 1.
Proof.
  intros Hsegs.
  pose proof (label_buildTree items) as Hl.
  apply label_eq in Hl as (Hroot & _). simpl in Hroot.
  apply renderTree_lineCount; [done| |].
  - intros m [->|(kc & Hkc & Hm)]%allNodes_kids; [by rewrite Hroot|].
    destruct (below_root_nodeAt _ _ _ Hkc Hm) as [qs Hqs].
    destruct (name_is_segment _ _ _ _ Hqs) as (e & He & Hseg).
    by apply (Hsegs e).
  - intros kc m Hkc Hm.
    destruct (below_root_nodeAt _ _ _ Hkc Hm) as [qs Hqs].
    destruct (name_is_segment _ _ _ _ Hqs) as (e & He & Hseg).
    by apply (Hsegs e).
Qed.

(** X20 on the sample list: five nodes below the root, five lines. *)
Lemma X20_index_has_a_line_per_node_witness :
  lineCount (renderTree (buildTree sampleItems)) =
  length (allNodes (buildTree sampleItems)) - 1.
Proof.
  apply (X20_index_has_a_line_per_node sampleItems).
  intros e seg He. revert seg. apply Forall_forall. revert e He.
  apply (forallb_decide
           (λ e, Forall (λ seg, seg ≠ "root" ∧ JS.occurs JS.LF seg = false)
                   (partsOf e))).
  vm_compute. reflexivity.
Defined.

(** ** The default selection and the order of the list *)

Lemma listsFile_perm p items items' :
  items ≡ₚ items' → listsFile p items = listsFile p items'.
Proof.
  unfold listsFile. induction 1 as [|x l l' _ IH|x y l|l l' l'' _ IH1 _ IH2];
    simpl; [done|by rewrite IH| |congruence].
  by rewrite !orb_assoc, (orb_comm (_ && _) (_ && _)).
Qed.

(** X21: the default selection does not depend on the order of the list.
    Two lists with the same entries in any order get the same selection
    map from [handleFetch], whereas the tree may differ (the first entry
    of a path decides its node). *)
Theorem X21_default_selection_ignores_order (items items' : list GitHubItem.t) :
  items ≡ₚ items' → initialSelection items = initialSelection items'.
Proof.
  intros Hperm. apply map_eq. intros p.
  by rewrite !initialSelection_lookup, (listsFile_perm p _ _ Hperm).
Qed.

(** X21 on the sample list and its reversal. *)
Lemma X21_default_selection_ignores_order_witness :
  initialSelection sampleItems = initialSelection (reverse sampleItems).
Proof.
  apply (X21_default_selection_ignores_order sampleItems (reverse sampleItems)).
  symmetry. apply reverse_Permutation.
Defined.

(** ** A click, then the bundle *)

Lemma requested_iff selection t f :
  f ∈ fileNodes t →
  targetOf f ∈ traverse selection t [] ↔
  JS.truthy (selection !! TreeNode.path f) = true.
Proof.
  intros Hf. rewrite traverse_selected, app_nil_l, list_elem_of_fmap. split.
  - intros (g & Heq & [_ Hg]%selectedFiles_elem).
    injection Heq as Hpath _. by rewrite Hpath.
  - intros Ht. exists f. split; [done|]. by apply selectedFiles_elem.
Qed.

Lemma fileNodes_sub t n f :
  n ∈ allNodes t → f ∈ fileNodes n → f ∈ fileNodes t.
Proof.
  intros Hn [Hf Hblob]%fileNodes_allNodes. apply fileNodes_allNodes.
  split; [|done]. by apply (allNodes_trans f n).
Qed.

(** X22: a click on a directory's box, then [generateOutput].  When the
    click turns the directory on (some inspected key was not selected),
    every FILE beneath it is requested; when it turns it off, no request
    carries the path of a FILE beneath it; and a FILE of the tree whose
    path is none of these is requested after the click exactly when it
    was before. *)
Theorem X22_click_then_bundle (tree : TreeNode.t) (selection : SelectionState)
    (path : string) (node : TreeNode.t) :
  findNode path tree = Some node →
  let after := handleToggle (Some tree) path false selection in
  (isCurrentlySelected selection path = false →
   ∀ f, f ∈ fileNodes node → targetOf f ∈ traverse after tree []) ∧
  (isCurrentlySelected selection path = true →
   ∀ file, file ∈ traverse after tree [] →
           FetchTarget.path file ∉ filePaths node) ∧
  (∀ f, f ∈ fileNodes tree → TreeNode.path f ∉ filePaths node →
        targetOf f ∈ traverse after tree [] ↔
        targetOf f ∈ traverse selection tree []).
Proof.
  intros Hfind after.
  assert (∀ k, after !! k =
               if bool_decide (k ∈ filePaths node)
               then Some (negb (isCurrentlySelected selection path))
               else selection !! k) as Hafter.
  { intros k. subst after.
    by rewrite (handleToggle_found _ _ _ _ Hfind), lookup_writeAll. }
  apply findNode_Some in Hfind as [Hnode _].
  split; [|split].
  - intros Hics f Hf. apply requested_iff; [by apply (fileNodes_sub tree node)|].
    rewrite Hafter, bool_decide_eq_true_2, Hics; [done|].
    apply elem_of_filePaths. eauto.
  - intros Hics file Hfile Hin.
    rewrite traverse_selected, app_nil_l in Hfile.
    apply list_elem_of_fmap in Hfile as (g & -> & [_ Hg]%selectedFiles_elem).
    simpl in Hin. by rewrite Hafter, bool_decide_eq_true_2, Hics in Hg.
  - intros f Hf Hout. rewrite !requested_iff by done.
    by rewrite Hafter, bool_decide_eq_false_2.
Qed.

(** X22 on the sample: everything beneath ["src"] is selected, the click
    turns it off and no file beneath ["src"] is requested. *)
Lemma X22_click_then_bundle_witness :
  isCurrentlySelected sampleSelection "src" = true ∧
  ∀ file,
    file ∈ traverse (handleToggle (Some sampleTree) "src" false
                       sampleSelection) sampleTree [] →
    FetchTarget.path file ∉ filePaths srcNode.
Proof.
  pose proof (X22_click_then_bundle sampleTree sampleSelection "src" srcNode
                eq_refl) as (_ & Hoff & _).
  assert (isCurrentlySelected sampleSelection "src" = true) as Hics
    by (vm_compute; reflexivity).
  split; [exact Hics|]. by apply Hoff.
Defined.

(** ** A session: the keys of the selection *)

Lemma selectClick_keys items n (selection : SelectionState) :
  n ∈ allNodes (buildTree items) →
  (∀ k, is_Some (selection !! k) ↔
        listsFile k items = true ∧ k ≠ "__proto__") →
  ∀ k, is_Some (FileTree.selectClick (Some (buildTree items)) n selection !! k)
       ↔ listsFile k items = true ∧ k ≠ "__proto__".
Proof.
  intros Hn Hkeys k. unfold FileTree.selectClick, handleToggle.
  assert (∀ m f, m ∈ allNodes (buildTree items) → f ∈ fileNodes m →
                 listsFile (TreeNode.path f) items = true ∧
                 TreeNode.path f ≠ "__proto__") as Hfile.
  { intros m f Hm Hf. pose proof (fileNodes_sub _ m f Hm Hf) as Hf'.
    split; [by apply fileNodes_listed|].
    apply plain_not_proto, (node_path_plain items).
    by apply fileNodes_allNodes in Hf' as [? _]. }
  destruct (FileTree.isDirectory n) eqn:Hdir; cbn [negb].
  - rewrite findAndToggle_findNode.
    destruct (findNode (TreeNode.path n) (buildTree items)) as [m|] eqn:Hm;
      cbn [snd]; [|apply Hkeys].
    rewrite toggleChildren_writeAll, lookup_writeAll.
    case_bool_decide as Hk; [|apply Hkeys].
    split; [intros _|by eexists].
    apply elem_of_filePaths in Hk as (f & Hf & <-).
    apply findNode_Some in Hm as [Hm _]. by apply (Hfile m).
  - destruct (Hfile n n Hn) as [Hlisted Hne].
    { rewrite (isDirectory_false n Hdir). by left. }
    rewrite assign_insert by done.
    destruct (decide (k = TreeNode.path n)) as [->|Hk].
    + rewrite lookup_insert_eq. split; [done|by eexists].
    + rewrite lookup_insert_ne by done. apply Hkeys.
Qed.

(** X23: in a session the keys of the selection never change.  After a
    fetch, whatever boxes of the browser are clicked and in whatever
    order, the keys of the selection map are exactly the paths of the
    FILE entries of the fetched list other than [__proto__], a path at
    which the assignment of [handleFetch] creates no key: a click writes
    at keys the map has and removes nothing. *)
Theorem X23_clicks_keep_the_keys (items : list GitHubItem.t)
    (clicked : list TreeNode.t) :
  (∀ n, n ∈ clicked → n ∈ allNodes (buildTree items)) →
  let selection :=
    fold_left (λ s n, FileTree.selectClick (Some (buildTree items)) n s)
      clicked (initialSelection items) in
  sameKeys (initialSelection items) selection ∧
  (∀ k, is_Some (selection !! k) ↔
        listsFile k items = true ∧ k ≠ "__proto__") ∧
  initialSelection items !! "__proto__" = None.
Proof.
  intros Hclicked selection.
  assert (∀ k, is_Some (initialSelection items !! k) ↔
               listsFile k items = true ∧ k ≠ "__proto__") as Hinit.
  { intros k. rewrite initialSelection_lookup.
    destruct (listsFile k items); simpl.
    - destruct (String.eqb_spec k "__proto__") as [->|Hne]; simpl.
      + split; [by intros [? ?]|by intros [_ ?]].
      + split; [done|by eexists].
    - split; [by intros [? ?]|by intros [? _]]. }
  assert (∀ k, is_Some (selection !! k) ↔
               listsFile k items = true ∧ k ≠ "__proto__") as Hkeys.
  { subst selection. revert Hinit. generalize (initialSelection items).
    induction clicked as [|n clicked IH]; intros sel Hsel; [done|].
    cbn [fold_left]. apply IH.
    - intros m Hm. apply Hclicked. by right.
    - apply selectClick_keys; [|done]. apply Hclicked. by left. }
  split; [|split; [done|]].
  - intros k. by rewrite Hinit, Hkeys.
  - rewrite initialSelection_lookup. simpl. by rewrite andb_false_r.
Qed.

(** X23 on the sample: the box of ["src"], then the box of
    ["README.md"]. *)
Lemma X23_clicks_keep_the_keys_witness :
  sameKeys (initialSelection sampleItems)
    (FileTree.selectClick (Some (buildTree sampleItems)) readmeNode
       (FileTree.selectClick (Some (buildTree sampleItems)) srcNode
          (initialSelection sampleItems))).
Proof.
  apply (X23_clicks_keep_the_keys sampleItems [srcNode; readmeNode]).
  intros n [->|[->|Hn%elem_of_nil]%elem_of_cons]%elem_of_cons;
    [solve_elem|solve_elem|done].
Defined.
